(** * SentinalOS: a shallow embedding of the kernel's schedulers, allocators,
      path check, system calls and of the sentinal_send container writer.

    Conventions.
    - C integers are [Z]; a [uintN_t] wraps with [wrapN] where the source
      can overflow.
    - A pointer to a PCB or to a page descriptor is the index of the object
      in its store; [NULL] is [None].
    - A store of C objects is a finite map read with the total lookup
      [m !!! p]; a field assignment [p->f = v] is [upd p (set_f v) m]. *)

From Stdlib Require Import ZArith Lia ZifyNat Bool.
From Stdlib Require Import String Ascii.
From stdpp Require Import base option list gmap strings.

Local Open Scope Z_scope.

(** ** Machine integers *)

Definition wrap8 (x : Z) : Z := x mod 2 ^ 8.
Definition wrap32 (x : Z) : Z := x mod 2 ^ 32.
Definition wrap64 (x : Z) : Z := x mod 2 ^ 64.

(** [p->field = ...] on a store of objects addressed by index. *)
Definition upd `{Countable K} `{Inhabited A} (p : K) (f : A → A) (m : gmap K A)
  : gmap K A :=
  <[p := f (m !!! p)]> m.

(** What a kernel routine does: it returns, or it calls [kernel_panic],
    which prints and halts the CPU in an endless [cli; hlt] loop. *)
Inductive outcome (A : Type) :=
| Returned (a : A)
| Panicked (msg : string).
Arguments Returned {A} a.
Arguments Panicked {A} msg.

(** ** kernel/sched/scheduler.c *)

Module Sched.

Inductive proc_state :=
  PROC_RUNNING | PROC_READY | PROC_BLOCKED | PROC_ZOMBIE | PROC_DEAD.

#[global] Instance proc_state_eq_dec : EqDecision proc_state.
Proof. solve_decision. Defined.

(** [enum security_level], by its integer value. *)
Definition SEC_UNCLASSIFIED : Z := 0.
Definition SEC_CONFIDENTIAL : Z := 1.
Definition SEC_SECRET : Z := 2.
Definition SEC_TOPSECRET : Z := 3.
Definition SEC_PENTAGON : Z := 4.

(** [struct process]: the fields the scheduler's C code reads or writes.
    The saved register set is only touched by the inline assembly of
    [context_switch] and is left out. *)
Record process := mkProcess {
  pid : Z;
  ppid : Z;
  state : proc_state;
  sec_level : Z;
  privileged : bool;
  priority : Z;
  time_slice : Z;
  next : option nat;
  prev : option nat
}.

(** [memset(&p, 0, sizeof p)]: [PROC_RUNNING] is the enumerator 0. *)
Definition zero_process : process :=
  mkProcess 0 0 PROC_RUNNING 0 false 0 0 None None.

#[global] Instance process_inhabited : Inhabited process := populate zero_process.

Definition set_state (s : proc_state) (p : process) : process :=
  mkProcess (pid p) (ppid p) s (sec_level p) (privileged p) (priority p)
            (time_slice p) (next p) (prev p).
Definition set_next (n : option nat) (p : process) : process :=
  mkProcess (pid p) (ppid p) (state p) (sec_level p) (privileged p) (priority p)
            (time_slice p) n (prev p).
Definition set_prev (n : option nat) (p : process) : process :=
  mkProcess (pid p) (ppid p) (state p) (sec_level p) (privileged p) (priority p)
            (time_slice p) (next p) n.

Inductive log_entry :=
| WarnBlockedBySecurityPolicy (pid : Z)
| WarnTerminationBlocked.

(** [sched_state] together with the global [current_process]. *)
Record sched := mkSched {
  current_process : option nat;
  ready_queue : option nat;
  process_table : gmap nat process;
  context_switches : Z;
  initialized : bool;
  klog : list log_entry
}.

Definition with_table (t : gmap nat process) (s : sched) : sched :=
  mkSched (current_process s) (ready_queue s) t (context_switches s)
          (initialized s) (klog s).
Definition with_ready_queue (q : option nat) (s : sched) : sched :=
  mkSched (current_process s) q (process_table s) (context_switches s)
          (initialized s) (klog s).
Definition with_current (c : option nat) (s : sched) : sched :=
  mkSched c (ready_queue s) (process_table s) (context_switches s)
          (initialized s) (klog s).
Definition with_switches (n : Z) (s : sched) : sched :=
  mkSched (current_process s) (ready_queue s) (process_table s) n
          (initialized s) (klog s).
Definition with_log (e : log_entry) (s : sched) : sched :=
  mkSched (current_process s) (ready_queue s) (process_table s)
          (context_switches s) (initialized s) (klog s ++ [e]).

Definition deref (s : sched) (p : nat) : process := process_table s !!! p.
Definition assign (p : nat) (f : process → process) (s : sched) : sched :=
  with_table (upd p f (process_table s)) s.

(** [add_to_ready_queue]: links [proc] in front of the queue. *)
Definition add_to_ready_queue (proc : nat) (s : sched) : sched :=
  let s := assign proc (set_state PROC_READY) s in
  let s := assign proc (set_next (ready_queue s)) s in
  let s := assign proc (set_prev None) s in
  let s := match ready_queue s with
           | Some h => assign h (set_prev (Some proc)) s
           | None => s
           end in
  with_ready_queue (Some proc) s.

Definition remove_from_ready_queue (proc : nat) (s : sched) : sched :=
  let s := match prev (deref s proc) with
           | Some pv => assign pv (set_next (next (deref s proc))) s
           | None => with_ready_queue (next (deref s proc)) s
           end in
  let s := match next (deref s proc) with
           | Some nx => assign nx (set_prev (prev (deref s proc))) s
           | None => s
           end in
  let s := assign proc (set_next None) s in
  assign proc (set_prev None) s.

(** [security_check(src, dest, operation)]: operation 0 is a read. *)
Definition security_check (src dest : process) (operation : Z) : bool :=
  if decide (operation = 0)
  then bool_decide (sec_level dest ≤ sec_level src)
  else bool_decide (sec_level src ≤ sec_level dest).

(** [context_switch(from, to)], without the register traffic. *)
Definition context_switch (from to : option nat) (s : sched) : sched :=
  match from, to with
  | Some f, Some t =>
      let s := with_switches (wrap64 (context_switches s + 1)) s in
      let s := assign f (set_state PROC_READY) s in
      let s := with_current (Some t) s in
      assign t (set_state PROC_RUNNING) s
  | _, _ => s
  end.

Definition schedule (s : sched) : sched :=
  if negb (initialized s) then s else
  match ready_queue s with
  | None => s
  | Some nxt =>
      if match current_process s with
         | Some cur => negb (security_check (deref s cur) (deref s nxt) 0)
         | None => false
         end
      then with_log (WarnBlockedBySecurityPolicy (pid (deref s nxt))) s
      else
        let s := remove_from_ready_queue nxt s in
        let s := match current_process s with
                 | Some cur =>
                     if decide (state (deref s cur) = PROC_RUNNING)
                     then add_to_ready_queue cur s else s
                 | None => s
                 end in
        context_switch (current_process s) (Some nxt) s
  end.

(** The queue as the list of PCBs met by following [next] from the head;
    [fuel] bounds the walk. *)
Fixpoint chain (t : gmap nat process) (fuel : nat) (p : option nat) : list nat :=
  match fuel, p with
  | S k, Some x => x :: chain t k (next (t !!! x))
  | _, _ => []
  end.

Definition queue_of (fuel : nat) (s : sched) : list nat :=
  chain (process_table s) fuel (ready_queue s).

End Sched.

(** ** kernel/include/system.h, kernel/core/process.c *)

Module Core.

(** [process_state_t] *)
Inductive process_state :=
  PROCESS_READY | PROCESS_RUNNING | PROCESS_BLOCKED | PROCESS_ZOMBIE
| PROCESS_TERMINATED.

#[global] Instance process_state_eq_dec : EqDecision process_state.
Proof. solve_decision. Defined.

Definition MAX_OPEN_FILES : Z := 256.

(** [struct process] of system.h: the fields used by the queue code, by
    the path check and by the system calls. *)
Record process := mkProcess {
  pid : Z;
  ppid : Z;
  state : process_state;
  priority : Z;
  uid : Z;
  gid : Z;
  open_files : list Z;
  next : option nat;
  prev : option nat;
  security_level : Z
}.

Definition zero_process : process :=
  mkProcess 0 0 PROCESS_READY 0 0 0 (replicate 256 0) None None 0.

#[global] Instance process_inhabited : Inhabited process := populate zero_process.

Definition set_state (s : process_state) (p : process) : process :=
  mkProcess (pid p) (ppid p) s (priority p) (uid p) (gid p) (open_files p)
            (next p) (prev p) (security_level p).
Definition set_next (n : option nat) (p : process) : process :=
  mkProcess (pid p) (ppid p) (state p) (priority p) (uid p) (gid p) (open_files p)
            n (prev p) (security_level p).
Definition set_prev (n : option nat) (p : process) : process :=
  mkProcess (pid p) (ppid p) (state p) (priority p) (uid p) (gid p) (open_files p)
            (next p) n (security_level p).
Definition set_open_files (l : list Z) (p : process) : process :=
  mkProcess (pid p) (ppid p) (state p) (priority p) (uid p) (gid p) l
            (next p) (prev p) (security_level p).

(** The globals of process.c that the queue code uses, with the PCBs
    handed out by [kmalloc]. *)
Record kstate := mkKstate {
  current_process : option nat;
  ready_queue : option nat;
  procs : gmap nat process
}.

Definition with_procs (t : gmap nat process) (s : kstate) : kstate :=
  mkKstate (current_process s) (ready_queue s) t.
Definition with_ready_queue (q : option nat) (s : kstate) : kstate :=
  mkKstate (current_process s) q (procs s).

Definition deref (s : kstate) (p : nat) : process := procs s !!! p.
Definition assign (p : nat) (f : process → process) (s : kstate) : kstate :=
  with_procs (upd p f (procs s)) s.

(** [while (curr->next && curr->next->priority >= proc->priority)
      curr = curr->next;]  [None] when the fuel is used up. *)
Fixpoint walk (fuel : nat) (t : gmap nat process) (prio : Z) (curr : nat)
  : option nat :=
  match fuel with
  | O => None
  | S k =>
      match next (t !!! curr) with
      | Some n =>
          if bool_decide (prio ≤ priority (t !!! n))
          then walk k t prio n
          else Some curr
      | None => Some curr
      end
  end.

(** [add_to_ready_queue(proc)] *)
Definition add_to_ready_queue (fuel : nat) (proc : option nat) (s : kstate)
  : option kstate :=
  match proc with
  | None => Some s
  | Some p =>
      if decide (state (deref s p) = PROCESS_READY) then
        match ready_queue s with
        | Some h =>
            if bool_decide (priority (deref s h) < priority (deref s p)) then
              let s := assign p (set_next (Some h)) s in
              let s := assign h (set_prev (Some p)) s in
              let s := assign p (set_prev None) s in
              Some (with_ready_queue (Some p) s)
            else
              match walk fuel (procs s) (priority (deref s p)) h with
              | None => None
              | Some curr =>
                  let s := assign p (set_next (next (deref s curr))) s in
                  let s := match next (deref s curr) with
                           | Some n => assign n (set_prev (Some p)) s
                           | None => s
                           end in
                  let s := assign p (set_prev (Some curr)) s in
                  Some (assign curr (set_next (Some p)) s)
              end
        | None =>
            let s := assign p (set_next None) s in
            let s := assign p (set_prev None) s in
            Some (with_ready_queue (Some p) s)
        end
      else Some s
  end.

(** [remove_from_ready_queue(proc)] *)
Definition remove_from_ready_queue (proc : option nat) (s : kstate) : kstate :=
  match proc with
  | None => s
  | Some p =>
      let s := match prev (deref s p) with
               | Some pv => assign pv (set_next (next (deref s p))) s
               | None => with_ready_queue (next (deref s p)) s
               end in
      let s := match next (deref s p) with
               | Some nx => assign nx (set_prev (prev (deref s p))) s
               | None => s
               end in
      let s := assign p (set_next None) s in
      assign p (set_prev None) s
  end.

(** A doubly linked segment: [l] is the list of PCBs from [hd], the
    first one has [prev = pv], the last one has [next = None]. *)
Fixpoint dlist (t : gmap nat process) (pv hd : option nat) (l : list nat) : Prop :=
  match l with
  | [] => hd = None
  | x :: l' =>
      hd = Some x ∧ prev (t !!! x) = pv ∧ dlist t (Some x) (next (t !!! x)) l'
  end.

Definition prio (t : gmap nat process) (p : nat) : Z := priority (t !!! p).

(** Priorities never increase along the list. *)
Fixpoint descending (t : gmap nat process) (l : list nat) : Prop :=
  match l with
  | [] => True
  | x :: l' => (∀ y, y ∈ l' → prio t y ≤ prio t x) ∧ descending t l'
  end.

(** The ready queue of [s] is the well-formed list [l], in descending
    priority order. *)
Definition ready_queue_is (s : kstate) (l : list nat) : Prop :=
  dlist (procs s) None (ready_queue s) l ∧ NoDup l ∧ descending (procs s) l.

(** The queue as the list of PCBs met by following [next] from the head,
    for at most [fuel] of them. *)
Fixpoint chain (t : gmap nat process) (fuel : nat) (p : option nat) : list nat :=
  match fuel, p with
  | S k, Some x => x :: chain t k (next (t !!! x))
  | _, _ => []
  end.

Definition queue_of (fuel : nat) (s : kstate) : list nat :=
  chain (procs s) fuel (ready_queue s).

End Core.

(** ** kernel/mm/memory.c *)

Module Mm.

Definition KERNEL_HEAP_START : Z := 0xFFFFFFFF90000000.
Definition KERNEL_HEAP_SIZE : Z := 0x10000000.
Definition KERNEL_HEAP_END : Z := KERNEL_HEAP_START + KERNEL_HEAP_SIZE.
(** [sizeof(early_heap)] *)
Definition EARLY_HEAP_SIZE : Z := 1024 * 1024.

Definition ZONE_DMA : nat := 0.
Definition ZONE_NORMAL : nat := 1.
Definition ZONE_HIGHMEM : nat := 2.

(** [struct page]; a [struct page *] is the frame number, the index in
    [page_array]. *)
Record page := mkPage {
  flags : Z;
  ref_count : Z;
  order : Z;
  next : option Z
}.

#[global] Instance page_inhabited : Inhabited page := populate (mkPage 0 0 0 None).

Definition set_next (n : option Z) (p : page) : page :=
  mkPage (flags p) (ref_count p) (order p) n.
Definition set_order (k : Z) (p : page) : page :=
  mkPage (flags p) (ref_count p) k (next p).
Definition set_ref_count (c : Z) (p : page) : page :=
  mkPage (flags p) c (order p) (next p).

(** [struct memory_zone]; [free_pages] has twelve entries. *)
Record memory_zone := mkZone {
  free_pages : list (option Z);
  start_pfn : Z;
  end_pfn : Z;
  free_pages_count : Z;
  total_pages : Z
}.

#[global] Instance memory_zone_inhabited : Inhabited memory_zone :=
  populate (mkZone (replicate 12 None) 0 0 0 0).

Definition set_free_pages (l : list (option Z)) (z : memory_zone) : memory_zone :=
  mkZone l (start_pfn z) (end_pfn z) (free_pages_count z) (total_pages z).
Definition set_free_pages_count (c : Z) (z : memory_zone) : memory_zone :=
  mkZone (free_pages z) (start_pfn z) (end_pfn z) c (total_pages z).

(** [mm_state] and the early heap cursor. *)
Record mm := mkMm {
  zones : list memory_zone;
  page_array : gmap Z page;
  total_memory : Z;
  used_memory : Z;
  kernel_heap_ptr : Z;
  initialized : bool;
  early_heap_offset : Z
}.

Definition with_zones (zs : list memory_zone) (s : mm) : mm :=
  mkMm zs (page_array s) (total_memory s) (used_memory s) (kernel_heap_ptr s)
       (initialized s) (early_heap_offset s).
Definition with_pages (ps : gmap Z page) (s : mm) : mm :=
  mkMm (zones s) ps (total_memory s) (used_memory s) (kernel_heap_ptr s)
       (initialized s) (early_heap_offset s).
Definition with_heap (ptr used : Z) (s : mm) : mm :=
  mkMm (zones s) (page_array s) (total_memory s) used ptr
       (initialized s) (early_heap_offset s).
Definition with_early_offset (off : Z) (s : mm) : mm :=
  mkMm (zones s) (page_array s) (total_memory s) (used_memory s) (kernel_heap_ptr s)
       (initialized s) off.

Definition pg (s : mm) (pfn : Z) : page := page_array s !!! pfn.
Definition assign (pfn : Z) (f : page → page) (s : mm) : mm :=
  with_pages (upd pfn f (page_array s)) s.
Definition zone (s : mm) (z : nat) : memory_zone := zones s !!! z.
Definition assign_zone (z : nat) (f : memory_zone → memory_zone) (s : mm) : mm :=
  with_zones (<[z := f (zones s !!! z)]> (zones s)) s.

(** [z->free_pages[k]] and [z->free_pages[k] = v] *)
Definition free_head (s : mm) (z k : nat) : option Z := free_pages (zone s z) !!! k.
Definition set_free_head (z k : nat) (v : option Z) (s : mm) : mm :=
  assign_zone z (λ zn, set_free_pages (<[k := v]> (free_pages zn)) zn) s.

(** *** The kernel heap *)

(** What [kmalloc] hands out: a cell of the static [early_heap] array or
    an address of the kernel-heap window. *)
Inductive kptr :=
| EarlyHeap (offset : Z)
| HeapAddr (addr : Z).

(** [(size + 7) & ~7] on a 64-bit [size_t] *)
Definition align8 (size : Z) : Z := Z.land (wrap64 (size + 7)) (wrap64 (Z.lnot 7)).

Definition early_kmalloc (size : Z) (s : mm) : outcome (kptr * mm) :=
  let size := align8 size in
  if bool_decide (EARLY_HEAP_SIZE < wrap64 (early_heap_offset s + size))
  then Panicked "Early heap exhausted"
  else Returned (EarlyHeap (early_heap_offset s),
                 with_early_offset (wrap64 (early_heap_offset s + size)) s).

Definition kmalloc (size : Z) (s : mm) : outcome (kptr * mm) :=
  if negb (initialized s) then early_kmalloc size s else
  let size := align8 size in
  if bool_decide (KERNEL_HEAP_END < wrap64 (kernel_heap_ptr s + size))
  then Panicked "Kernel heap exhausted"
  else Returned (HeapAddr (kernel_heap_ptr s),
                 with_heap (wrap64 (kernel_heap_ptr s + size))
                           (wrap64 (used_memory s + size)) s).

(** [kfree] frees nothing. *)
Definition kfree (ptr : option kptr) (s : mm) : mm := s.

(** *** The buddy allocator *)

(** The splitting loop of [buddy_alloc_pages], entered with
    [current_order = order + k]. *)
Fixpoint split_block (k : nat) (z ord : nat) (page : Z) (s : mm) : mm :=
  match k with
  | O => s
  | S k' =>
      let current_order := (ord + k')%nat in
      let buddy := page + Z.shiftl 1 (Z.of_nat current_order) in
      let s := assign buddy (set_next (free_head s z current_order)) s in
      let s := set_free_head z current_order (Some buddy) s in
      split_block k' z ord page s
  end.

(** The [for] loop of [buddy_alloc_pages] from [current_order] on;
    [n] counts the orders left to try. *)
Fixpoint alloc_from (n : nat) (z ord current_order : nat) (s : mm)
  : option Z * mm :=
  match n with
  | O => (None, s)
  | S n' =>
      match free_head s z current_order with
      | Some page =>
          let s := set_free_head z current_order (next (pg s page)) s in
          let s := split_block (current_order - ord) z ord page s in
          let s := assign page (set_order (Z.of_nat ord)) s in
          let s := assign page (set_ref_count 1) s in
          let s := assign_zone z (λ zn, set_free_pages_count
                     (wrap64 (free_pages_count zn - Z.shiftl 1 (Z.of_nat ord))) zn) s in
          (Some page, s)
      | None => alloc_from n' z ord (S current_order) s
      end
  end.

Definition buddy_alloc_pages (z : nat) (ord : nat) (s : mm) : option Z * mm :=
  alloc_from (12 - ord) z ord ord s.

(** A [struct page **]: the head of a free list or the [next] field of a
    page. *)
Inductive slot :=
| FreeHead (k : nat)
| NextOf (pfn : Z).

Definition load (s : mm) (sl : slot) : option Z :=
  match sl with
  | FreeHead k => free_head s ZONE_NORMAL k
  | NextOf q => next (pg s q)
  end.
Definition store (sl : slot) (v : option Z) (s : mm) : mm :=
  match sl with
  | FreeHead k => set_free_head ZONE_NORMAL k v s
  | NextOf q => assign q (set_next v) s
  end.

(** [while ( *prev && *prev != buddy) prev = &( *prev)->next;] *)
Fixpoint find_slot (fuel : nat) (s : mm) (prev : slot) (buddy : Z) : option slot :=
  match fuel with
  | O => None
  | S f =>
      match load s prev with
      | Some q => if decide (q = buddy) then Some prev
                  else find_slot f s (NextOf q) buddy
      | None => Some prev
      end
  end.

(** "Remove buddy from free list" *)
Definition unlink_buddy (fuel : nat) (k : nat) (buddy : Z) (s : mm) : option mm :=
  match find_slot fuel s (FreeHead k) buddy with
  | None => None
  | Some prev =>
      Some (match load s prev with
            | Some _ => store prev (next (pg s buddy)) s
            | None => s
            end)
  end.

(** The coalescing loop [while (order < 11)]; [n] bounds the number of
    rounds and [fuel] each walk along a free list. *)
Fixpoint coalesce (n fuel : nat) (pfn : Z) (ord : nat) (s : mm)
  : option (Z * nat * mm) :=
  if (ord <? 11)%nat then
    match n with
    | O => None
    | S n' =>
        let buddy_pfn := Z.lxor pfn (Z.shiftl 1 (Z.of_nat ord)) in
        if bool_decide (ref_count (pg s buddy_pfn) ≠ 0 ∨
                        order (pg s buddy_pfn) ≠ Z.of_nat ord)
        then Some (pfn, ord, s)
        else
          match unlink_buddy fuel ord buddy_pfn s with
          | None => None
          | Some s =>
              coalesce n' fuel (if bool_decide (buddy_pfn < pfn) then buddy_pfn else pfn)
                       (S ord) s
          end
    end
  else Some (pfn, ord, s).

(** The tail of [buddy_free_pages]: "Add to free list". *)
Definition push_free (pfn : Z) (ord : nat) (s : mm) : mm :=
  let s := assign pfn (set_order (Z.of_nat ord)) s in
  let s := assign pfn (set_ref_count 0) s in
  let s := assign pfn (set_next (free_head s ZONE_NORMAL ord)) s in
  let s := set_free_head ZONE_NORMAL ord (Some pfn) s in
  assign_zone ZONE_NORMAL (λ zn, set_free_pages_count
    (wrap64 (free_pages_count zn + Z.shiftl 1 (Z.of_nat ord))) zn) s.

Definition buddy_free_pages (fuel : nat) (pfn : Z) (ord : nat) (s : mm)
  : option mm :=
  match coalesce 11 fuel pfn ord s with
  | None => None
  | Some (pfn, ord, s) => Some (push_free pfn ord s)
  end.

(** The free list of order [k] of [ZONE_NORMAL], read along the [next]
    fields for at most [fuel] frames. *)
Fixpoint chain (fuel : nat) (t : gmap Z page) (p : option Z) : list Z :=
  match fuel, p with
  | S f, Some x => x :: chain f t (next (t !!! x))
  | _, _ => []
  end.

Definition free_list (fuel : nat) (s : mm) (k : nat) : list Z :=
  chain fuel (page_array s) (free_head s ZONE_NORMAL k).

End Mm.

(** ** The buddy algorithm as section 4.1 of the specification words it *)

Module BuddySpec.

(** A zone as the specification sees it: the frames from [start_page] up
    to [end_page] and, per order, the list of the heads of the free
    blocks.  A frame is free when it is on a free list, and the order of a
    free block is that of the list it is on. *)
Record zone := mkZone {
  start_page : Z;
  end_page : Z;
  free_lists : nat → list Z
}.

Definition buddy_of (frame : Z) (k : nat) : Z := Z.lxor frame (2 ^ Z.of_nat k).

Definition frame_exists (a : zone) (f : Z) : bool :=
  bool_decide (start_page a ≤ f < end_page a).
Definition is_free (a : zone) (f : Z) : bool :=
  existsb (λ k, bool_decide (f ∈ free_lists a k)) (seq 0 12).
Definition has_order (a : zone) (f : Z) (k : nat) : bool :=
  bool_decide (f ∈ free_lists a k).

Definition remove_block (k : nat) (f : Z) (a : zone) : zone :=
  mkZone (start_page a) (end_page a)
         (λ j, if decide (j = k) then filter (λ x, x ≠ f) (free_lists a j)
               else free_lists a j).

Definition push_block (k : nat) (f : Z) (a : zone) : zone :=
  mkZone (start_page a) (end_page a)
         (λ j, if decide (j = k) then f :: free_lists a j else free_lists a j).

(** "while the buddy exists, is free, and has the same order, removes the
    buddy and promotes the coalesced block up one order, bounded by order
    11; the lower-numbered frame becomes the head": [n] is the number of
    orders left below 11. *)
Fixpoint merge (n : nat) (a : zone) (frame : Z) (k : nat) : zone * Z * nat :=
  match n with
  | O => (a, frame, k)
  | S n' =>
      let buddy := buddy_of frame k in
      if frame_exists a buddy && is_free a buddy && has_order a buddy k
      then merge n' (remove_block k buddy a) (Z.min frame buddy) (S k)
      else (a, frame, k)
  end.

Definition free_pages (a : zone) (frame : Z) (k : nat) : zone :=
  let '(a, head, k') := merge (11 - k) a frame k in
  push_block k' head a.

(** The zone invariant: [free_pages_count] is the sum over the orders [k]
    of [2^k] times the length of [free_lists[k]]. *)
Definition free_pages_count (a : zone) : Z :=
  fold_right Z.add 0
    (map (λ k, 2 ^ Z.of_nat k * Z.of_nat (length (free_lists a k))) (seq 0 12)).

End BuddySpec.

(** ** kernel/fs/vfs.c: the path check *)

Module Vfs.

(** [strstr] of the C library: the tail of [haystack] from the first
    occurrence of [needle], or [None] for [NULL]. *)
Fixpoint strstr (haystack needle : string) : option string :=
  if String.prefix needle haystack then Some haystack
  else match haystack with
       | EmptyString => None
       | String _ rest => strstr rest needle
       end.

Definition found (r : option string) : bool :=
  match r with Some _ => true | None => false end.

(** [check_path_security(path, operation)]; [current_process] is the
    global it consults. *)
Definition check_path_security (current_process : option Core.process)
    (path : string) (operation : Z) : Z :=
  match current_process with
  | None => 0
  | Some cp =>
      if bool_decide (Core.security_level cp < 2) &&
         (found (strstr path "/classified/") ||
          found (strstr path "/secret/") ||
          found (strstr path "/pentagon/"))
      then -1
      else if bool_decide (Z.land operation 2 ≠ 0) &&
              (found (strstr path "/system/") && bool_decide (Core.uid cp ≠ 0))
      then -1
      else 0
  end.

(** The words of the specification's default policy. *)
Definition contains (path needle : string) : Prop :=
  ∃ pre post, path = (pre ++ needle ++ post)%string.
Definition begins_with (path needle : string) : Prop :=
  ∃ post, path = (needle ++ post)%string.
Definition classified_path (path : string) : Prop :=
  contains path "/classified/" ∨ contains path "/secret/" ∨ contains path "/pentagon/".
Definition is_write (operation : Z) : Prop := Z.land operation 2 ≠ 0.

End Vfs.

(** ** kernel/core/syscalls.c *)

Module Sys.

(** [struct file_descriptor]; [inode] is a [struct inode *]. *)
Record file_descriptor := mkFd {
  inode : option Z;
  offset : Z;
  flags : Z;
  mode : Z;
  ref_count : Z
}.

(** A slot of the static, zero-initialised [file_table]. *)
#[global] Instance file_descriptor_inhabited : Inhabited file_descriptor :=
  populate (mkFd None 0 0 0 0).

Definition set_offset (o : Z) (f : file_descriptor) : file_descriptor :=
  mkFd (inode f) o (flags f) (mode f) (ref_count f).

(** A [uint64_t] returned as [long]. *)
Definition to_long (x : Z) : Z :=
  if bool_decide (wrap64 x < 2 ^ 63) then wrap64 x else wrap64 x - 2 ^ 64.

Section Syscalls.

(** The file-system layer ([fs_get_inode], [fs_create_file],
    [fs_read_inode], [fs_write_inode]) is declared in system.h and
    defined nowhere in the sources; it is a parameter here, acting on a
    state [world] that stands for the disk and the user's buffers. *)
Variable world : Type.
Variable fs_get_inode : world → Z → option Z.
Variable fs_create_file : world → Z → Z → Z * world.
Variable fs_read_inode : world → Z → Z → Z → Z → Z * world.
Variable fs_write_inode : world → Z → Z → Z → Z → Z * world.
(** [str[i]] of a user buffer *)
Variable load_byte : world → Z → Z.

Record sys := mkSys {
  current_process : option Core.process;
  file_table : gmap nat file_descriptor;
  console : list Z;
  env : world
}.

Definition with_file_table (t : gmap nat file_descriptor) (s : sys) : sys :=
  mkSys (current_process s) t (console s) (env s).
Definition with_console (c : list Z) (s : sys) : sys :=
  mkSys (current_process s) (file_table s) c (env s).
Definition with_env (w : world) (s : sys) : sys :=
  mkSys (current_process s) (file_table s) (console s) w.
Definition with_current (p : option Core.process) (s : sys) : sys :=
  mkSys p (file_table s) (console s) (env s).

Definition slot (s : sys) (fd : Z) : file_descriptor :=
  file_table s !!! Z.to_nat fd.

(** [sys_read(fd, buf, count)] *)
Definition sys_read (fd buf count : Z) (s : sys) : Z * sys :=
  if bool_decide (Core.MAX_OPEN_FILES ≤ fd) || bool_decide (inode (slot s fd) = None)
  then (-9, s)
  else if bool_decide (buf = 0) || bool_decide (count = 0) then (-14, s)
  else
    match inode (slot s fd) with
    | None => (-9, s)
    | Some ino =>
        let '(bytes_read, w) := fs_read_inode (env s) ino (offset (slot s fd)) buf count in
        let s := with_env w s in
        let s := if bool_decide (0 < bytes_read)
                 then with_file_table
                        (upd (Z.to_nat fd)
                             (λ f, set_offset (wrap64 (offset f + bytes_read)) f)
                             (file_table s)) s
                 else s in
        (bytes_read, s)
    end.

(** [sys_write(fd, buf, count)] *)
Definition sys_write (fd buf count : Z) (s : sys) : Z * sys :=
  if bool_decide (Core.MAX_OPEN_FILES ≤ fd) then (-9, s)
  else if bool_decide (buf = 0) || bool_decide (count = 0) then (-14, s)
  else if bool_decide (fd = 1) || bool_decide (fd = 2) then
    (to_long count,
     with_console (console s ++
                   map (λ i, load_byte (env s) (buf + Z.of_nat i))
                       (seq 0 (Z.to_nat count))) s)
  else
    match inode (slot s fd) with
    | None => (-9, s)
    | Some ino =>
        let '(bytes_written, w) :=
          fs_write_inode (env s) ino (offset (slot s fd)) buf count in
        let s := with_env w s in
        let s := if bool_decide (0 < bytes_written)
                 then with_file_table
                        (upd (Z.to_nat fd)
                             (λ f, set_offset (wrap64 (offset f + bytes_written)) f)
                             (file_table s)) s
                 else s in
        (bytes_written, s)
    end.

(** "Find free file descriptor": the first free slot from 3 on. *)
Definition find_free_fd (s : sys) : option nat :=
  List.find (λ i, bool_decide (inode (file_table s !!! i) = None))
            (seq 3 (Z.to_nat Core.MAX_OPEN_FILES - 3)).

(** [sys_open(filename, flags, mode)] *)
Definition sys_open (filename flags mode : Z) (s : sys) : Z * sys :=
  if bool_decide (filename = 0) then (-14, s) else
  match find_free_fd s with
  | None => (-24, s)
  | Some fd =>
      let '(found, s) :=
        match fs_get_inode (env s) 0 with
        | Some ino => (Some ino, s)
        | None =>
            if bool_decide (Z.land flags 0x40 ≠ 0) then
              let '(r, w) := fs_create_file (env s) filename (wrap32 mode) in
              let s := with_env w s in
              if bool_decide (r ≠ 0) then (None, s)
              else (fs_get_inode (env s) 0, s)
            else (None, s)
        end in
      match found with
      | None => (-2, s)
      | Some ino =>
          let s := with_file_table
                     (<[fd := mkFd (Some ino) 0 (wrap32 flags) (wrap32 mode) 1]>
                        (file_table s)) s in
          let s := match current_process s with
                   | Some cp =>
                       with_current
                         (Some (Core.set_open_files
                                  (<[fd := 1]> (Core.open_files cp)) cp)) s
                   | None => s
                   end in
          (Z.of_nat fd, s)
      end
  end.

End Syscalls.

Arguments mkSys {world} _ _ _ _.
Arguments current_process {world} s.
Arguments file_table {world} s.
Arguments console {world} s.
Arguments env {world} s.
Arguments with_file_table {world} t s.
Arguments with_console {world} c s.
Arguments with_env {world} w s.
Arguments with_current {world} p s.
Arguments slot {world} s fd.
Arguments find_free_fd {world} s.
Arguments sys_read {world} fs_read_inode fd buf count s.
Arguments sys_write {world} fs_write_inode load_byte fd buf count s.
Arguments sys_open {world} fs_get_inode fs_create_file filename flags mode s.

End Sys.

(** ** userland/sentinal_send/src/crypto.c

    Bytes are [Z] in 0..255, 32-bit words are [Z] in 0..2^32-1. *)

Module Crypto.

Definition AES_BLOCK_SIZE : nat := 16.
Definition AES_KEY_SIZE : nat := 32.
Definition AES_ROUNDS : nat := 14.

Definition sbox : list Z :=
 [0x63; 0x7C; 0x77; 0x7B; 0xF2; 0x6B; 0x6F; 0xC5; 0x30; 0x01; 0x67; 0x2B; 0xFE; 0xD7; 0xAB; 0x76;
  0xCA; 0x82; 0xC9; 0x7D; 0xFA; 0x59; 0x47; 0xF0; 0xAD; 0xD4; 0xA2; 0xAF; 0x9C; 0xA4; 0x72; 0xC0;
  0xB7; 0xFD; 0x93; 0x26; 0x36; 0x3F; 0xF7; 0xCC; 0x34; 0xA5; 0xE5; 0xF1; 0x71; 0xD8; 0x31; 0x15;
  0x04; 0xC7; 0x23; 0xC3; 0x18; 0x96; 0x05; 0x9A; 0x07; 0x12; 0x80; 0xE2; 0xEB; 0x27; 0xB2; 0x75;
  0x09; 0x83; 0x2C; 0x1A; 0x1B; 0x6E; 0x5A; 0xA0; 0x52; 0x3B; 0xD6; 0xB3; 0x29; 0xE3; 0x2F; 0x84;
  0x53; 0xD1; 0x00; 0xED; 0x20; 0xFC; 0xB1; 0x5B; 0x6A; 0xCB; 0xBE; 0x39; 0x4A; 0x4C; 0x58; 0xCF;
  0xD0; 0xEF; 0xAA; 0xFB; 0x43; 0x4D; 0x33; 0x85; 0x45; 0xF9; 0x02; 0x7F; 0x50; 0x3C; 0x9F; 0xA8;
  0x51; 0xA3; 0x40; 0x8F; 0x92; 0x9D; 0x38; 0xF5; 0xBC; 0xB6; 0xDA; 0x21; 0x10; 0xFF; 0xF3; 0xD2;
  0xCD; 0x0C; 0x13; 0xEC; 0x5F; 0x97; 0x44; 0x17; 0xC4; 0xA7; 0x7E; 0x3D; 0x64; 0x5D; 0x19; 0x73;
  0x60; 0x81; 0x4F; 0xDC; 0x22; 0x2A; 0x90; 0x88; 0x46; 0xEE; 0xB8; 0x14; 0xDE; 0x5E; 0x0B; 0xDB;
  0xE0; 0x32; 0x3A; 0x0A; 0x49; 0x06; 0x24; 0x5C; 0xC2; 0xD3; 0xAC; 0x62; 0x91; 0x95; 0xE4; 0x79;
  0xE7; 0xC8; 0x37; 0x6D; 0x8D; 0xD5; 0x4E; 0xA9; 0x6C; 0x56; 0xF4; 0xEA; 0x65; 0x7A; 0xAE; 0x08;
  0xBA; 0x78; 0x25; 0x2E; 0x1C; 0xA6; 0xB4; 0xC6; 0xE8; 0xDD; 0x74; 0x1F; 0x4B; 0xBD; 0x8B; 0x8A;
  0x70; 0x3E; 0xB5; 0x66; 0x48; 0x03; 0xF6; 0x0E; 0x61; 0x35; 0x57; 0xB9; 0x86; 0xC1; 0x1D; 0x9E;
  0xE1; 0xF8; 0x98; 0x11; 0x69; 0xD9; 0x8E; 0x94; 0x9B; 0x1E; 0x87; 0xE9; 0xCE; 0x55; 0x28; 0xDF;
  0x8C; 0xA1; 0x89; 0x0D; 0xBF; 0xE6; 0x42; 0x68; 0x41; 0x99; 0x2D; 0x0F; 0xB0; 0x54; 0xBB; 0x16].

Definition rcon : list Z :=
  [0x00; 0x01; 0x02; 0x04; 0x08; 0x10; 0x20; 0x40; 0x80; 0x1B; 0x36].

Definition sbox_at (x : Z) : Z := nth (Z.to_nat x) sbox 0.

Definition sub_word (word : Z) : Z :=
  wrap32
    (Z.lor (Z.lor (Z.lor (Z.shiftl (sbox_at (Z.shiftr word 24)) 24)
                         (Z.shiftl (sbox_at (Z.land (Z.shiftr word 16) 0xFF)) 16))
                  (Z.shiftl (sbox_at (Z.land (Z.shiftr word 8) 0xFF)) 8))
           (sbox_at (Z.land word 0xFF))).

Definition rot_word (word : Z) : Z :=
  Z.lor (wrap32 (Z.shiftl word 8)) (Z.shiftr word 24).

(** Byte [j] of a round-key word, most significant first. *)
Definition key_byte (key : Z) (j : nat) : Z :=
  Z.land (Z.shiftr key (24 - 8 * Z.of_nat j)) 0xFF.

(** [add_round_key]: [state[4 i + j] ^= byte j of round_key[i]] *)
Definition add_round_key (state round_key : list Z) : list Z :=
  imap (λ idx b, Z.lxor b (key_byte (nth (idx / 4)%nat round_key 0) (idx mod 4)%nat))
       state.

Definition sub_bytes (state : list Z) : list Z := map sbox_at state.

(** [shift_rows]: the cell that ends up at each index. *)
Definition shift_rows (state : list Z) : list Z :=
  map (λ i, nth i state 0)
      [0; 5; 10; 15; 4; 9; 14; 3; 8; 13; 2; 7; 12; 1; 6; 11]%nat.

Definition xtime (x : Z) : Z :=
  wrap8 (Z.lxor (Z.shiftl x 1) (Z.land (Z.shiftr x 7) 1 * 0x1B)).

Definition mix_column (col : list Z) : list Z :=
  let a j := nth j col 0 in
  let b j := xtime (a j) in
  [Z.lxor (Z.lxor (Z.lxor (Z.lxor (b 0) (a 3)) (a 2)) (b 1)) (a 1);
   Z.lxor (Z.lxor (Z.lxor (Z.lxor (b 1) (a 0)) (a 3)) (b 2)) (a 2);
   Z.lxor (Z.lxor (Z.lxor (Z.lxor (b 2) (a 1)) (a 0)) (b 3)) (a 3);
   Z.lxor (Z.lxor (Z.lxor (Z.lxor (b 3) (a 2)) (a 1)) (b 0)) (a 0)]%nat.

Definition mix_columns (state : list Z) : list Z :=
  flat_map (λ i, mix_column (take 4 (drop (4 * i) state))) (seq 0 4).

(** The second loop of [key_expansion], from word [i] on, [n] words to go. *)
Fixpoint expand (n i : nat) (round_keys : list Z) : list Z :=
  match n with
  | O => round_keys
  | S n' =>
      let temp := nth (i - 1) round_keys 0 in
      let temp :=
        if (i mod 8 =? 0)%nat
        then Z.lxor (sub_word (rot_word temp)) (wrap32 (Z.shiftl (nth (i / 8) rcon 0) 24))
        else if (i mod 8 =? 4)%nat then sub_word temp
        else temp in
      expand n' (S i) (round_keys ++ [Z.lxor (nth (i - 8) round_keys 0) temp])
  end.

Definition key_expansion (key : list Z) : list Z :=
  let word i :=
    wrap32 (Z.lor (Z.lor (Z.lor (Z.shiftl (nth (4 * i) key 0) 24)
                                (Z.shiftl (nth (4 * i + 1) key 0) 16))
                         (Z.shiftl (nth (4 * i + 2) key 0) 8))
                  (nth (4 * i + 3) key 0)) in
  expand (4 * (AES_ROUNDS + 1) - 8) 8 (map word (seq 0 8)).

Record aes_context := mkAes {
  round_keys : list Z;
  iv : list Z;
  initialized : bool
}.

(** [aes_init(ctx, key, iv)] for a non-null [ctx] *)
Definition aes_init (key iv : option (list Z)) : Z * option aes_context :=
  match key with
  | None => (-1, None)
  | Some key =>
      (0, Some (mkAes (key_expansion key)
                      (match iv with
                       | Some iv => take AES_BLOCK_SIZE iv
                       | None => replicate AES_BLOCK_SIZE 0
                       end)
                      true))
  end.

(** [aes_encrypt_block]: [None] stands for the return value -1. *)
Definition aes_encrypt_block (ctx : aes_context) (plaintext : list Z)
  : option (list Z) :=
  if negb (initialized ctx) then None else
  let rk r := take 4 (drop (4 * r) (round_keys ctx)) in
  let state := add_round_key (take 16 plaintext) (rk 0%nat) in
  let state :=
    fold_left (λ st r, add_round_key (mix_columns (shift_rows (sub_bytes st))) (rk r))
              (seq 1 (AES_ROUNDS - 1)) state in
  Some (add_round_key (shift_rows (sub_bytes state)) (rk AES_ROUNDS)).

(** The block loop of [aes_encrypt_cbc], [n] blocks to go. *)
Fixpoint cbc_blocks (n : nat) (ctx : aes_context) (prev_block plaintext : list Z)
  : option (list Z) :=
  match n with
  | O => Some []
  | S n' =>
      let block := zip_with Z.lxor (take 16 plaintext) prev_block in
      match aes_encrypt_block ctx block with
      | None => None
      | Some c =>
          match cbc_blocks n' ctx c (drop 16 plaintext) with
          | None => None
          | Some rest => Some (c ++ rest)
          end
      end
  end.

(** [aes_encrypt_cbc(ctx, plaintext, len, ciphertext)] with
    [len = length plaintext]; every block is read before the output
    block of the same index is written, so the caller may pass the same
    buffer twice. *)
Definition aes_encrypt_cbc (ctx : aes_context) (plaintext : list Z)
  : option (list Z) :=
  if negb (length plaintext mod AES_BLOCK_SIZE =? 0)%nat then None
  else cbc_blocks (length plaintext / AES_BLOCK_SIZE) ctx (iv ctx) plaintext.

Definition is_byte (b : Z) : Prop := 0 ≤ b < 256.

(** [verify_security_clearance] on the classification of the context *)
Definition verify_security_clearance (classification_level user_clearance : Z) : Z :=
  if bool_decide (classification_level ≤ user_clearance) then 0 else -1.

(** [strlen] on the bytes found at a [char *] *)
Fixpoint strlen (buf : list Z) : nat :=
  match buf with
  | [] => 0
  | c :: rest => if decide (c = 0) then 0 else S (strlen rest)
  end.

(** "Mix password": [hash[i % 32] ^= password[i]] from index [i] on.
    A [char] is given by its byte value; the promotion to [int] and the
    truncation to [uint8_t] leave the low eight bits of the XOR. *)
Fixpoint mix_password (pw : list Z) (i : nat) (hash : list Z) : list Z :=
  match pw with
  | [] => hash
  | c :: pw' =>
      mix_password pw' (S i)
        (<[(i mod 32)%nat := wrap8 (Z.lxor (nth (i mod 32) hash 0) c)]> hash)
  end.

(** One pass of the inner loop, in place, for [i] = 0..31. *)
Definition mix_round (round : Z) (hash : list Z) : list Z :=
  fold_left
    (λ h i, <[i := wrap8 (Z.lxor (Z.lxor (nth i h 0) (nth ((i + 1) mod 32) h 0))
                                 (Z.land round 0xFF))]> h)
    (seq 0 32) hash.

Fixpoint mix_rounds (n : nat) (round : Z) (hash : list Z) : list Z :=
  match n with
  | O => hash
  | S n' => mix_rounds n' (round + 1) (mix_round round hash)
  end.

(** [derive_key_from_password(password, salt, key)]: the return value
    and what is stored in [key].  [password] and [salt] are the bytes
    found at the two pointers. *)
Definition derive_key_from_password (password salt : option (list Z))
  : Z * option (list Z) :=
  match password, salt with
  | Some password, Some salt =>
      let pass_len := strlen password in
      let hash := take 16 salt ++ replicate 16 0 in
      let hash := mix_password (take pass_len password) 0 hash in
      (0, Some (mix_rounds 1000 0 hash))
  | _, _ => (-1, None)
  end.

End Crypto.

(** ** userland/sentinal_send/src/sentinal_send.c *)

Module Send.

Definition BUFFER_SIZE : nat := Z.to_nat 8192.
Definition SALT_SIZE : nat := 16.

(** [struct options], after the command line has been parsed.  A file
    name or string is [None] for a null pointer. *)
Record options := mkOptions {
  input_file : option string;
  output_file : option string;
  password : option (list Z);
  source_system : option string;
  dest_system : option string;
  classification : Z;
  user_clearance : Z;
  encrypt_mode : bool;
  decrypt_mode : bool;
  verbose : bool;
  force_overwrite : bool
}.

(** [struct file_header] (packed) *)
Record file_header := mkHeader {
  magic : list Z;
  version : list Z;
  hdr_classification : Z;
  flags : Z;
  reserved : Z;
  salt : list Z;
  iv : list Z;
  original_size : Z;
  checksum : Z;
  header_checksum : Z
}.

Definition set_header_checksum (c : Z) (h : file_header) : file_header :=
  mkHeader (magic h) (version h) (hdr_classification h) (flags h) (reserved h)
           (salt h) (iv h) (original_size h) (checksum h) c.

(** The [n] bytes of an integer field on the little-endian target. *)
Fixpoint le_bytes (n : nat) (x : Z) : list Z :=
  match n with
  | O => []
  | S n' => x mod 256 :: le_bytes n' (x / 256)
  end.

(** A byte array field of [n] cells. *)
Definition cells (n : nat) (l : list Z) : list Z := take n (l ++ replicate n 0).

(** The object representation of the packed struct: what
    [(uint8_t * )&header] reads and what [write(fd, &header, sizeof header)]
    writes. *)
Definition header_bytes (h : file_header) : list Z :=
  cells 8 (magic h) ++ cells 4 (version h) ++
  le_bytes 1 (hdr_classification h) ++ le_bytes 1 (flags h) ++
  le_bytes 2 (reserved h) ++
  cells SALT_SIZE (salt h) ++ cells Crypto.AES_BLOCK_SIZE (iv h) ++
  le_bytes 8 (original_size h) ++ le_bytes 4 (checksum h) ++
  le_bytes 4 (header_checksum h).

(** The header without its last field, [header_checksum]. *)
Definition header_prefix (h : file_header) : list Z :=
  cells 8 (magic h) ++ cells 4 (version h) ++
  le_bytes 1 (hdr_classification h) ++ le_bytes 1 (flags h) ++
  le_bytes 2 (reserved h) ++
  cells SALT_SIZE (salt h) ++ cells Crypto.AES_BLOCK_SIZE (iv h) ++
  le_bytes 8 (original_size h) ++ le_bytes 4 (checksum h).

(** [sizeof(struct file_header)] and [sizeof(header.header_checksum)] *)
Definition sizeof_header : nat := 8 + 4 + 1 + 1 + 2 + 16 + 16 + 8 + 4 + 4.
Definition sizeof_header_checksum : nat := 4.

Definition calculate_checksum (data : list Z) : Z :=
  fold_left (λ checksum b, wrap32 (Z.lxor (Z.shiftl checksum 1) b)) data 0.

(** "SENTINAL" *)
Definition SENTINAL : list Z := [83; 69; 78; 84; 73; 78; 65; 76].

(** What the run meets outside the program: the input file ([None] when
    it cannot be opened), whether [fstat] works, whether the output file
    already exists, what [/dev/urandom] delivers for the salt and the IV
    ([None] when it cannot be opened), and the password typed at the
    prompt.  Reads of the input file return full buffers and writes to
    the output file are complete. *)
Record environment := mkEnv {
  input_contents : option (list Z);
  fstat_ok : bool;
  output_exists : bool;
  urandom_salt : option (list Z);
  urandom_iv : option (list Z);
  typed_password : option (list Z)
}.

(** [generate_random_salt] / [generate_random_iv]: success needs all
    [len] bytes. *)
Definition generate_random (len : nat) (src : option (list Z)) : option (list Z) :=
  match src with
  | Some l => if decide (length l = len) then Some l else None
  | None => None
  end.

(** One pass of the read loop: pad the chunk, encrypt it in place. *)
Definition encrypt_chunk (ctx : Crypto.aes_context) (chunk : list Z)
  : option (list Z) :=
  let bytes_read := length chunk in
  let padded_size :=
    ((bytes_read + Crypto.AES_BLOCK_SIZE - 1) / Crypto.AES_BLOCK_SIZE
     * Crypto.AES_BLOCK_SIZE)%nat in
  let buffer :=
    chunk ++ replicate (padded_size - bytes_read)
                       (wrap8 (Z.of_nat (padded_size - bytes_read))) in
  Crypto.aes_encrypt_cbc ctx buffer.

(** The read loop over what is left of the input; the result is what was
    written and whether the loop ran to the end of the file.  [n] bounds
    the number of chunks. *)
Fixpoint encrypt_chunks (n : nat) (ctx : Crypto.aes_context) (data : list Z)
  : list Z * bool :=
  match n, data with
  | _, [] => ([], true)
  | O, _ => ([], false)
  | S n', _ =>
      match encrypt_chunk ctx (take BUFFER_SIZE data) with
      | None => ([], false)
      | Some c =>
          let '(rest, ok) := encrypt_chunks n' ctx (drop BUFFER_SIZE data) in
          (c ++ rest, ok)
      end
  end.

(** [encrypt_file(opts)]: the return value and the output file, [None]
    when it was not created. *)
Definition encrypt_file (opts : options) (e : environment)
  : Z * option (list Z) :=
  match source_system opts, dest_system opts with
  | Some _, Some _ =>
    if bool_decide (Crypto.verify_security_clearance
                      (wrap8 (classification opts)) (wrap8 (user_clearance opts)) ≠ 0)
    then (-1, None) else
    match input_contents e with
    | None => (-1, None)
    | Some data =>
      if negb (fstat_ok e) then (-1, None) else
      if negb (force_overwrite opts) && output_exists e then (-1, None) else
      match generate_random SALT_SIZE (urandom_salt e) with
      | None => (-1, Some [])
      | Some salt =>
        match generate_random Crypto.AES_BLOCK_SIZE (urandom_iv e) with
        | None => (-1, Some [])
        | Some iv =>
          let header :=
            mkHeader SENTINAL [1; 0; 0; 0] (wrap8 (classification opts)) 1 0
                     salt iv (wrap64 (Z.of_nat (length data))) 0 0 in
          match Crypto.derive_key_from_password (password opts) (Some salt) with
          | (0, Some key) =>
            match Crypto.aes_init (Some key) (Some iv) with
            | (0, Some aes_ctx) =>
              let header :=
                set_header_checksum
                  (calculate_checksum
                     (take (sizeof_header - sizeof_header_checksum)
                           (header_bytes header))) header in
              let '(body, ok) := encrypt_chunks (length data) aes_ctx data in
              (if ok then 0 else -1, Some (header_bytes header ++ body))
            | _ => (-1, Some [])
            end
          | _ => (-1, Some [])
          end
        end
      end
    end
  | _, _ => (-1, None)
  end.

(** [main] from "Validate arguments" on: the exit status and the output
    file. *)
Definition main (opts : options) (e : environment) : Z * option (list Z) :=
  if negb (encrypt_mode opts) && negb (decrypt_mode opts) then (1, None) else
  if encrypt_mode opts && decrypt_mode opts then (1, None) else
  match input_file opts, output_file opts with
  | Some _, Some _ =>
      let password :=
        match password opts with
        | Some p => Some p
        | None => typed_password e
        end in
      match password with
      | None => (1, None)
      | Some p =>
          let opts :=
            mkOptions (input_file opts) (output_file opts) (Some p)
                      (source_system opts) (dest_system opts)
                      (classification opts) (user_clearance opts)
                      (encrypt_mode opts) (decrypt_mode opts) (verbose opts)
                      (force_overwrite opts) in
          let '(result, out) :=
            if encrypt_mode opts then encrypt_file opts e
            else (-1, None) in
          (if bool_decide (result ≠ 0) then 1 else 0, out)
      end
  | _, _ => (1, None)
  end.

End Send.

(** ** Concrete states and runs *)

Module Scenario.

(** *** scheduler.c *)

Definition pcb (pid : Z) (st : Sched.proc_state) (sec prio : Z) (nx pv : option nat)
  : Sched.process :=
  Sched.mkProcess pid 0 st sec false prio 10 nx pv.

(** An unclassified process runs while a PENTAGON process heads the queue. *)
Definition upward : Sched.sched :=
  Sched.mkSched (Some 1%nat) (Some 2%nat)
    {[ 1%nat := pcb 5 Sched.PROC_RUNNING Sched.SEC_UNCLASSIFIED 10 None None;
       2%nat := pcb 1 Sched.PROC_READY Sched.SEC_PENTAGON 10 None None ]}
    0 true [].

(** A PENTAGON process runs while an unclassified one heads the queue. *)
Definition downward : Sched.sched :=
  Sched.mkSched (Some 1%nat) (Some 2%nat)
    {[ 1%nat := pcb 1 Sched.PROC_RUNNING Sched.SEC_PENTAGON 10 None None;
       2%nat := pcb 5 Sched.PROC_READY Sched.SEC_UNCLASSIFIED 10 None None ]}
    0 true [].

(** The idle process (slot 0, priority 0) runs; the processes of slots 2 and
    1, both of priority 10, wait in this order; slot 3 holds a process of
    priority 10 that is about to be queued. *)
Definition two_waiting : Sched.sched :=
  Sched.mkSched (Some 0%nat) (Some 2%nat)
    {[ 0%nat := pcb 0 Sched.PROC_RUNNING Sched.SEC_PENTAGON 0 None None;
       1%nat := pcb 1 Sched.PROC_READY Sched.SEC_PENTAGON 10 None (Some 2%nat);
       2%nat := pcb 2 Sched.PROC_READY Sched.SEC_PENTAGON 10 (Some 1%nat) None;
       3%nat := pcb 3 Sched.PROC_READY Sched.SEC_PENTAGON 10 None None ]}
    0 true [].

(** *** process.c *)

Definition task (pid prio : Z) (nx pv : option nat) : Core.process :=
  Core.mkProcess pid 1 Core.PROCESS_READY prio 0 0 [] nx pv 0.

(** The ready queue holds PCB 1 (priority 20) and PCB 2 (priority 10); PCB 3
    (priority 20) is ready and not queued. *)
Definition queue_20_10 : Core.kstate :=
  Core.mkKstate None (Some 1%nat)
    {[ 1%nat := task 1 20 (Some 2%nat) None;
       2%nat := task 2 10 None (Some 1%nat);
       3%nat := task 3 20 None None ]}.

(** *** memory.c *)

(** The kernel heap with its cursor at the end of the window. *)
Definition heap_full : Mm.mm := Mm.mkMm [] ∅ 0 0 Mm.KERNEL_HEAP_END true 0.

(** A zone of 2^11 frames from frame 4096 on, free as one block of order
    11. *)
Definition one_block : Mm.mm :=
  Mm.mkMm (replicate 3 (Mm.mkZone (replicate 11 None ++ [Some 4096]) 4096 6144 2048 2048))
          {[ 4096 := Mm.mkPage 0 0 11 None ]}
          (512 * 1024 * 1024) 0 Mm.KERNEL_HEAP_START true 0.

(** Four allocations of order 0 ... *)
Definition alloc4 : list (option Z) * Mm.mm :=
  let '(p0, s) := Mm.buddy_alloc_pages Mm.ZONE_NORMAL 0 one_block in
  let '(p1, s) := Mm.buddy_alloc_pages Mm.ZONE_NORMAL 0 s in
  let '(p2, s) := Mm.buddy_alloc_pages Mm.ZONE_NORMAL 0 s in
  let '(p3, s) := Mm.buddy_alloc_pages Mm.ZONE_NORMAL 0 s in
  ([p0; p1; p2; p3], s).

(** ... freed in the order p1, p0, p3, p2. *)
Definition free4 : option Mm.mm :=
  s ← Mm.buddy_free_pages 64 4097 0 (snd alloc4);
  s ← Mm.buddy_free_pages 64 4096 0 s;
  s ← Mm.buddy_free_pages 64 4099 0 s;
  Mm.buddy_free_pages 64 4098 0 s.

(** The zone of the specification that the state [s] holds in
    [ZONE_NORMAL]: the free lists are read along the [next] fields. *)
Definition zone_of (s : Mm.mm) : BuddySpec.zone :=
  BuddySpec.mkZone (Mm.start_pfn (Mm.zone s Mm.ZONE_NORMAL))
                   (Mm.end_pfn (Mm.zone s Mm.ZONE_NORMAL))
                   (Mm.free_list 64 s).

(** The same four frames freed in the same order by the algorithm of the
    specification, from the zone the four allocations left. *)
Definition spec_free4 : BuddySpec.zone :=
  let a := zone_of (snd alloc4) in
  let a := BuddySpec.free_pages a 4097 0 in
  let a := BuddySpec.free_pages a 4096 0 in
  let a := BuddySpec.free_pages a 4099 0 in
  BuddySpec.free_pages a 4098 0.

(** *** vfs.c *)

(** A PENTAGON-cleared process of user 1000. *)
Definition operator : Core.process :=
  Core.mkProcess 7 1 Core.PROCESS_RUNNING 20 1000 1000 [] None None 4.

(** *** syscalls.c *)

(** A file system with one inode that reads and writes nothing. *)
Definition sys_read0 := Sys.sys_read (world := unit) (λ _ _ _ _ _, (0, tt)).
Definition sys_write0 := Sys.sys_write (world := unit) (λ _ _ _ _ _, (0, tt)) (λ _ _, 0).
Definition sys_open0 := Sys.sys_open (world := unit) (λ _ _, Some 1) (λ _ _ _, (0, tt)).

(** Descriptor 3 is open. *)
Definition one_open : Sys.sys unit :=
  Sys.mkSys None {[ 3%nat := Sys.mkFd (Some 1) 0 0 0 1 ]} [] tt.

(** Every descriptor from 3 to 255 is open. *)
Definition all_open : Sys.sys unit :=
  Sys.mkSys None
    (list_to_map (map (λ i, (i, Sys.mkFd (Some 1) 0 0 0 1)) (seq 3 253))) [] tt.

(** *** sentinal_send *)

Definition opts_encrypt : Send.options :=
  Send.mkOptions (Some "doc.txt"%string) (Some "doc.enc"%string) (Some [112; 119; 0])
    (Some "UNKNOWN"%string) (Some "UNKNOWN"%string) 4 4 true false false false.

Definition opts_decrypt : Send.options :=
  Send.mkOptions (Some "doc.enc"%string) (Some "doc.txt"%string) (Some [112; 119; 0])
    (Some "UNKNOWN"%string) (Some "UNKNOWN"%string) 4 4 false true false false.

(** The input file holds the one byte 65. *)
Definition env_plain : Send.environment :=
  Send.mkEnv (Some [65]) true false (Some (map Z.of_nat (seq 1 16)))
             (Some (map Z.of_nat (seq 101 16))) None.

(** What the encrypting run writes. *)
Definition container : list Z :=
  Eval vm_compute in
    match snd (Send.encrypt_file opts_encrypt env_plain) with
    | Some o => o
    | None => []
    end.

(** The container is the input file of the decrypting run. *)
Definition env_container : Send.environment :=
  Send.mkEnv (Some container) true false (Some (map Z.of_nat (seq 1 16)))
             (Some (map Z.of_nat (seq 101 16))) None.

End Scenario.

(** ** kernel/mm/memory.c: aligned allocation and initialisation *)

Module MmInit.

Definition PAGE_SHIFT : Z := 12.
(** [sizeof(struct page)]: 8 + 4 + 4 + 8 bytes *)
Definition sizeof_page : Z := 24.

Definition with_total_memory (n : Z) (s : Mm.mm) : Mm.mm :=
  Mm.mkMm (Mm.zones s) (Mm.page_array s) n (Mm.used_memory s) (Mm.kernel_heap_ptr s)
          (Mm.initialized s) (Mm.early_heap_offset s).
Definition with_initialized (b : bool) (s : Mm.mm) : Mm.mm :=
  Mm.mkMm (Mm.zones s) (Mm.page_array s) (Mm.total_memory s) (Mm.used_memory s)
          (Mm.kernel_heap_ptr s) b (Mm.early_heap_offset s).
Definition set_pfn_range (first last : Z) (z : Mm.memory_zone) : Mm.memory_zone :=
  Mm.mkZone (Mm.free_pages z) first last (Mm.free_pages_count z) (Mm.total_pages z).

(** [(x + alignment - 1) & ~(alignment - 1)] on 64-bit unsigned values *)
Definition align_up (x alignment : Z) : Z :=
  Z.land (wrap64 (x + alignment - 1)) (wrap64 (Z.lnot (wrap64 (alignment - 1)))).

(** [kmalloc_aligned(size, alignment)] *)
Definition kmalloc_aligned (size alignment : Z) (s : Mm.mm)
  : outcome (Mm.kptr * Mm.mm) :=
  if negb (Mm.initialized s) then
    Mm.early_kmalloc size
      (Mm.with_early_offset (align_up (Mm.early_heap_offset s) alignment) s)
  else
    Mm.kmalloc size
      (Mm.with_heap (align_up (Mm.kernel_heap_ptr s) alignment) (Mm.used_memory s) s).

(** [init_memory_zones]: the frame ranges of the three zones, then every
    free list head set to [NULL]. *)
Definition init_memory_zones (s : Mm.mm) : Mm.mm :=
  let s := Mm.assign_zone Mm.ZONE_DMA
             (set_pfn_range 0 (Z.shiftr (16 * 1024 * 1024) PAGE_SHIFT)) s in
  let s := Mm.assign_zone Mm.ZONE_NORMAL
             (set_pfn_range (Z.shiftr (16 * 1024 * 1024) PAGE_SHIFT)
                            (Z.shiftr (896 * 1024 * 1024) PAGE_SHIFT)) s in
  let s := Mm.assign_zone Mm.ZONE_HIGHMEM
             (set_pfn_range (Z.shiftr (896 * 1024 * 1024) PAGE_SHIFT)
                            (Z.shiftr (Mm.total_memory s) PAGE_SHIFT)) s in
  fold_left (λ s z, fold_left (λ s k, Mm.set_free_head z k None s) (seq 0 12) s)
            (seq 0 3) s.

(** [mm_init].  [init_page_tables] only sets a bit of the EFER register.
    The page array is the map [page_array]; the pointer that
    [early_kmalloc] returns for it is not kept. *)
Definition mm_init (s : Mm.mm) : outcome Mm.mm :=
  let s := with_total_memory (512 * 1024 * 1024) s in
  let s := init_memory_zones s in
  let s := Mm.with_heap Mm.KERNEL_HEAP_START 0 s in
  let total_pages := Z.shiftr (Mm.total_memory s) PAGE_SHIFT in
  match Mm.early_kmalloc (wrap64 (total_pages * sizeof_page)) s with
  | Panicked msg => Panicked msg
  | Returned (_, s) =>
      let s := fold_left (λ s i, Mm.assign (Z.of_nat i) (λ _, Mm.mkPage 0 0 0 None) s)
                         (seq 0 (Z.to_nat total_pages)) s in
      Returned (with_initialized true s)
  end.

(** [mm_get_stats(&total, &used, &free)] with three non-null pointers *)
Definition mm_get_stats (s : Mm.mm) : Z * Z * Z :=
  (Mm.total_memory s, Mm.used_memory s,
   wrap64 (Mm.total_memory s - Mm.used_memory s)).

(** The zone [z] exists and has its twelve list heads. *)
Definition zone_ok (s : Mm.mm) (z : nat) : Prop :=
  (z < length (Mm.zones s))%nat ∧ length (Mm.free_pages (Mm.zone s z)) = 12%nat.

(** The static initial values of the globals of memory.c. *)
Definition boot_state : Mm.mm :=
  Mm.mkMm (replicate 3 (Mm.mkZone (replicate 12 None) 0 0 0 0)) ∅ 0 0 0 false 0.

End MmInit.

(** ** kernel/sched/scheduler.c: the process table *)

Module SchedTable.

(** The fields of [struct process] that [create_process] writes and
    [Sched.process] leaves out.  Pointers to PCBs are table indices.  The
    [name] array is only printed and is not kept. *)
Record process_rest := mkRest {
  rsp : Z;
  rflags : Z;
  stack_base : Z;
  stack_size : Z;
  stack_canary : Z;
  capabilities : Z;
  creation_time : Z;
  parent : option nat;
  next_sibling : option nat;
  first_child : option nat
}.

Definition zero_rest : process_rest := mkRest 0 0 0 0 0 0 0 None None None.

#[global] Instance process_rest_inhabited : Inhabited process_rest := populate zero_rest.

Definition set_first_child (c : option nat) (r : process_rest) : process_rest :=
  mkRest (rsp r) (rflags r) (stack_base r) (stack_size r) (stack_canary r)
         (capabilities r) (creation_time r) (parent r) (next_sibling r) c.

Inductive event :=
| ErrFailedToAllocate
| InfoCreated (pid sec_level : Z)
| InfoTerminated (pid : Z).

(** [sched_state] and [current_process] as in [Sched.sched], the rest of
    [sched_state], the allocator state of memory.c and the two values
    [create_process] reads from main.c: the stack canary and the address
    of the static [early_heap] array. *)
Record scheduler := mkScheduler {
  core : Sched.sched;
  rest : gmap nat process_rest;
  next_pid : Z;
  total_processes : Z;
  heap : Mm.mm;
  stack_chk_guard : Z;
  early_heap_base : Z;
  events : list event
}.

Definition with_core (c : Sched.sched) (s : scheduler) : scheduler :=
  mkScheduler c (rest s) (next_pid s) (total_processes s) (heap s)
              (stack_chk_guard s) (early_heap_base s) (events s).
Definition with_rest (r : gmap nat process_rest) (s : scheduler) : scheduler :=
  mkScheduler (core s) r (next_pid s) (total_processes s) (heap s)
              (stack_chk_guard s) (early_heap_base s) (events s).
Definition with_next_pid (n : Z) (s : scheduler) : scheduler :=
  mkScheduler (core s) (rest s) n (total_processes s) (heap s)
              (stack_chk_guard s) (early_heap_base s) (events s).
Definition with_total (n : Z) (s : scheduler) : scheduler :=
  mkScheduler (core s) (rest s) (next_pid s) n (heap s)
              (stack_chk_guard s) (early_heap_base s) (events s).
Definition with_heap (h : Mm.mm) (s : scheduler) : scheduler :=
  mkScheduler (core s) (rest s) (next_pid s) (total_processes s) h
              (stack_chk_guard s) (early_heap_base s) (events s).
Definition with_event (e : event) (s : scheduler) : scheduler :=
  mkScheduler (core s) (rest s) (next_pid s) (total_processes s) (heap s)
              (stack_chk_guard s) (early_heap_base s) (events s ++ [e]).

(** [sched_state.process_table[i]] *)
Definition slot (s : scheduler) (i : nat) : Sched.process := Sched.deref (core s) i.

(** [(uint64_t)ptr] for a pointer handed out by the allocator *)
Definition address (s : scheduler) (p : Mm.kptr) : Z :=
  match p with
  | Mm.EarlyHeap o => wrap64 (early_heap_base s + o)
  | Mm.HeapAddr a => a
  end.

(** [alloc_process]: the first slot whose state is [PROC_DEAD], zeroed. *)
Definition alloc_process (s : scheduler) : option nat * scheduler :=
  match List.find (λ i, bool_decide (Sched.state (slot s i) = Sched.PROC_DEAD))
                  (seq 0 256) with
  | Some i =>
      (Some i,
       with_rest (<[i := zero_rest]> (rest s))
         (with_core (Sched.with_table
                       (<[i := Sched.zero_process]> (Sched.process_table (core s)))
                       (core s)) s))
  | None => (None, s)
  end.

(** [create_process(name, sec_level, privileged)]; [now] is what
    [get_ticks] reads from the time stamp counter. *)
Definition create_process (sec_level : Z) (privileged : bool) (now : Z) (s : scheduler)
  : outcome (option nat * scheduler) :=
  match alloc_process s with
  | (None, s) => Returned (None, with_event ErrFailedToAllocate s)
  | (Some proc, s) =>
      let pid := next_pid s in
      let s := with_next_pid (wrap64 (next_pid s + 1)) s in
      let ppid := match Sched.current_process (core s) with
                  | Some cur => Sched.pid (slot s cur)
                  | None => 0
                  end in
      match MmInit.kmalloc_aligned 0x4000 4096 (heap s) with
      | Panicked msg => Panicked msg
      | Returned (ptr, h) =>
          let s := with_heap h s in
          let base := address s ptr in
          let pcb := Sched.mkProcess pid ppid Sched.PROC_READY sec_level privileged
                                     10 10 None None in
          let r := mkRest (wrap64 (base + 0x4000)) 0x202 base 0x4000 (stack_chk_guard s)
                          (if privileged then 0xFFFFFFFF else 0x00000001) now
                          None None None in
          let r := match Sched.current_process (core s) with
                   | Some cur =>
                       mkRest (rsp r) (rflags r) (stack_base r) (stack_size r)
                              (stack_canary r) (capabilities r) (creation_time r)
                              (Some cur) (first_child (rest s !!! cur)) None
                   | None => r
                   end in
          let s := with_core (Sched.with_table
                                (<[proc := pcb]> (Sched.process_table (core s)))
                                (core s)) s in
          let s := with_rest (<[proc := r]> (rest s)) s in
          let s := match Sched.current_process (core s) with
                   | Some cur => with_rest (upd cur (set_first_child (Some proc)) (rest s)) s
                   | None => s
                   end in
          let s := with_core (Sched.add_to_ready_queue proc (core s)) s in
          let s := with_total (wrap64 (total_processes s + 1)) s in
          Returned (Some proc, with_event (InfoCreated pid sec_level) s)
      end
  end.

(** [get_process(pid)] *)
Definition get_process (pid : Z) (s : scheduler) : option nat :=
  List.find (λ i, bool_decide (Sched.pid (slot s i) = pid) &&
                  bool_decide (Sched.state (slot s i) ≠ Sched.PROC_DEAD))
            (seq 0 256).

(** [terminate_process(pid)]; [kfree] of the stack frees nothing. *)
Definition terminate_process (pid : Z) (s : scheduler) : scheduler :=
  match get_process pid s with
  | None => s
  | Some proc =>
      if match Sched.current_process (core s) with
         | Some cur => negb (Sched.security_check (slot s cur) (slot s proc) 1)
         | None => false
         end
      then with_core (Sched.with_log Sched.WarnTerminationBlocked (core s)) s
      else
        let s := if decide (Sched.state (slot s proc) = Sched.PROC_READY)
                 then with_core (Sched.remove_from_ready_queue proc (core s)) s
                 else s in
        let s := with_core (Sched.assign proc (Sched.set_state Sched.PROC_DEAD) (core s)) s in
        let s := with_total (wrap64 (total_processes s - 1)) s in
        let s := with_event (InfoTerminated pid) s in
        if decide (Sched.current_process (core s) = Some proc)
        then with_core (Sched.schedule (Sched.with_current None (core s))) s
        else s
  end.

(** [sched_get_stats(&processes, &context_switches)] *)
Definition sched_get_stats (s : scheduler) : Z * Z :=
  (total_processes s, Sched.context_switches (core s)).

(** [create_idle_process] *)
Definition create_idle_process (s : scheduler) : scheduler :=
  let idle := Sched.mkProcess 0 0 Sched.PROC_RUNNING Sched.SEC_PENTAGON true 0 0
                              None None in
  let s := with_rest (<[0%nat := zero_rest]> (rest s)) s in
  with_core (Sched.with_current (Some 0%nat)
               (Sched.with_table (<[0%nat := idle]> (Sched.process_table (core s)))
                                 (core s))) s.

(** [scheduler_init]: the state is cleared, every slot marked dead, the
    idle and the init process created.  The log of the run is kept. *)
Definition scheduler_init (now : Z) (s : scheduler) : outcome scheduler :=
  let dead := Sched.mkProcess 0 0 Sched.PROC_DEAD 0 false 0 0 None None in
  let table := list_to_map (map (λ i, (i, dead)) (seq 0 256)) in
  let s := mkScheduler (Sched.mkSched (Sched.current_process (core s)) None table 0 false
                                      (Sched.klog (core s)))
                       (list_to_map (map (λ i, (i, zero_rest)) (seq 0 256)))
                       1 0 (heap s) (stack_chk_guard s) (early_heap_base s) (events s) in
  let s := create_idle_process s in
  match create_process Sched.SEC_PENTAGON true now s with
  | Panicked msg => Panicked msg
  | Returned (_, s) =>
      Returned (with_core (Sched.mkSched (Sched.current_process (core s))
                                         (Sched.ready_queue (core s))
                                         (Sched.process_table (core s))
                                         (Sched.context_switches (core s)) true
                                         (Sched.klog (core s))) s)
  end.

(** The ready queue as a list: a doubly linked segment of PCBs, the first
    with [prev = pv], the last with [next = None]. *)
Fixpoint dlist (t : gmap nat Sched.process) (pv hd : option nat) (l : list nat) : Prop :=
  match l with
  | [] => hd = None
  | x :: l' =>
      hd = Some x ∧ Sched.prev (t !!! x) = pv ∧ dlist t (Some x) (Sched.next (t !!! x)) l'
  end.

(** No two live slots hold the same pid, and every pid in use is below
    [next_pid]. *)
Definition pids_fresh (s : scheduler) : Prop :=
  ∀ i, (i < 256)%nat → Sched.state (slot s i) ≠ Sched.PROC_DEAD →
       0 ≤ Sched.pid (slot s i) < next_pid s.
Definition pids_unique (s : scheduler) : Prop :=
  ∀ i j, (i < 256)%nat → (j < 256)%nat →
         Sched.state (slot s i) ≠ Sched.PROC_DEAD →
         Sched.state (slot s j) ≠ Sched.PROC_DEAD →
         Sched.pid (slot s i) = Sched.pid (slot s j) → i = j.

End SchedTable.

(** ** crypto.c: constant-time comparison *)

Module CryptoUtil.

(** [secure_compare(a, b, len)]: [result |= pa[i] ^ pb[i]] on a
    [uint8_t], returned as [int]. *)
Definition secure_compare (a b : list Z) (len : nat) : Z :=
  fold_left (λ result i, wrap8 (Z.lor result (Z.lxor (nth i a 0) (nth i b 0))))
            (seq 0 len) 0.

(** Where the byte [k] of the hash stands after "Mix password" has gone
    through the characters [pw] from index [i] on: the value [v] it starts
    from is XORed with every character whose index is [k] modulo 32. *)
Fixpoint mixed_cell (pw : list Z) (i : nat) (v : Z) (k : nat) : Z :=
  match pw with
  | [] => v
  | c :: pw' =>
      mixed_cell pw' (S i) (if (i mod 32 =? k)%nat then wrap8 (Z.lxor v c) else v) k
  end.

End CryptoUtil.

(** ** sentinal_send.c: an option changed on the command line *)

Module SendUtil.

(** The options with another classification ([-c LEVEL]). *)
Definition with_classification (c : Z) (o : Send.options) : Send.options :=
  Send.mkOptions (Send.input_file o) (Send.output_file o) (Send.password o)
                 (Send.source_system o) (Send.dest_system o) c (Send.user_clearance o)
                 (Send.encrypt_mode o) (Send.decrypt_mode o) (Send.verbose o)
                 (Send.force_overwrite o).

(** The last 32 of the 60 bytes the header checksum is computed over:
    the last four bytes of the salt, the IV, the size and the payload
    checksum. *)
Definition header_tail (h : Send.file_header) : list Z :=
  drop 12 (Send.cells Send.SALT_SIZE (Send.salt h)) ++
  Send.cells Crypto.AES_BLOCK_SIZE (Send.iv h) ++
  Send.le_bytes 8 (Send.original_size h) ++ Send.le_bytes 4 (Send.checksum h).

(** What [encrypt_file] needs from the options and from the run to get
    as far as writing the header: both system names, the clearance, a
    readable input file [data], an output file that may be created, 16
    bytes of salt and of IV, and a password [pw]. *)
Definition can_encrypt (opts : Send.options) (e : Send.environment)
    (data salt iv pw : list Z) : Prop :=
  Send.source_system opts ≠ None ∧ Send.dest_system opts ≠ None ∧
  wrap8 (Send.classification opts) ≤ wrap8 (Send.user_clearance opts) ∧
  Send.input_contents e = Some data ∧ Send.fstat_ok e = true ∧
  (Send.force_overwrite opts = true ∨ Send.output_exists e = false) ∧
  Send.urandom_salt e = Some salt ∧ length salt = 16%nat ∧
  Send.urandom_iv e = Some iv ∧ length iv = 16%nat ∧
  Send.password opts = Some pw.

(** The buffer [encrypt_file] hands to [aes_encrypt_cbc]: what was read,
    padded to a multiple of 16 bytes with bytes that hold the length of the
    padding. *)
Definition padded (chunk : list Z) : list Z :=
  let bytes_read := length chunk in
  let padded_size :=
    ((bytes_read + Crypto.AES_BLOCK_SIZE - 1) / Crypto.AES_BLOCK_SIZE
     * Crypto.AES_BLOCK_SIZE)%nat in
  chunk ++ replicate (padded_size - bytes_read)
                     (wrap8 (Z.of_nat (padded_size - bytes_read))).

(** What the read loop reads: the input in pieces of [BUFFER_SIZE] bytes,
    the last one shorter; [n] bounds their number. *)
Fixpoint buffers (n : nat) (data : list Z) : list (list Z) :=
  match n, data with
  | _, [] => []
  | O, _ => []
  | S n', _ => take Send.BUFFER_SIZE data :: buffers n' (drop Send.BUFFER_SIZE data)
  end.

(** The header [encrypt_file] fills in, before and after the header
    checksum is stored. *)
Definition plain_header (classification : Z) (salt iv : list Z) (size : Z)
  : Send.file_header :=
  Send.mkHeader Send.SENTINAL [1; 0; 0; 0] classification 1 0 salt iv size 0 0.
Definition sealed (h : Send.file_header) : Send.file_header :=
  Send.set_header_checksum (Send.calculate_checksum (Send.header_prefix h)) h.

End SendUtil.

(** ** kernel/core/syscalls.c: closing a descriptor *)

Module SysClose.

Section Close.
Variable world : Type.
Variable fs_get_inode : world → Z → option Z.
Variable fs_create_file : world → Z → Z → Z * world.
Variable fs_read_inode : world → Z → Z → Z → Z → Z * world.
Variable fs_write_inode : world → Z → Z → Z → Z → Z * world.
Variable load_byte : world → Z → Z.

(** [syscall_init]: "Clear file table". *)
Definition syscall_init (s : Sys.sys world) : Sys.sys world :=
  Sys.with_file_table
    (fold_left (λ t i, upd i (λ f, Sys.mkFd None (Sys.offset f) (Sys.flags f) (Sys.mode f) 0) t)
               (seq 0 (Z.to_nat Core.MAX_OPEN_FILES)) (Sys.file_table s)) s.

(** [sys_close(fd)] *)
Definition sys_close (fd : Z) (s : Sys.sys world) : Z * Sys.sys world :=
  if bool_decide (Core.MAX_OPEN_FILES ≤ fd) || bool_decide (Sys.inode (Sys.slot s fd) = None)
  then (-9, s)
  else
    let s := Sys.with_file_table
               (upd (Z.to_nat fd)
                    (λ f, Sys.mkFd (Sys.inode f) (Sys.offset f) (Sys.flags f) (Sys.mode f)
                                   (wrap32 (Sys.ref_count f - 1)))
                    (Sys.file_table s)) s in
    let s := if bool_decide (Sys.ref_count (Sys.slot s fd) = 0)
             then Sys.with_file_table
                    (upd (Z.to_nat fd) (λ f, Sys.mkFd None 0 0 0 (Sys.ref_count f))
                         (Sys.file_table s)) s
             else s in
    let s := match Sys.current_process s with
             | Some cp =>
                 Sys.with_current
                   (Some (Core.set_open_files
                            (<[Z.to_nat fd := 0]> (Core.open_files cp)) cp)) s
             | None => s
             end in
    (0, s).

(** Descriptors 0, 1 and 2 have no inode. *)
Definition stdio_unopened (s : Sys.sys world) : Prop :=
  ∀ fd : nat, (fd < 3)%nat → Sys.inode (Sys.file_table s !!! fd) = None.

(** [after_calls s s']: the state [s'] is reached from [s] by calls of
    the four handlers that touch the file table. *)
Inductive after_calls (s : Sys.sys world) : Sys.sys world → Prop :=
| after_none : after_calls s s
| after_read s' fd buf count :
    after_calls s s' → after_calls s (snd (Sys.sys_read fs_read_inode fd buf count s'))
| after_write s' fd buf count :
    after_calls s s' →
    after_calls s (snd (Sys.sys_write fs_write_inode load_byte fd buf count s'))
| after_open s' filename flags mode :
    after_calls s s' →
    after_calls s (snd (Sys.sys_open fs_get_inode fs_create_file filename flags mode s'))
| after_close s' fd :
    after_calls s s' → after_calls s (snd (sys_close fd s')).

End Close.

Arguments syscall_init {world} s.
Arguments sys_close {world} fd s.
Arguments stdio_unopened {world} s.
Arguments after_calls {world} fs_get_inode fs_create_file fs_read_inode fs_write_inode
  load_byte s _.

End SysClose.

(** ** kernel/lib/string.c

    Memory is a map from addresses to bytes (0..255, a [char] read as
    [unsigned char]).  A pointer is an address; an object does not wrap
    around the address space, so pointer arithmetic is that of [Z]. *)

Module Klib.

Definition mem := Z → Z.

(** [*p = v] *)
Definition store (p v : Z) (m : mem) : mem := λ x, if decide (x = p) then v else m x.

(** [strlen(s)], entered with [len]; [None] when the fuel is used up
    before a NUL is met. *)
Fixpoint strlen_from (fuel : nat) (m : mem) (s len : Z) : option Z :=
  match fuel with
  | O => None
  | S k => if bool_decide (m (s + len) ≠ 0) then strlen_from k m s (len + 1) else Some len
  end.

Definition strlen (fuel : nat) (m : mem) (s : Z) : option Z := strlen_from fuel m s 0.

(** The loop of [strcpy]: copy a byte, advance both pointers, and stop
    after the NUL has been copied. *)
Fixpoint strcpy_loop (fuel : nat) (m : mem) (d src : Z) : option mem :=
  match fuel with
  | O => None
  | S k =>
      let c := m src in
      let m := store d c m in
      if bool_decide (c ≠ 0) then strcpy_loop k m (d + 1) (src + 1) else Some m
  end.

Definition strcpy (fuel : nat) (m : mem) (dest src : Z) : option mem :=
  strcpy_loop fuel m dest src.

(** The second loop of [strncpy]: [for (; i < n; i++) dest[i] = '\0';]
    with [k = n - i]. *)
Fixpoint strncpy_pad (k : nat) (m : mem) (dest i : Z) : mem :=
  match k with
  | O => m
  | S k' => strncpy_pad k' (store (dest + i) 0 m) dest (i + 1)
  end.

(** The first loop of [strncpy], with [k = n - i], followed by the
    second. *)
Fixpoint strncpy_from (k : nat) (m : mem) (dest src i : Z) : mem :=
  match k with
  | O => m
  | S k' =>
      if bool_decide (m (src + i) ≠ 0)
      then strncpy_from k' (store (dest + i) (m (src + i)) m) dest src (i + 1)
      else strncpy_pad k m dest i
  end.

Definition strncpy (m : mem) (dest src n : Z) : mem :=
  strncpy_from (Z.to_nat n) m dest src 0.

(** [strcmp(s1, s2)] *)
Fixpoint strcmp (fuel : nat) (m : mem) (s1 s2 : Z) : option Z :=
  match fuel with
  | O => None
  | S k =>
      if bool_decide (m s1 ≠ 0) && bool_decide (m s1 = m s2)
      then strcmp k m (s1 + 1) (s2 + 1)
      else Some (m s1 - m s2)
  end.

(** [strncmp(s1, s2, n)], with [k = n]. *)
Fixpoint strncmp_loop (k : nat) (m : mem) (s1 s2 : Z) : Z :=
  match k with
  | O => 0
  | S k' =>
      if bool_decide (m s1 ≠ 0) && bool_decide (m s1 = m s2)
      then strncmp_loop k' m (s1 + 1) (s2 + 1)
      else m s1 - m s2
  end.

Definition strncmp (m : mem) (s1 s2 n : Z) : Z := strncmp_loop (Z.to_nat n) m s1 s2.

(** [strcat(dest, src)] *)
Definition strcat (fuel : nat) (m : mem) (dest src : Z) : option mem :=
  match strlen fuel m dest with
  | Some len => strcpy_loop fuel m (dest + len) src
  | None => None
  end.

(** [while (n--) *p++ = (unsigned char)c;] *)
Fixpoint memset_loop (k : nat) (m : mem) (p c : Z) : mem :=
  match k with
  | O => m
  | S k' => memset_loop k' (store p (wrap8 c) m) (p + 1) c
  end.

Definition memset (m : mem) (s c n : Z) : mem := memset_loop (Z.to_nat n) m s c.

(** [while (n--) *d++ = *s++;] *)
Fixpoint copy_up (k : nat) (m : mem) (d s : Z) : mem :=
  match k with
  | O => m
  | S k' => copy_up k' (store d (m s) m) (d + 1) (s + 1)
  end.

(** [while (n--) *--d = *--s;] *)
Fixpoint copy_down (k : nat) (m : mem) (d s : Z) : mem :=
  match k with
  | O => m
  | S k' => copy_down k' (store (d - 1) (m (s - 1)) m) (d - 1) (s - 1)
  end.

Definition memcpy (m : mem) (dest src n : Z) : mem := copy_up (Z.to_nat n) m dest src.

Definition memmove (m : mem) (dest src n : Z) : mem :=
  if bool_decide (dest < src) then copy_up (Z.to_nat n) m dest src
  else copy_down (Z.to_nat n) m (dest + n) (src + n).

(** [memcmp(s1, s2, n)], with [k = n]. *)
Fixpoint memcmp_loop (k : nat) (m : mem) (p1 p2 : Z) : Z :=
  match k with
  | O => 0
  | S k' =>
      if bool_decide (m p1 ≠ m p2) then m p1 - m p2
      else memcmp_loop k' m (p1 + 1) (p2 + 1)
  end.

Definition memcmp (m : mem) (s1 s2 n : Z) : Z := memcmp_loop (Z.to_nat n) m s1 s2.

(** The string [l] is stored at [a]: its bytes, none of them 0, and the
    terminating NUL. *)
Fixpoint cstring (m : mem) (a : Z) (l : list Z) : Prop :=
  match l with
  | [] => m a = 0
  | c :: l' => m a = c ∧ c ≠ 0 ∧ cstring m (a + 1) l'
  end.

(** A memory that holds [l] and a NUL at [a], and 0 elsewhere. *)
Definition mem_of (a : Z) (l : list Z) : mem :=
  λ x, if bool_decide (a ≤ x) then nth (Z.to_nat (x - a)) l 0 else 0.

End Klib.

(** ** kernel/lib/string.c: [vsnprintf]

    The format is the list of the bytes at [fmt], with a NUL behind the
    last one; the arguments are the values [va_arg] hands out; the buffer
    is the list of the bytes written from [start] on, with [remaining]. *)

Module Printf.

(** An argument: an integer (or a pointer, for [%p]), or a pointer to a
    string ([None] for [NULL], else the bytes it points to). *)
Inductive varg :=
| VInt (n : Z)
| VStr (s : option (list Z)).

Record buffer := mkBuf {
  out : list Z;
  remaining : Z
}.

(** Store [c] at [buf], advance [buf] and decrement [remaining]. *)
Definition put (c : Z) (b : buffer) : buffer := mkBuf (out b ++ [c]) (remaining b - 1).

(** [if (remaining > 1) { *buf++ = c; remaining--; }] *)
Definition put_if_room (c : Z) (b : buffer) : buffer :=
  if bool_decide (1 < remaining b) then put c b else b.

(** An [int] from the bits of an argument. *)
Definition to_int (x : Z) : Z :=
  if bool_decide (wrap32 x < 2 ^ 31) then wrap32 x else wrap32 x - 2 ^ 32.

(** [print_string]: [s] is the list of the bytes at [s], with a NUL
    behind the last one. *)
Fixpoint print_string (s : list Z) (b : buffer) : buffer :=
  match s with
  | [] => b
  | c :: s' =>
      if bool_decide (c ≠ 0) && bool_decide (1 < remaining b)
      then print_string s' (put c b) else b
  end.

(** ["0123456789abcdef"] *)
Definition digits : list Z :=
  [48; 49; 50; 51; 52; 53; 54; 55; 56; 57; 97; 98; 99; 100; 101; 102].

(** [while (num > 0) { temp[i++] = digits[num % base]; num /= base; }]:
    [temp[0..i)]; 64 rounds are enough for a 64-bit [num]. *)
Fixpoint temp_loop (fuel : nat) (num base : Z) : list Z :=
  match fuel with
  | O => []
  | S k =>
      if bool_decide (0 < num)
      then nth (Z.to_nat (num mod base)) digits 0 :: temp_loop k (num / base) base
      else []
  end.

Definition temp_of (num base : Z) : list Z :=
  if bool_decide (num = 0) then [48] else temp_loop 64 num base.

(** "Pad with zeros if needed", with [k = width - i]. *)
Fixpoint pad_zeros (k : nat) (b : buffer) : buffer :=
  match k with
  | O => b
  | S k' => if bool_decide (1 < remaining b) then pad_zeros k' (put 48 b) else b
  end.

(** "Reverse and print": [temp[i-1]] down to [temp[0]]. *)
Fixpoint print_reversed (l : list Z) (b : buffer) : buffer :=
  match l with
  | [] => b
  | c :: l' => if bool_decide (1 < remaining b) then print_reversed l' (put c b) else b
  end.

(** [print_number(buf, remaining, num, base, width, flags)] *)
Definition print_number (num base width : Z) (b : buffer) : buffer :=
  let temp := temp_of num base in
  let b := pad_zeros (Z.to_nat (width - Z.of_nat (length temp))) b in
  print_reversed (rev temp) b.

(** One directive: the [switch] on the conversion character [conv]; [None] when [va_arg] reads an argument that is not there or is
    of the other kind. *)
Definition conversion (conv width : Z) (args : list varg) (b : buffer)
  : option (list varg * buffer) :=
  if bool_decide (conv = 99) then
    match args with
    | VInt c :: args => Some (args, put_if_room (wrap8 c) b)
    | _ => None
    end
  else if bool_decide (conv = 115) then
    match args with
    | VStr s :: args =>
        Some (args, print_string (default [40; 110; 117; 108; 108; 41] s) b)
    | _ => None
    end
  else if bool_decide (conv = 100) || bool_decide (conv = 105) then
    match args with
    | VInt n :: args =>
        let num := to_int n in
        let '(num, b) := if bool_decide (num < 0)
                         then (to_int (- num), put_if_room 45 b)
                         else (num, b) in
        Some (args, print_number (wrap64 num) 10 width b)
    | _ => None
    end
  else if bool_decide (conv = 117) then
    match args with
    | VInt n :: args => Some (args, print_number (wrap32 n) 10 width b)
    | _ => None
    end
  else if bool_decide (conv = 120) || bool_decide (conv = 88) then
    match args with
    | VInt n :: args => Some (args, print_number (wrap32 n) 16 width b)
    | _ => None
    end
  else if bool_decide (conv = 112) then
    match args with
    | VInt p :: args =>
        Some (args, print_number (wrap64 p) 16 16 (print_string [48; 120] b))
    | _ => None
    end
  else if bool_decide (conv = 37) then Some (args, put_if_room 37 b)
  else Some (args, put_if_room conv b).

(** How the run went: to the end of the format; into a [va_arg] that has
    no argument of its kind; or past the NUL of a format that ends inside
    a directive, where what is read next is not the format. *)
Inductive status := Finished | BadArgument | PastTheFormat.

(** The main loop of [vsnprintf]. *)
Fixpoint vsnprintf_loop (fmt : list Z) (args : list varg) (b : buffer)
  : buffer * status :=
  match fmt with
  | [] => (b, Finished)
  | c :: fmt1 =>
      if bool_decide (c = 0) || negb (bool_decide (1 < remaining b)) then (b, Finished)
      else if bool_decide (c ≠ 37) then vsnprintf_loop fmt1 args (put c b)
      else
        match fmt1 with
        | [] => (put_if_room 0 b, PastTheFormat)
        | d :: fmt2 =>
            if bool_decide (48 ≤ d) && bool_decide (d ≤ 57) then
              match fmt2 with
              | [] => (put_if_room 0 b, PastTheFormat)
              | conv :: fmt3 =>
                  match conversion conv (d - 48) args b with
                  | Some (args, b) => vsnprintf_loop fmt3 args b
                  | None => (b, BadArgument)
                  end
              end
            else
              match conversion d 0 args b with
              | Some (args, b) => vsnprintf_loop fmt2 args b
              | None => (b, BadArgument)
              end
        end
  end.

(** What [vsnprintf] leaves: the bytes written before the terminator,
    whether the terminator was written, and the value returned. *)
Record printed := mkPrinted {
  bytes : list Z;
  terminated : bool;
  result : Z;
  how : status
}.

(** [vsnprintf(buf, size, fmt, args)] *)
Definition vsnprintf (size : Z) (fmt : list Z) (args : list varg) : printed :=
  let '(b, st) := vsnprintf_loop fmt args (mkBuf [] size) in
  mkPrinted (out b)
            (match st with Finished => bool_decide (0 < remaining b) | _ => false end)
            (to_int (Z.of_nat (length (out b)))) st.

(** [b'] comes from [b] by writing into the room that [remaining]
    leaves: every byte written is counted, and the last cell stays free. *)
Definition written (b b' : buffer) : Prop :=
  Z.of_nat (length (out b')) + remaining b' = Z.of_nat (length (out b)) + remaining b ∧
  (1 ≤ remaining b → 1 ≤ remaining b') ∧
  (remaining b ≤ 1 → b' = b).

(** The number a string of decimal digits stands for. *)
Definition decimal_value (l : list Z) : Z := fold_left (λ acc c, 10 * acc + (c - 48)) l 0.

Definition is_digit (c : Z) : Prop := 48 ≤ c ≤ 57.

End Printf.

(** ** kernel/core/syscalls.c: its own [snprintf]

    The format, the arguments and the buffer are as for [vsnprintf];
    [pos] is the number of bytes written. *)

Module SysPrintf.

(** [size - 1] on a [size_t] *)
Definition limit (size : Z) : Z := wrap64 (size - 1).

(** [while (tmp && len < 31) { temp[len++] = '0' + (tmp % 10); tmp /= 10; }]
    on an [int]: the division truncates. *)
Fixpoint int_digits (k : nat) (tmp : Z) : list Z :=
  match k with
  | O => []
  | S k' =>
      if bool_decide (tmp ≠ 0)
      then wrap8 (48 + Z.rem tmp 10) :: int_digits k' (Z.quot tmp 10)
      else []
  end.

(** [temp[0..len)] after "Reverse string". *)
Definition temp_of (val : Z) : list Z :=
  if bool_decide (val = 0) then [48] else rev (int_digits 31 val).

(** [for (int i = 0; i < len && pos < size - 1; i++) str[pos++] = temp[i];]
    and the loop of [%s]. *)
Fixpoint emit (size : Z) (l : list Z) (out : list Z) : list Z :=
  match l with
  | [] => out
  | c :: l' =>
      if bool_decide (c ≠ 0) && bool_decide (Z.of_nat (length out) < limit size)
      then emit size l' (out ++ [c]) else out
  end.

Fixpoint emit_temp (size : Z) (l : list Z) (out : list Z) : list Z :=
  match l with
  | [] => out
  | c :: l' =>
      if bool_decide (Z.of_nat (length out) < limit size)
      then emit_temp size l' (out ++ [c]) else out
  end.

(** The loop of [snprintf]. *)
Fixpoint snprintf_loop (size : Z) (fmt : list Z) (args : list Printf.varg) (out : list Z)
  : list Z * Printf.status :=
  match fmt with
  | [] => (out, Printf.Finished)
  | c :: fmt1 =>
      if bool_decide (c = 0) || negb (bool_decide (Z.of_nat (length out) < limit size))
      then (out, Printf.Finished)
      else
        match fmt1 with
        | [] => (out ++ [c], Printf.Finished)
        | d :: fmt2 =>
            if bool_decide (c = 37) && bool_decide (d ≠ 0) then
              if bool_decide (d = 100) then
                match args with
                | Printf.VInt n :: args =>
                    snprintf_loop size fmt2 args
                      (emit_temp size (temp_of (Printf.to_int n)) out)
                | _ => (out, Printf.BadArgument)
                end
              else if bool_decide (d = 108) then
                match fmt2 with
                | [] => (out, Printf.Finished)
                | e :: fmt3 =>
                    if bool_decide (e = 117) || bool_decide (e = 100) then
                      match args with
                      | Printf.VInt n :: args =>
                          snprintf_loop size fmt3 args
                            (emit_temp size (temp_of (wrap64 n)) out)
                      | _ => (out, Printf.BadArgument)
                      end
                    else snprintf_loop size fmt2 args out
                end
              else if bool_decide (d = 115) then
                match args with
                | Printf.VStr (Some s) :: args =>
                    snprintf_loop size fmt2 args (emit size s out)
                | _ => (out, Printf.BadArgument)
                end
              else if bool_decide (d = 99) then
                match args with
                | Printf.VInt ch :: args => snprintf_loop size fmt2 args (out ++ [wrap8 ch])
                | _ => (out, Printf.BadArgument)
                end
              else snprintf_loop size fmt2 args (out ++ [d])
            else snprintf_loop size fmt1 args (out ++ [c])
        end
  end.

(** [snprintf(str, size, format, ...)]: the bytes written before the NUL
    of [str[pos] = 0] and how the run went; the value returned is their
    number. *)
Definition snprintf (size : Z) (fmt : list Z) (args : list Printf.varg)
  : list Z * Printf.status :=
  snprintf_loop size fmt args [].

End SysPrintf.

(** ** kernel/core/process.c: the process list and the dispatcher

    [process_list] and [ready_queue] are threaded through the same
    [next] and [prev] fields of the PCBs. *)

Module Proc.

(** The globals of process.c, the allocator state of memory.c and the
    address of its static [early_heap] array.  A PCB is kept under its
    address.  The page directory, the stacks and the CPU context of a
    process are other objects and are not kept; [get_page_directory] and
    [security_audit_log] are declared in system.h and defined nowhere. *)
Record pstate := mkPstate {
  kernel : Core.kstate;
  process_list : option nat;
  next_pid : Z;
  scheduler_ticks : Z;
  scheduler_lock : Z;
  heap : Mm.mm;
  early_heap_base : Z
}.

Definition with_kernel (k : Core.kstate) (s : pstate) : pstate :=
  mkPstate k (process_list s) (next_pid s) (scheduler_ticks s) (scheduler_lock s)
           (heap s) (early_heap_base s).
Definition with_process_list (l : option nat) (s : pstate) : pstate :=
  mkPstate (kernel s) l (next_pid s) (scheduler_ticks s) (scheduler_lock s)
           (heap s) (early_heap_base s).
Definition with_next_pid (n : Z) (s : pstate) : pstate :=
  mkPstate (kernel s) (process_list s) n (scheduler_ticks s) (scheduler_lock s)
           (heap s) (early_heap_base s).
Definition with_lock (n : Z) (s : pstate) : pstate :=
  mkPstate (kernel s) (process_list s) (next_pid s) (scheduler_ticks s) n
           (heap s) (early_heap_base s).
Definition with_heap (h : Mm.mm) (s : pstate) : pstate :=
  mkPstate (kernel s) (process_list s) (next_pid s) (scheduler_ticks s) (scheduler_lock s)
           h (early_heap_base s).

Definition with_current (c : option nat) (k : Core.kstate) : Core.kstate :=
  Core.mkKstate c (Core.ready_queue k) (Core.procs k).

Definition set_pid (v : Z) (p : Core.process) : Core.process :=
  Core.mkProcess v (Core.ppid p) (Core.state p) (Core.priority p) (Core.uid p) (Core.gid p)
                 (Core.open_files p) (Core.next p) (Core.prev p) (Core.security_level p).
Definition set_ppid (v : Z) (p : Core.process) : Core.process :=
  Core.mkProcess (Core.pid p) v (Core.state p) (Core.priority p) (Core.uid p) (Core.gid p)
                 (Core.open_files p) (Core.next p) (Core.prev p) (Core.security_level p).
Definition set_priority (v : Z) (p : Core.process) : Core.process :=
  Core.mkProcess (Core.pid p) (Core.ppid p) (Core.state p) v (Core.uid p) (Core.gid p)
                 (Core.open_files p) (Core.next p) (Core.prev p) (Core.security_level p).
Definition set_uid (v : Z) (p : Core.process) : Core.process :=
  Core.mkProcess (Core.pid p) (Core.ppid p) (Core.state p) (Core.priority p) v (Core.gid p)
                 (Core.open_files p) (Core.next p) (Core.prev p) (Core.security_level p).
Definition set_gid (v : Z) (p : Core.process) : Core.process :=
  Core.mkProcess (Core.pid p) (Core.ppid p) (Core.state p) (Core.priority p) (Core.uid p) v
                 (Core.open_files p) (Core.next p) (Core.prev p) (Core.security_level p).
Definition set_security_level (v : Z) (p : Core.process) : Core.process :=
  Core.mkProcess (Core.pid p) (Core.ppid p) (Core.state p) (Core.priority p) (Core.uid p)
                 (Core.gid p) (Core.open_files p) (Core.next p) (Core.prev p) v.

(** [proc->field = ...] *)
Definition write (p : nat) (f : Core.process → Core.process) (s : pstate) : pstate :=
  with_kernel (Core.assign p f (kernel s)) s.

(** [proc->field] *)
Definition pcb (s : pstate) (p : nat) : Core.process := Core.deref (kernel s) p.

(** [kmalloc(size)] of memory.c, with the pointer as an address. *)
Definition kmalloc (size : Z) (s : pstate) : outcome (Z * pstate) :=
  match Mm.kmalloc size (heap s) with
  | Panicked msg => Panicked msg
  | Returned (Mm.EarlyHeap o, h) => Returned (wrap64 (early_heap_base s + o), with_heap h s)
  | Returned (Mm.HeapAddr a, h) => Returned (a, with_heap h s)
  end.

(** [sizeof(struct process)] and [sizeof(struct cpu_context)] on x86-64 *)
Definition sizeof_process : Z := 1320.
Definition sizeof_cpu_context : Z := 200.
Definition PAGE_SIZE : Z := 4096.
Definition KERNEL_STACK_SIZE : Z := 16384.

(** An [int] from a [uint32_t]. *)
Definition to_int (x : Z) : Z :=
  if bool_decide (wrap32 x < 2 ^ 31) then wrap32 x else wrap32 x - 2 ^ 32.

(** How a call ends: it returns, it panics, or it waits for the
    [scheduler_lock] in a loop that nothing ends. *)
Inductive completion (A : Type) :=
| Done (a : A)
| Panic (msg : string)
| Spins.
Arguments Done {A} a.
Arguments Panic {A} msg.
Arguments Spins {A}.

(** [process_create(name, entry_point)]; [None] when the fuel of
    [add_to_ready_queue] is used up. *)
Definition process_create (fuel : nat) (s : pstate) : option (completion (Z * pstate)) :=
  if bool_decide (scheduler_lock s ≠ 0) then Some Spins else
  let s := with_lock 1 s in
  match kmalloc sizeof_process s with
  | Panicked msg => Some (Panic msg)
  | Returned (a, s) =>
      if bool_decide (a = 0) then Some (Done (-1, with_lock 0 s)) else
      let proc := Z.to_nat a in
      let cur := Core.current_process (kernel s) in
      let s := write proc (set_pid (wrap32 (next_pid s))) s in
      let s := with_next_pid (wrap32 (next_pid s + 1)) s in
      let s := write proc (set_ppid (match cur with
                                     | Some c => Core.pid (pcb s c)
                                     | None => 0
                                     end)) s in
      let s := write proc (Core.set_state Core.PROCESS_READY) s in
      let s := write proc (set_priority 20) s in
      let s := write proc (set_uid (match cur with
                                    | Some c => Core.uid (pcb s c)
                                    | None => 0
                                    end)) s in
      let s := write proc (set_gid (match cur with
                                    | Some c => Core.gid (pcb s c)
                                    | None => 0
                                    end)) s in
      let s := write proc (set_security_level (match cur with
                                               | Some c => Core.security_level (pcb s c)
                                               | None => 0
                                               end)) s in
      match kmalloc PAGE_SIZE s with
      | Panicked msg => Some (Panic msg)
      | Returned (page_directory, s) =>
          if bool_decide (page_directory = 0) then Some (Done (-1, with_lock 0 s)) else
          match kmalloc KERNEL_STACK_SIZE s with
          | Panicked msg => Some (Panic msg)
          | Returned (_, s) =>
              match kmalloc sizeof_cpu_context s with
              | Panicked msg => Some (Panic msg)
              | Returned (context, s) =>
                  if bool_decide (context = 0) then Some (Done (-1, with_lock 0 s)) else
                  let s := write proc (Core.set_open_files (replicate 256 0)) s in
                  let s := write proc (Core.set_next (process_list s)) s in
                  let s := match process_list s with
                           | Some l => write l (Core.set_prev (Some proc)) s
                           | None => s
                           end in
                  let s := write proc (Core.set_prev None) s in
                  let s := with_process_list (Some proc) s in
                  match Core.add_to_ready_queue fuel (Some proc) (kernel s) with
                  | None => None
                  | Some k =>
                      let s := with_lock 0 (with_kernel k s) in
                      Some (Done (to_int (Core.pid (pcb s proc)), s))
                  end
              end
          end
      end
  end.

(** [process_find_by_pid(pid)]; [None] when the fuel is used up. *)
Fixpoint find_from (fuel : nat) (t : gmap nat Core.process) (pid : Z) (proc : option nat)
  : option (option nat) :=
  match fuel with
  | O => None
  | S k =>
      match proc with
      | None => Some None
      | Some p =>
          if bool_decide (Core.pid (t !!! p) = pid) then Some (Some p)
          else find_from k t pid (Core.next (t !!! p))
      end
  end.

Definition process_find_by_pid (fuel : nat) (pid : Z) (s : pstate) : option (option nat) :=
  find_from fuel (Core.procs (kernel s)) (wrap32 pid) (process_list s).



End Proc.

(** ** More concrete states *)

Module Examples.

(** The scheduler of [Scenario.two_waiting] with the rest of its state:
    the idle process (pid 0) runs, pids 2 and 1 wait, pid 3 is ready. *)
Definition idle_running : SchedTable.scheduler :=
  SchedTable.mkScheduler Scenario.two_waiting ∅ 4 3 MmInit.boot_state 0 0 [].

(** The scheduler of [Scenario.downward]: pid 1 (PENTAGON) runs, pid 5
    (unclassified) waits. *)
Definition pentagon_running : SchedTable.scheduler :=
  SchedTable.mkScheduler Scenario.downward ∅ 6 2 MmInit.boot_state 0 0 [].

(** The scheduler before [scheduler_init], as the zeroed globals give it,
    after it, and after one more [create_process]. *)
Definition unbooted : SchedTable.scheduler :=
  SchedTable.mkScheduler (Sched.mkSched None None ∅ 0 false []) ∅ 0 0
                         MmInit.boot_state 0 0 [].
Definition booted : SchedTable.scheduler :=
  match SchedTable.scheduler_init 0 unbooted with
  | Returned s => s
  | Panicked _ => unbooted
  end.
Definition booted_plus_one : SchedTable.scheduler :=
  match SchedTable.create_process Sched.SEC_UNCLASSIFIED false 7 booted with
  | Returned (_, s) => s
  | Panicked _ => booted
  end.


(** process.c after [process_init]: the init process (pid 1) runs, it is
    the process list, and the ready queue is empty. *)
Definition init_running : Proc.pstate :=
  Proc.mkPstate
    (Core.mkKstate (Some 1%nat) None
       {[ 1%nat := Core.mkProcess 1 0 Core.PROCESS_RUNNING 10 0 0 (replicate 256 0)
                                  None None 4 ]})
    (Some 1%nat) 2 0 0 MmInit.boot_state 4096.

(** What [process_create] returns then, and the state it leaves. *)
Definition one_created : Z * Proc.pstate :=
  match Proc.process_create 4 init_running with
  | Some (Proc.Done r) => r
  | _ => (-1, init_running)
  end.





End Examples.

(** ** Proof automation *)

(** Reads of link fields after writes: rewrite with the hints of the
    database [links], split on the pointer comparisons, and close what
    congruence closes. *)
Create Rewrite HintDb links.

Ltac links :=
  autorewrite with links; repeat case_decide; subst; try done; try congruence.

(** * Proofs *)

(** ** Stores *)

Section Store.
Context `{Countable K} `{Inhabited A}.

Lemma upd_eq (p : K) (f : A → A) (m : gmap K A) : upd p f m !!! p = f (m !!! p).
Proof. unfold upd. by rewrite lookup_total_insert_eq. Qed.

Lemma upd_ne (p q : K) (f : A → A) (m : gmap K A) : p ≠ q → upd p f m !!! q = m !!! q.
Proof. intros. unfold upd. by rewrite lookup_total_insert_ne. Qed.

Lemma upd_lookup (p q : K) (f : A → A) (m : gmap K A) :
  upd p f m !!! q = if decide (p = q) then f (m !!! q) else m !!! q.
Proof. case_decide; subst; auto using upd_eq, upd_ne. Qed.

End Store.

(** ** scheduler.c: the dispatch check *)

Section SchedulerDispatch.
Import Sched.

Lemma context_switch_to f t s :
  current_process (context_switch (Some f) (Some t) s) = Some t ∧
  state (deref (context_switch (Some f) (Some t) s) t) = PROC_RUNNING ∧
  context_switches (context_switch (Some f) (Some t) s) = wrap64 (context_switches s + 1).
Proof. cbn. unfold deref, assign. cbn. by rewrite upd_eq. Qed.

Lemma current_remove n s :
  current_process (remove_from_ready_queue n s) = current_process s.
Proof. unfold remove_from_ready_queue. repeat case_match; reflexivity. Qed.

Lemma current_add n s : current_process (add_to_ready_queue n s) = current_process s.
Proof. unfold add_to_ready_queue. cbn. repeat case_match; reflexivity. Qed.

Lemma switches_remove n s :
  context_switches (remove_from_ready_queue n s) = context_switches s.
Proof. unfold remove_from_ready_queue. repeat case_match; reflexivity. Qed.

Lemma switches_add n s : context_switches (add_to_ready_queue n s) = context_switches s.
Proof. unfold add_to_ready_queue. cbn. repeat case_match; reflexivity. Qed.

(** C1, as the code has it.  With the scheduler initialised, a PCB [nxt] at
    the head of the ready queue and a current PCB [cur], [schedule] applies
    the read rule of [security_check] to the pair: when the classification of
    [nxt] is at most that of [cur] (equal or strictly below) the switch is
    performed, [nxt] becomes the running current process and the
    context-switch counter advances; when the classification of [nxt] is
    strictly above that of [cur], [schedule] logs the refusal and returns
    with the state otherwise unchanged. *)
Theorem schedule_switches_unless_read_up (s : sched) (cur nxt : nat) :
  initialized s = true →
  ready_queue s = Some nxt →
  current_process s = Some cur →
  (sec_level (deref s nxt) ≤ sec_level (deref s cur) →
     current_process (schedule s) = Some nxt ∧
     state (deref (schedule s) nxt) = PROC_RUNNING ∧
     context_switches (schedule s) = wrap64 (context_switches s + 1)) ∧
  (sec_level (deref s cur) < sec_level (deref s nxt) →
     schedule s = with_log (WarnBlockedBySecurityPolicy (pid (deref s nxt))) s).
Proof.
  intros Hi Hq Hc. unfold schedule. rewrite Hi, Hq, Hc. cbn [negb].
  unfold security_check. rewrite decide_True by done.
  split; intros Hl.
  - rewrite bool_decide_eq_true_2 by done. cbn [negb].
    rewrite current_remove, Hc.
    case_decide.
    + rewrite current_add, current_remove, Hc.
      pose proof (context_switch_to cur nxt
                    (add_to_ready_queue cur (remove_from_ready_queue nxt s)))
        as (? & ? & Hcs).
      repeat split; try done. by rewrite Hcs, switches_add, switches_remove.
    + rewrite current_remove, Hc.
      pose proof (context_switch_to cur nxt (remove_from_ready_queue nxt s))
        as (? & ? & Hcs).
      repeat split; try done. by rewrite Hcs, switches_remove.
  - by rewrite bool_decide_eq_false_2 by lia.
Qed.

Lemma schedule_switches_downward :
  initialized Scenario.downward = true ∧
  ready_queue Scenario.downward = Some 2%nat ∧
  current_process Scenario.downward = Some 1%nat ∧
  sec_level (deref Scenario.downward 2) ≤ sec_level (deref Scenario.downward 1) ∧
  current_process (schedule Scenario.downward) = Some 2%nat ∧
  state (deref (schedule Scenario.downward) 2) = PROC_RUNNING ∧
  context_switches (schedule Scenario.downward)
  = wrap64 (context_switches Scenario.downward + 1).
Proof.
  split; [reflexivity|]. split; [reflexivity|]. split; [reflexivity|].
  split; [vm_compute; discriminate|].
  destruct (schedule_switches_unless_read_up Scenario.downward 1 2
              eq_refl eq_refl eq_refl) as [Hdown _].
  apply Hdown. vm_compute. discriminate.
Defined.

(** C1 fails as stated: the running process is unclassified, the head of
    the ready queue is a PENTAGON process, and [schedule] does not switch. *)
Lemma upward_dispatch_blocked :
  sec_level (deref Scenario.upward 1) < sec_level (deref Scenario.upward 2) ∧
  current_process (schedule Scenario.upward) = Some 1%nat ∧
  state (deref (schedule Scenario.upward) 2) = PROC_READY ∧
  ready_queue (schedule Scenario.upward) = Some 2%nat ∧
  context_switches (schedule Scenario.upward) = context_switches Scenario.upward ∧
  klog (schedule Scenario.upward) = [WarnBlockedBySecurityPolicy 1].
Proof. split_and!; vm_compute; reflexivity. Qed.

(** C5 fails on the queue of scheduler.c: [add_to_ready_queue] links a
    process in front of queued processes of its own priority, and after
    [schedule] has put the idle process (priority 0) back, the queue runs
    from priority 0 to priority 10. *)
Lemma head_insertion_breaks_order :
  queue_of 8 Scenario.two_waiting = [2; 1]%nat ∧
  queue_of 8 (add_to_ready_queue 3 Scenario.two_waiting) = [3; 2; 1]%nat ∧
  map (λ p, priority (deref Scenario.two_waiting p)) [3; 2; 1]%nat = [10; 10; 10] ∧
  queue_of 8 (schedule Scenario.two_waiting) = [0; 1]%nat ∧
  map (λ p, priority (deref (schedule Scenario.two_waiting) p)) [0; 1]%nat = [0; 10].
Proof. split_and!; vm_compute; reflexivity. Qed.

End SchedulerDispatch.

(** ** process.c: the ready queue *)

Section ReadyQueue.
Import Core.
Implicit Types (t : gmap nat process) (l : list nat).

Lemma next_set_next q v t y :
  next (upd q (set_next v) t !!! y) = if decide (q = y) then v else next (t !!! y).
Proof. rewrite upd_lookup. by case_decide. Qed.
Lemma prev_set_next q v t y : prev (upd q (set_next v) t !!! y) = prev (t !!! y).
Proof. rewrite upd_lookup. by case_decide. Qed.
Lemma next_set_prev q v t y : next (upd q (set_prev v) t !!! y) = next (t !!! y).
Proof. rewrite upd_lookup. by case_decide. Qed.
Lemma prev_set_prev q v t y :
  prev (upd q (set_prev v) t !!! y) = if decide (q = y) then v else prev (t !!! y).
Proof. rewrite upd_lookup. by case_decide. Qed.
Lemma prio_set_next q v t y : prio (upd q (set_next v) t) y = prio t y.
Proof. unfold prio. rewrite upd_lookup. by case_decide. Qed.
Lemma prio_set_prev q v t y : prio (upd q (set_prev v) t) y = prio t y.
Proof. unfold prio. rewrite upd_lookup. by case_decide. Qed.

Lemma dlist_frame t t' l : ∀ pv hd,
  (∀ x, x ∈ l → next (t' !!! x) = next (t !!! x) ∧ prev (t' !!! x) = prev (t !!! x)) →
  dlist t pv hd l → dlist t' pv hd l.
Proof.
  induction l as [|x l IH]; intros pv hd Hfr; cbn; [done|].
  intros (-> & Hp & Hl). destruct (Hfr x) as [Hn Hp']; [left|].
  rewrite Hn, Hp'. split_and!; try done. apply IH; [|done].
  intros y Hy. apply Hfr. by right.
Qed.

Lemma descending_frame t t' l :
  (∀ x, x ∈ l → prio t' x = prio t x) → descending t l → descending t' l.
Proof.
  induction l as [|x l IH]; cbn; [done|]. intros Hfr [Hx Hl]. split.
  - intros y Hy. rewrite !Hfr; [auto| left | by right].
  - apply IH; [|done]. intros y Hy. apply Hfr. by right.
Qed.

Lemma descending_app t l1 l2 :
  descending t (l1 ++ l2) ↔
  descending t l1 ∧ descending t l2 ∧ ∀ x y, x ∈ l1 → y ∈ l2 → prio t y ≤ prio t x.
Proof.
  induction l1 as [|a l1 IH]; cbn.
  - split; [intros; split_and!; try done; intros ?? Hx; inversion Hx | tauto].
  - rewrite IH. split.
    + intros (Ha & H1 & H2 & H12). split_and!; try done.
      * intros y Hy. apply Ha. apply elem_of_app; auto.
      * intros x y Hx Hy. apply elem_of_cons in Hx as [->|Hx]; [|eauto].
        apply Ha. apply elem_of_app; auto.
    + intros ((Ha & H1) & H2 & H12). split_and!; try done.
      * intros y Hy. apply elem_of_app in Hy as [Hy|Hy]; [auto|].
        apply H12; [left | done].
      * intros x y Hx Hy. apply H12; [by right | done].
Qed.

(** The loop of [add_to_ready_queue] stops at the last PCB whose priority
    is at least [p]. *)
Lemma walk_spec t p : ∀ l fuel pv h,
  dlist t pv (Some h) (h :: l) →
  descending t (h :: l) →
  p ≤ prio t h →
  (length l < fuel)%nat →
  ∃ l1 curr l2,
    walk fuel t p h = Some curr ∧ h :: l = l1 ++ curr :: l2 ∧
    (∀ x, x ∈ l1 ++ [curr] → p ≤ prio t x) ∧
    (∀ x, x ∈ l2 → prio t x < p).
Proof.
  induction l as [|n l IH]; intros fuel pv h Hd Hs Hp Hf.
  - destruct fuel as [|fuel]; [cbn in Hf; lia|].
    cbn in Hd. destruct Hd as (_ & _ & Hn). cbn. rewrite Hn.
    exists [], h, []. split_and!; try done.
    + intros x Hx. apply list_elem_of_singleton in Hx as ->. done.
    + intros x Hx. inversion Hx.
  - destruct fuel as [|fuel]; [cbn in Hf; lia|].
    pose proof Hd as Hd0.
    cbn in Hd. destruct Hd as (_ & Hpv & Hn & Hpn & Hl). cbn [walk]. rewrite Hn.
    case_bool_decide as Hc.
    + destruct (IH fuel (Some h) n) as (l1 & curr & l2 & Hw & Hl' & H1 & H2).
      * cbn. done.
      * apply Hs.
      * done.
      * cbn in Hf. lia.
      * exists (h :: l1), curr, l2. split_and!; try done.
        -- cbn. by rewrite Hl'.
        -- intros x Hx. cbn in Hx. apply elem_of_cons in Hx as [->|Hx]; auto.
    + exists [], h, (n :: l). split_and!; try done.
      * intros x Hx. apply list_elem_of_singleton in Hx as ->. done.
      * intros x Hx. destruct Hs as [_ [Hs _]].
        apply elem_of_cons in Hx as [->|Hx]; [unfold prio; lia|].
        specialize (Hs x Hx). unfold prio in *. lia.
Qed.


#[local] Hint Rewrite next_set_next prev_set_next next_set_prev prev_set_prev
  prio_set_next prio_set_prev : links.

Lemma dlist_head t pv hd l :
  dlist t pv hd l → hd = head l.
Proof. destruct l; cbn; [done|]. by intros (-> & _). Qed.

(** Where [p] sits in a list, its links are its neighbours. *)
Lemma dlist_links t p l2 : ∀ l1 pv hd,
  dlist t pv hd (l1 ++ p :: l2) →
  prev (t !!! p) = from_option Some pv (last l1) ∧ next (t !!! p) = head l2.
Proof.
  induction l1 as [|a l1 IH]; intros pv hd; cbn.
  - intros (_ & Hp & Hl). split; [done|]. by apply dlist_head in Hl.
  - intros (_ & _ & Hl). apply IH in Hl as [Hp Hn]. split; [|done].
    rewrite Hp, (last_cons a l1). by destruct (last l1).
Qed.

(** Linking [p] after [curr], as the else branch of [add_to_ready_queue]
    writes it. *)
Lemma dlist_insert_after t p curr l2 : ∀ l1 pv hd,
  dlist t pv hd (l1 ++ curr :: l2) →
  NoDup (l1 ++ curr :: l2) →
  p ∉ l1 ++ curr :: l2 →
  let t1 := upd p (set_next (next (t !!! curr))) t in
  let t2 := match next (t1 !!! curr) with
            | Some n => upd n (set_prev (Some p)) t1
            | None => t1
            end in
  let t3 := upd p (set_prev (Some curr)) t2 in
  let t4 := upd curr (set_next (Some p)) t3 in
  dlist t4 pv hd (l1 ++ curr :: p :: l2).
Proof.
  induction l1 as [|a l1 IH]; intros pv hd Hd Hnd Hp; cbn zeta.
  - cbn in *. destruct Hd as (-> & Hpv & Hl).
    apply NoDup_cons in Hnd as [Hc Hnd]. apply not_elem_of_cons in Hp as [Hpc Hp].
    assert (next (upd p (set_next (next (t !!! curr))) t !!! curr) = next (t !!! curr)) as ->
      by links.
    destruct l2 as [|n l2]; cbn in Hl.
    + rewrite Hl. split_and!; links.
    + destruct Hl as (Hn & Hpn & Hl). rewrite Hn in *.
      apply not_elem_of_cons in Hc as [Hcn Hc]. apply not_elem_of_cons in Hp as [Hpn' Hp].
      apply NoDup_cons in Hnd as [Hnn Hnd].
      split_and!; links. split_and!; links.
      eapply dlist_frame; [|exact Hl]. intros x Hx.
      assert (x ≠ p) by (intros ->; done).
      assert (x ≠ curr) by (intros ->; done).
      assert (x ≠ n) by (intros ->; done).
      split; links.
  - cbn in Hd. destruct Hd as (-> & Hpv & Hl).
    cbn in Hnd. apply NoDup_cons in Hnd as [Ha Hnd].
    cbn in Hp. apply not_elem_of_cons in Hp as [Hpa Hp].
    specialize (IH (Some a) (next (t !!! a)) Hl Hnd Hp). cbn zeta in IH.
    assert (a ≠ curr) by (intros ->; apply Ha, elem_of_app; right; left).
    pose proof (dlist_links _ _ _ _ _ _ Hl) as [_ Hcn].
    cbn. split; [done|].
    assert (next (upd p (set_next (next (t !!! curr))) t !!! curr) = next (t !!! curr)) as Hnc
      by links.
    rewrite Hnc in *. rewrite Hcn in *.
    destruct l2 as [|n l2]; cbn [head] in *.
    + split; links.
    + assert (a ≠ n) by (intros ->; apply Ha, elem_of_app; right; right; left).
      split; links.
Qed.

(** Unlinking [p], as [remove_from_ready_queue] writes it, when [p] has
    a predecessor. *)
Lemma dlist_unlink t p l2 : ∀ l1 pv hd,
  l1 ≠ [] →
  dlist t pv hd (l1 ++ p :: l2) →
  NoDup (l1 ++ p :: l2) →
  ∀ q, last l1 = Some q →
  let t1 := upd q (set_next (next (t !!! p))) t in
  let t2 := match head l2 with
            | Some nx => upd nx (set_prev (Some q)) t1
            | None => t1
            end in
  let t4 := upd p (set_prev None) (upd p (set_next None) t2) in
  dlist t4 pv hd (l1 ++ l2).
Proof.
  induction l1 as [|a l1 IH]; intros pv hd Hne Hd Hnd q Hq; [done|]. cbn zeta.
  rewrite <- app_comm_cons in Hd, Hnd |- *.
  destruct Hd as (-> & Hpv & Hl).
  apply NoDup_cons in Hnd as [Ha Hnd].
  assert (a ≠ p) by (intros ->; apply Ha, elem_of_app; right; left).
  assert (∀ n, head l2 = Some n → a ≠ n) as Han.
  { intros n Hn ->. apply Ha, elem_of_app. right. right.
    destruct l2; [done|]. injection Hn as ->. left. }
  pose proof (dlist_links _ _ _ _ _ _ Hl) as [Hpp Hpn].
  destruct (decide (l1 = [])) as [->|Hne'].
  - cbn in Hq. injection Hq as <-. cbn in Hl. destruct Hl as (Hn & _ & Hl).
    apply NoDup_cons in Hnd as [Hp Hnd].
    rewrite Hpn. cbn [app].
    destruct l2 as [|n l2]; cbn [head dlist] in *.
    + split_and!; links.
    + destruct Hl as (_ & _ & Hl).
      apply not_elem_of_cons in Hp as [Hpn' Hp]. apply NoDup_cons in Hnd as [Hn' Hnd].
      specialize (Han n eq_refl).
      split_and!; links.
      eapply dlist_frame; [|exact Hl]. intros x Hx.
      assert (x ≠ p) by (intros ->; done).
      assert (x ≠ a) by (intros ->; apply Ha; right; by right).
      assert (x ≠ n) by (intros ->; done).
      split; links.
  - rewrite last_cons in Hq.
    destruct (last l1) as [q'|] eqn:Hlast; [|by apply last_None in Hlast].
    injection Hq as ->. rename Hlast into Hq.
    specialize (IH (Some a) (next (t !!! a)) Hne' Hl Hnd q eq_refl). cbn zeta in IH.
    assert (a ≠ q).
    { intros ->. apply Ha. apply elem_of_app. left. by apply last_Some_elem_of. }
    cbn [dlist]. split; [done|].
    destruct (head l2) as [n|] eqn:Hh.
    + specialize (Han n eq_refl). split; links.
    + split; links.
Qed.



Lemma descending_insert t l1 p l2 :
  descending t (l1 ++ l2) →
  (∀ x, x ∈ l1 → prio t p ≤ prio t x) →
  (∀ x, x ∈ l2 → prio t x < prio t p) →
  descending t (l1 ++ p :: l2).
Proof.
  rewrite !descending_app. intros (H1 & H2 & H12) Hge Hlt. split_and!; try done.
  - cbn. split; [|done]. intros y Hy. specialize (Hlt y Hy). lia.
  - intros x y Hx Hy. apply elem_of_cons in Hy as [->|Hy]; eauto.
Qed.

Lemma descending_delete t l1 p l2 :
  descending t (l1 ++ p :: l2) → descending t (l1 ++ l2).
Proof.
  rewrite !descending_app. cbn. intros (H1 & (_ & H2) & H12). split_and!; try done.
  intros x y Hx Hy. apply H12; [done | by right].
Qed.

(** [add_to_ready_queue] on a well-formed queue: the process is linked after
    every queued process of its priority or above and before the others. *)
Lemma enqueue_spec (s : kstate) (l : list nat) (p : nat) (fuel : nat) :
  ready_queue_is s l →
  p ∉ l →
  state (deref s p) = PROCESS_READY →
  (length l ≤ fuel)%nat →
  ∃ s' l1 l2,
    add_to_ready_queue fuel (Some p) s = Some s' ∧ l = l1 ++ l2 ∧
    ready_queue_is s' (l1 ++ p :: l2) ∧
    (∀ x, x ∈ l1 → prio (procs s) p ≤ prio (procs s) x) ∧
    (∀ x, x ∈ l2 → prio (procs s) x < prio (procs s) p) ∧
    (∀ x, prio (procs s') x = prio (procs s) x).
Proof.
  intros (Hd & Hnd & Hs) Hp Hst Hf. unfold add_to_ready_queue.
  rewrite decide_True by done. destruct s as [cur rq t]. cbn in *.
  unfold deref, assign, with_procs, with_ready_queue in *. cbn in *.
  destruct l as [|h l].
  - cbn in Hd. subst rq. eexists _, [], [].
    split_and!; try done; try (by intros ? ?%elem_of_nil).
    + split_and!; cbn; [split_and!; links | apply NoDup_singleton | ].
      split; [|done]. by intros ? ?%elem_of_nil.
    + intros x. cbn. links.
  - pose proof Hd as (-> & Hpv & Hl). apply not_elem_of_cons in Hp as [Hph Hp].
    pose proof Hnd as [Hh Hnd']%NoDup_cons.
    case_bool_decide as Hc.
    + assert (∀ x, x ∈ h :: l → prio t x < prio t p) as Hlt.
      { intros x Hx. apply elem_of_cons in Hx as [->|Hx]; [unfold prio; lia|].
        destruct Hs as [Hs _]. specialize (Hs x Hx). unfold prio in *. lia. }
      eexists _, [], (h :: l).
      split_and!; try done; try (by intros ? ?%elem_of_nil).
      * split_and!; cbn [procs ready_queue app].
        -- cbn [dlist]. split_and!; links.
           eapply dlist_frame; [|exact Hl]. intros x Hx.
           assert (x ≠ p) by (intros ->; done).
           assert (x ≠ h) by (intros ->; done).
           split; links.
        -- apply NoDup_cons. split; [|done]. by apply not_elem_of_cons.
        -- eapply descending_frame with (t := t); [intros x _; links|].
           apply (descending_insert t [] p (h :: l)); [done| |done].
           by intros ? ?%elem_of_nil.
      * intros x. cbn. links.
    + destruct (walk_spec t (priority (t !!! p)) l fuel None h) as
        (l1 & curr & l2 & Hw & Hl12 & Hge & Hlt); try done.
      { unfold prio. lia. }
      rewrite Hw. rewrite Hl12 in *.
      assert (p ∉ l1 ++ curr :: l2) as Hp' by (rewrite <- Hl12; by apply not_elem_of_cons).
      pose proof (dlist_insert_after t p curr l2 l1 None (Some h) Hd Hnd Hp') as Hins.
      cbn zeta in Hins.
      assert (NoDup (l1 ++ curr :: p :: l2)) as Hnd2.
      { apply NoDup_app in Hnd as (Hn1 & Hn12 & Hn2).
        apply NoDup_cons in Hn2 as [Hc2 Hn2].
        apply NoDup_app. split_and!; [done| |].
        - intros x Hx Hx'.
          apply elem_of_cons in Hx' as [->|Hx']; [by apply (Hn12 curr Hx); left|].
          apply elem_of_cons in Hx' as [->|Hx'].
          + apply Hp'. apply elem_of_app. by left.
          + apply (Hn12 x Hx). by right.
        - apply NoDup_cons. split.
          + intros [->|Hx]%elem_of_cons; [|done].
            apply Hp'. apply elem_of_app. right. left.
          + apply NoDup_cons. split; [|done].
            intros Hp2. apply Hp'. apply elem_of_app. right. by right. }
      assert (descending t (l1 ++ curr :: p :: l2)) as Hs2.
      { change (l1 ++ curr :: p :: l2) with (l1 ++ [curr] ++ p :: l2).
        rewrite app_assoc.
        apply descending_insert; [by rewrite <- app_assoc | done | done]. }
      destruct (next (upd p (set_next (next (t !!! curr))) t !!! curr)) as [n|];
        eexists _, (l1 ++ [curr]), l2; rewrite <- !app_assoc; cbn [app];
        (split_and!; [reflexivity | done | | done | done | intros x; cbn; links]);
        (split_and!; cbn [procs ready_queue]; [exact Hins | done |]);
        (eapply descending_frame with (t := t); [intros x _; links | done]).
Qed.


(** [remove_from_ready_queue] on a well-formed queue takes the process out
    and leaves the others in their order. *)
Lemma dequeue_spec (s : kstate) (l1 l2 : list nat) (p : nat) :
  ready_queue_is s (l1 ++ p :: l2) →
  let s' := remove_from_ready_queue (Some p) s in
  ready_queue_is s' (l1 ++ l2) ∧
  next (deref s' p) = None ∧ prev (deref s' p) = None ∧
  (∀ x, prio (procs s') x = prio (procs s) x).
Proof.
  intros (Hd & Hnd & Hs). cbn zeta. unfold remove_from_ready_queue, ready_queue_is.
  destruct s as [cur rq t]. unfold deref, assign, with_procs, with_ready_queue. cbn in *.
  pose proof (dlist_links _ _ _ _ _ _ Hd) as [Hpp Hpn].
  assert (NoDup (l1 ++ l2)) as Hnd2.
  { apply NoDup_app in Hnd as (Hn1 & Hn12 & Hn2).
    apply NoDup_cons in Hn2 as [Hc2 Hn2]. apply NoDup_app. split_and!; try done.
    intros x Hx Hx'. apply (Hn12 x Hx). by right. }
  pose proof (descending_delete _ _ _ _ Hs) as Hs2.
  destruct (decide (l1 = [])) as [->|Hne].
  - cbn in Hpp. rewrite Hpp. cbn [procs]. rewrite Hpn. cbn in Hd.
    destruct Hd as (-> & _ & Hl). cbn [app] in *.
    apply NoDup_cons in Hnd as [Hp Hnd].
    destruct l2 as [|n l2]; cbn [head].
    + split_and!; cbn; links. intros x. links.
    + cbn in Hl. destruct Hl as (_ & _ & Hl).
      apply not_elem_of_cons in Hp as [Hpn' Hp]. apply NoDup_cons in Hnd as [Hn Hnd].
      split_and!; cbn [procs ready_queue]; links.
      * cbn [dlist]. split_and!; links.
        eapply dlist_frame; [|exact Hl]. intros x Hx.
        assert (x ≠ p) by (intros ->; done).
        assert (x ≠ n) by (intros ->; done).
        split; links.
      * eapply descending_frame with (t := t); [intros x _; links | done].
      * intros x. links.
  - destruct (last l1) as [q|] eqn:Hq; [|by apply last_None in Hq].
    cbn in Hpp. rewrite Hpp. cbn [procs].
    assert (q ≠ p) as Hqp.
    { intros ->. apply NoDup_app in Hnd as (_ & Hn12 & _).
      apply (Hn12 p); [by apply last_Some_elem_of | left]. }
    pose proof (dlist_unlink t p l2 l1 None rq Hne Hd Hnd q Hq) as Hun. cbn zeta in Hun.
    assert (next (upd q (set_next (next (t !!! p))) t !!! p) = head l2) as -> by links.
    assert (prev (upd q (set_next (next (t !!! p))) t !!! p) = Some q) as Hpq by links.
    destruct (head l2) as [n|]; cbn [procs]; rewrite ?Hpq.
    + split_and!; cbn [procs ready_queue]; links.
      * eapply descending_frame with (t := t); [intros x _; links | done].
      * intros x. links.
    + split_and!; cbn [procs ready_queue]; links.
      * eapply descending_frame with (t := t); [intros x _; links | done].
      * intros x. links.
Qed.

(** C5, for the ready queue of process.c.  Let the queue be a well-formed
    doubly linked list [l] in descending priority order.  Enqueuing a READY
    process [p] that is not in the queue, with fuel for the walk, returns a
    queue [l1 ++ p :: l2] with [l = l1 ++ l2], again well formed and in
    descending order, where every process of [l1] has a priority at least
    that of [p] and every process of [l2] a smaller one: [p] stands after
    all queued processes of its own priority (FIFO).  Dequeuing a process of
    the queue leaves the others well formed, in their order, hence in
    descending priority order.  No priority changes. *)
Theorem ready_queue_order_preserved (s : kstate) (l : list nat) :
  ready_queue_is s l →
  (∀ p fuel,
     p ∉ l → state (deref s p) = PROCESS_READY → (length l ≤ fuel)%nat →
     ∃ s' l1 l2,
       add_to_ready_queue fuel (Some p) s = Some s' ∧ l = l1 ++ l2 ∧
       ready_queue_is s' (l1 ++ p :: l2) ∧
       (∀ x, x ∈ l1 → prio (procs s) p ≤ prio (procs s) x) ∧
       (∀ x, x ∈ l2 → prio (procs s) x < prio (procs s) p) ∧
       (∀ x, prio (procs s') x = prio (procs s) x)) ∧
  (∀ l1 p l2,
     l = l1 ++ p :: l2 →
     ready_queue_is (remove_from_ready_queue (Some p) s) (l1 ++ l2) ∧
     (∀ x, prio (procs (remove_from_ready_queue (Some p) s)) x = prio (procs s) x)).
Proof.
  intros Hq. split.
  - intros p fuel Hp Hst Hf. by apply enqueue_spec.
  - intros l1 p l2 ->. by destruct (dequeue_spec s l1 l2 p Hq) as (? & _ & _ & ?).
Qed.

Lemma queue_20_10_ok : ready_queue_is Scenario.queue_20_10 [1; 2]%nat.
Proof.
  split_and!.
  - vm_compute. split_and!; reflexivity.
  - apply NoDup_cons. split; [by intros ?%list_elem_of_singleton | apply NoDup_singleton].
  - cbn. split_and!; try done.
    + intros y ->%list_elem_of_singleton. vm_compute. discriminate.
    + by intros y ?%elem_of_nil.
Qed.

Lemma ready_queue_order_witness :
  ready_queue_is Scenario.queue_20_10 [1; 2]%nat ∧
  ready_queue_is (remove_from_ready_queue (Some 1%nat) Scenario.queue_20_10) [2]%nat.
Proof.
  split; [exact queue_20_10_ok|].
  destruct (ready_queue_order_preserved Scenario.queue_20_10 [1; 2]%nat queue_20_10_ok)
    as [_ Hdeq].
  exact (proj1 (Hdeq [] 1%nat [2]%nat eq_refl)).
Defined.

(** Enqueuing PCB 3 (priority 20) puts it behind PCB 1 (priority 20) and
    ahead of PCB 2 (priority 10). *)
Example enqueue_equal_priority :
  queue_of 8 <$> add_to_ready_queue 8 (Some 3%nat) Scenario.queue_20_10
  = Some [1; 3; 2]%nat.
Proof. vm_compute. reflexivity. Qed.

End ReadyQueue.

(** ** memory.c: the kernel heap *)

Section KernelHeap.
Import Mm.

Lemma align8_nonneg size : 0 ≤ align8 size.
Proof.
  unfold align8. apply Z.land_nonneg. left. unfold wrap64. apply Z.mod_pos_bound. lia.
Qed.

(** C2, as the code has it.  With the memory manager initialised and no
    wrap-around of the 64-bit sum, [kmalloc] never reports exhaustion to its
    caller: when the cursor plus the size rounded up to 8 passes the end of
    the 256 MiB window it panics ([kernel_panic] halts the CPU), and
    otherwise it returns the old cursor and advances it by the rounded
    size. *)
Theorem kmalloc_exhaustion_panics (s : mm) (size : Z) :
  initialized s = true →
  0 ≤ kernel_heap_ptr s →
  kernel_heap_ptr s + align8 size < 2 ^ 64 →
  (KERNEL_HEAP_END < kernel_heap_ptr s + align8 size →
     kmalloc size s = Panicked "Kernel heap exhausted") ∧
  (kernel_heap_ptr s + align8 size ≤ KERNEL_HEAP_END →
     ∃ s', kmalloc size s = Returned (HeapAddr (kernel_heap_ptr s), s') ∧
           kernel_heap_ptr s' = kernel_heap_ptr s + align8 size).
Proof.
  intros Hi H0 Hlt. unfold kmalloc. rewrite Hi. cbn [negb].
  pose proof (align8_nonneg size).
  assert (wrap64 (kernel_heap_ptr s + align8 size) = kernel_heap_ptr s + align8 size) as ->.
  { unfold wrap64. apply Z.mod_small. lia. }
  split; intros Hc.
  - by rewrite bool_decide_eq_true_2.
  - rewrite bool_decide_eq_false_2 by lia. eexists. split; [reflexivity|done].
Qed.

(** C2 fails as stated: on a full heap [kmalloc (8)] does not return. *)
Lemma kmalloc_full_heap_panics :
  kmalloc 8 Scenario.heap_full = Panicked "Kernel heap exhausted" ∧
  ∀ r, kmalloc 8 Scenario.heap_full ≠ Returned r.
Proof. split; [reflexivity|]. intros r. vm_compute. discriminate. Qed.

Lemma kmalloc_exhaustion_witness :
  initialized Scenario.heap_full = true ∧
  0 ≤ kernel_heap_ptr Scenario.heap_full ∧
  kernel_heap_ptr Scenario.heap_full + align8 8 < 2 ^ 64 ∧
  KERNEL_HEAP_END < kernel_heap_ptr Scenario.heap_full + align8 8 ∧
  kmalloc 8 Scenario.heap_full = Panicked "Kernel heap exhausted".
Proof.
  split; [reflexivity|]. split; [vm_compute; discriminate|].
  split; [reflexivity|]. split; [reflexivity|].
  apply (kmalloc_exhaustion_panics Scenario.heap_full 8);
    [reflexivity | vm_compute; discriminate | reflexivity | reflexivity].
Defined.

End KernelHeap.

(** ** memory.c: freeing pages *)

Section Buddy.
Import Mm.

(** C4, at test scenario 5 of the specification.  A zone of 2^11 frames
    is one free block of order 11; four frames of order 0 are allocated
    (4096 to 4099) and freed in the order p1, p0, p3, p2.

    [buddy_alloc_pages] pushes the upper halves it splits off without
    writing their order, so the block 4100 on the free list of order 2
    still carries order 0.  The fourth [buddy_free_pages] merges the four
    frames into a block of order 2 at 4096, reads order 0 from its buddy
    4100 and stops: the list of order 2 holds the two buddies 4096 and
    4100 side by side, the lists of order 3 to 10 keep the other halves,
    the list of order 11 is empty, and [free_pages_count] is 2052 for 2048
    free frames.

    The algorithm of the specification, run on the zone the allocations
    left, removes the buddy that is free and on the list of the same order
    at every step and ends with the one block of order 11 the zone started
    from. *)
Theorem buddy_free_pages_leaves_free_buddy_unmerged :
  fst Scenario.alloc4 = [Some 4096; Some 4097; Some 4098; Some 4099] ∧
  map (free_list 64 (snd Scenario.alloc4)) (seq 0 12) =
    [[]; []; [4100]; [4104]; [4112]; [4128]; [4160]; [4224]; [4352]; [4608]; [5120]; []] ∧
  order (pg (snd Scenario.alloc4) 4100) = 0 ∧
  BuddySpec.buddy_of 4096 2 = 4100 ∧
  (∃ s, Scenario.free4 = Some s ∧
        map (free_list 64 s) (seq 0 12) =
          [[]; []; [4096; 4100]; [4104]; [4112]; [4128]; [4160]; [4224]; [4352]; [4608];
           [5120]; []] ∧
        order (pg s 4096) = 2 ∧ order (pg s 4100) = 0 ∧
        free_pages_count (zone s ZONE_NORMAL) = 2052) ∧
  map (BuddySpec.free_lists Scenario.spec_free4) (seq 0 12) =
    [[]; []; []; []; []; []; []; []; []; []; []; [4096]] ∧
  BuddySpec.free_pages_count Scenario.spec_free4 = 2048.
Proof.
  split_and!; try (vm_compute; reflexivity).
  eexists. split_and!; vm_compute; reflexivity.
Qed.

(** Four frames of order 0 are allocated from a zone that is one free block
    of order 11 and freed in the order p1, p0, p3, p2.  The four frames end
    up as one block of order 2 at the head of the free list of order 2,
    ahead of the block 4100 that the splitting had left there. *)
Example four_frames_coalesce :
  fst Scenario.alloc4 = [Some 4096; Some 4097; Some 4098; Some 4099] ∧
  map (free_list 64 (snd Scenario.alloc4)) (seq 0 4) = [[]; []; [4100]; [4104]] ∧
  (λ s, map (free_list 64 s) (seq 0 4)) <$> Scenario.free4
  = Some [[]; []; [4096; 4100]; [4104]] ∧
  (λ s, order (pg s 4096)) <$> Scenario.free4 = Some 2.
Proof. split_and!; vm_compute; reflexivity. Qed.

End Buddy.

(** ** vfs.c: the path check *)

Section PathCheck.
Import Vfs.

Lemma append_cons c (s t : string) : (String c s ++ t)%string = String c (s ++ t)%string.
Proof. reflexivity. Qed.
Lemma append_nil (t : string) : ("" ++ t)%string = t.
Proof. reflexivity. Qed.

Lemma prefix_begins (needle hay : string) :
  String.prefix needle hay = true ↔ begins_with hay needle.
Proof.
  revert hay. induction needle as [|c needle IH]; intros hay; cbn.
  - destruct hay; cbn; (split; [intros _; eexists; reflexivity | done]).
  - destruct hay as [|d hay];
      [split; [done|]; intros [post Hp]; rewrite append_cons in Hp; discriminate|].
    destruct (Ascii.ascii_dec c d) as [->|Hne].
    + cbn. destruct (Ascii.ascii_dec d d); [|done].
      rewrite IH. split; intros [post Hp]; exists post; rewrite append_cons in *; congruence.
    + cbn. destruct (Ascii.ascii_dec c d); [done|].
      split; [done|]. intros [post Hp]. rewrite append_cons in Hp. congruence.
Qed.

Lemma strstr_unfold (hay needle : string) :
  strstr hay needle =
  if String.prefix needle hay then Some hay
  else match hay with
       | EmptyString => None
       | String _ rest => strstr rest needle
       end.
Proof. by destruct hay. Qed.

Lemma strstr_contains (hay needle : string) :
  found (strstr hay needle) = true ↔ contains hay needle.
Proof.
  split.
  - induction hay as [|c hay IH]; rewrite strstr_unfold.
    + destruct (String.prefix needle "") eqn:Hp; [|done]. intros _.
      apply prefix_begins in Hp as [post Hp]. by exists ""%string, post.
    + destruct (String.prefix needle (String c hay)) eqn:Hp.
      * intros _. apply prefix_begins in Hp as [post Hp]. by exists ""%string, post.
      * intros Hf. destruct (IH Hf) as (pre & post & ->). by exists (String c pre), post.
  - intros (pre & post & ->). induction pre as [|c pre IH]; rewrite strstr_unfold.
    + rewrite append_nil.
      assert (String.prefix needle (needle ++ post) = true) as ->
          by (apply prefix_begins; by exists post).
      done.
    + rewrite append_cons.
      destruct (String.prefix needle (String c (pre ++ needle ++ post))); [done|].
      apply IH.
Qed.

Lemma strstr_absent (hay needle : string) :
  found (strstr hay needle) = false → ¬ contains hay needle.
Proof. intros Hf Hc. apply strstr_contains in Hc. congruence. Qed.

Lemma begins_with_contains path needle : begins_with path needle → contains path needle.
Proof. intros [post ->]. by exists ""%string, post. Qed.

(** C3, as the code has it.  For a caller [cp]: [check_path_security]
    denies (returns -1) exactly when the caller's classification is below
    SECRET (2) and the path contains "/classified/", "/secret/" or
    "/pentagon/", or when the operation has the write bit and the path
    contains "/system/" anywhere and the caller's uid is not 0; every other
    request is allowed (returns 0).  In particular a write to a path that
    begins with "/system/" by a caller other than root is denied. *)
Theorem check_path_security_policy (cp : Core.process) (path : string) (operation : Z) :
  (check_path_security (Some cp) path operation = -1 ↔
     (Core.security_level cp < 2 ∧ classified_path path) ∨
     (is_write operation ∧ contains path "/system/" ∧ Core.uid cp ≠ 0)) ∧
  (check_path_security (Some cp) path operation = 0 ∨
   check_path_security (Some cp) path operation = -1) ∧
  (begins_with path "/system/" → is_write operation → Core.uid cp ≠ 0 →
     check_path_security (Some cp) path operation = -1).
Proof.
  assert (check_path_security (Some cp) path operation = -1 ↔
     (Core.security_level cp < 2 ∧ classified_path path) ∨
     (is_write operation ∧ contains path "/system/" ∧ Core.uid cp ≠ 0)) as Hiff.
  { unfold check_path_security, classified_path, is_write.
    rewrite <- !strstr_contains.
    destruct (found (strstr path "/classified/")), (found (strstr path "/secret/")),
      (found (strstr path "/pentagon/")), (found (strstr path "/system/"));
      repeat case_bool_decide; cbn; split; try done; try tauto;
      intros [(? & [?|[?|?]])|(? & ? & ?)]; done. }
  split_and!; [done| |].
  - unfold check_path_security. repeat case_match; auto.
  - intros Hb Hw Hu. apply Hiff. right. split_and!; [done| |done].
    by apply begins_with_contains.
Qed.

(** C3 fails as stated: a path that does not begin with "/system/" and names
    no classified directory is denied to a PENTAGON-cleared user for
    writing, because "/system/" occurs inside it. *)
Lemma system_substring_denied :
  check_path_security (Some Scenario.operator) "/home/system/x" 2 = -1 ∧
  ¬ begins_with "/home/system/x" "/system/" ∧
  ¬ classified_path "/home/system/x".
Proof.
  split_and!; [reflexivity| |].
  - intros Hb. apply prefix_begins in Hb. discriminate.
  - intros [H|[H|H]]; revert H; by apply strstr_absent.
Qed.

End PathCheck.

(** ** syscalls.c *)

Section SyscallProofs.
Import Sys.
Variable world : Type.
Variable fs_get_inode : world → Z → option Z.
Variable fs_create_file : world → Z → Z → Z * world.
Variable fs_read_inode : world → Z → Z → Z → Z → Z * world.
Variable fs_write_inode : world → Z → Z → Z → Z → Z * world.
Variable load_byte : world → Z → Z.

Local Abbreviation sys_read := (Sys.sys_read fs_read_inode).
Local Abbreviation sys_write := (Sys.sys_write fs_write_inode load_byte).
Local Abbreviation sys_open := (Sys.sys_open fs_get_inode fs_create_file).

(** C6, as the code has it.  A read or a write of 0 bytes never returns 0 and
    never changes the state: [sys_read] returns -9 (EBADF) for a descriptor
    out of range or not open and -14 (EFAULT) otherwise; [sys_write] returns
    -9 for a descriptor out of range and -14 otherwise.  The handle's offset
    and the file are as before. *)
Theorem zero_length_io (s : sys world) (fd buf : Z) :
  sys_read fd buf 0 s =
    (if bool_decide (Core.MAX_OPEN_FILES ≤ fd) || bool_decide (inode (slot s fd) = None)
     then -9 else -14, s) ∧
  sys_write fd buf 0 s =
    (if bool_decide (Core.MAX_OPEN_FILES ≤ fd) then -9 else -14, s).
Proof.
  unfold Sys.sys_read, Sys.sys_write. split.
  - destruct (bool_decide (Core.MAX_OPEN_FILES ≤ fd) || _); [done|].
    by rewrite orb_true_r.
  - destruct (bool_decide (Core.MAX_OPEN_FILES ≤ fd)); [done|].
    by rewrite orb_true_r.
Qed.

Lemma find_free_fd_spec (s : sys world) :
  match find_free_fd s with
  | Some fd => (3 ≤ fd < 256)%nat ∧ inode (file_table s !!! fd) = None
  | None => ∀ i, (3 ≤ i < 256)%nat → inode (file_table s !!! i) ≠ None
  end.
Proof.
  unfold find_free_fd. destruct (find _ _) as [fd|] eqn:Hf.
  - apply find_some in Hf as [Hin Hb]. apply bool_decide_eq_true in Hb.
    apply in_seq in Hin. change (Z.to_nat Core.MAX_OPEN_FILES) with 256%nat in Hin.
    split; [lia | done].
  - intros i Hi Hn. eapply find_none in Hf.
    + rewrite bool_decide_eq_true_2 in Hf; done.
    + apply in_seq. change (Z.to_nat Core.MAX_OPEN_FILES) with 256%nat. lia.
Qed.

(** C10, as the code has it.  When [sys_open] succeeds the descriptor is in
    3..MAX_OPEN_FILES-1, was free and is now open; when it fails the file
    table is unchanged.  With a non-null file name and no free slot from 3
    on it fails with -24 (EMFILE) and changes nothing; with a null file name
    it fails with -14 (EFAULT) before the table is looked at. *)
Theorem sys_open_descriptor (s : sys world) (filename flags mode : Z) :
  let r := fst (sys_open filename flags mode s) in
  let s' := snd (sys_open filename flags mode s) in
  (0 ≤ r → 3 ≤ r < Core.MAX_OPEN_FILES ∧
           inode (slot s r) = None ∧ inode (slot s' r) ≠ None) ∧
  (r < 0 → file_table s' = file_table s) ∧
  (filename ≠ 0 →
   (∀ i, (3 ≤ i < 256)%nat → inode (file_table s !!! i) ≠ None) →
   r = -24 ∧ s' = s) ∧
  (filename = 0 → r = -14 ∧ s' = s).
Proof.
  cbn zeta. unfold Sys.sys_open.
  case_bool_decide as Hfn; [cbn; split_and!; try done; lia|].
  pose proof (find_free_fd_spec s) as Hfd.
  destruct (find_free_fd s) as [fd|].
  - destruct Hfd as [Hrange Hfree].
    assert (∀ (found : option Z) (s1 : sys world),
              file_table s1 = file_table s →
              let res := match found with
                         | None => (-2, s1)
                         | Some ino =>
                             (Z.of_nat fd,
                              match current_process (with_file_table
                                 (<[fd := mkFd (Some ino) 0 (wrap32 flags) (wrap32 mode) 1]>
                                    (file_table s1)) s1) with
                              | Some cp => with_current
                                 (Some (Core.set_open_files (<[fd := 1]> (Core.open_files cp)) cp))
                                 (with_file_table
                                    (<[fd := mkFd (Some ino) 0 (wrap32 flags) (wrap32 mode) 1]>
                                       (file_table s1)) s1)
                              | None => with_file_table
                                 (<[fd := mkFd (Some ino) 0 (wrap32 flags) (wrap32 mode) 1]>
                                    (file_table s1)) s1
                              end)
                         end in
              (0 ≤ fst res → 3 ≤ fst res < Core.MAX_OPEN_FILES ∧
                 inode (slot s (fst res)) = None ∧
                 inode (slot (snd res) (fst res)) ≠ None) ∧
              (fst res < 0 → file_table (snd res) = file_table s)) as Hres.
    { intros [ino|] s1 Hft; cbn zeta.
      - cbn [fst snd]. split; [|lia]. intros _. unfold slot. rewrite Nat2Z.id.
        split; [unfold Core.MAX_OPEN_FILES; lia|]. split; [done|].
        destruct (current_process _); cbn; by rewrite lookup_total_insert_eq.
      - cbn [fst snd]. split; [lia | done]. }
    split_and!.
    + destruct (fs_get_inode (env s) 0) as [ino|].
      { apply (Hres (Some ino) s eq_refl). }
      case_bool_decide.
      * destruct (fs_create_file _ _ _) as [r w]. case_bool_decide.
        -- apply (Hres None (with_env w s) eq_refl).
        -- apply (Hres (fs_get_inode (env (with_env w s)) 0) (with_env w s) eq_refl).
      * apply (Hres None s eq_refl).
    + destruct (fs_get_inode (env s) 0) as [ino|].
      { apply (Hres (Some ino) s eq_refl). }
      case_bool_decide.
      * destruct (fs_create_file _ _ _) as [r w]. case_bool_decide.
        -- apply (Hres None (with_env w s) eq_refl).
        -- apply (Hres (fs_get_inode (env (with_env w s)) 0) (with_env w s) eq_refl).
      * apply (Hres None s eq_refl).
    + intros _ Hfull. exfalso. by apply (Hfull fd).
    + done.
  - cbn. split_and!; try done; lia.
Qed.

End SyscallProofs.

Section SyscallRuns.
Import Sys.

(** C6 fails as stated: on the open descriptor 3, and on the standard output,
    a transfer of 0 bytes returns -14, not 0. *)
Lemma zero_length_read_is_efault :
  inode (slot Scenario.one_open 3) = Some 1 ∧
  Scenario.sys_read0 3 4096 0 Scenario.one_open = (-14, Scenario.one_open) ∧
  Scenario.sys_write0 3 4096 0 Scenario.one_open = (-14, Scenario.one_open) ∧
  Scenario.sys_write0 1 4096 0 Scenario.one_open = (-14, Scenario.one_open).
Proof. split_and!; reflexivity. Qed.

(** C10 fails as stated: with every slot from 3 on in use, a call with a null
    file name fails with -14 (EFAULT), not with -24 (EMFILE). *)
Lemma null_filename_on_full_table :
  (∀ i, (3 ≤ i < 256)%nat → inode (file_table Scenario.all_open !!! i) ≠ None) ∧
  Scenario.sys_open0 0 0 0 Scenario.all_open = (-14, Scenario.all_open) ∧
  Scenario.sys_open0 4096 0 0 Scenario.all_open = (-24, Scenario.all_open).
Proof.
  split; [|split; reflexivity].
  intros i Hi.
  assert (i ∈ seq 3 253) as Hin by (apply elem_of_seq; lia).
  clear Hi. revert i Hin. apply Forall_forall. vm_compute.
  repeat constructor; discriminate.
Qed.

End SyscallRuns.

(** ** crypto.c: key derivation *)

Section KeyDerivation.
Import Crypto.

Lemma wrap8_byte x : is_byte (wrap8 x).
Proof. unfold is_byte, wrap8. apply Z.mod_pos_bound. lia. Qed.

Lemma length_mix_password pw : ∀ i hash, length (mix_password pw i hash) = length hash.
Proof.
  induction pw as [|c pw IH]; intros i hash; cbn; [done|].
  by rewrite IH, length_insert.
Qed.

(** A pass that stores into every index of [idxs] leaves a byte there. *)
Lemma fold_insert_bytes (f : list Z → nat → Z) (idxs : list nat) :
  (∀ h i, is_byte (f h i)) →
  ∀ (visited : list nat) (h : list Z),
    (∀ j, j ∈ visited → (j < length h)%nat → is_byte (nth j h 0)) →
    length (fold_left (λ h i, <[i := f h i]> h) idxs h) = length h ∧
    ∀ j, j ∈ visited ++ idxs → (j < length h)%nat →
         is_byte (nth j (fold_left (λ h i, <[i := f h i]> h) idxs h) 0).
Proof.
  intros Hf. induction idxs as [|i idxs IH]; intros visited h Hv.
  - cbn [fold_left]. split; [done|]. intros j Hj. rewrite app_nil_r in Hj. by apply Hv.
  - cbn [fold_left].
    destruct (IH (visited ++ [i]) (<[i := f h i]> h)) as [Hlen Hb].
    + intros j Hj Hlt. rewrite length_insert in Hlt.
      destruct (decide (j = i)) as [->|Hne].
      * rewrite nth_lookup, list_lookup_insert_eq by done. apply Hf.
      * rewrite nth_lookup, list_lookup_insert_ne by done. rewrite <- nth_lookup.
        apply Hv; [|done]. apply elem_of_app in Hj as [Hj|Hj]; [done|].
        apply list_elem_of_singleton in Hj. done.
    + rewrite length_insert in Hlen, Hb. split; [done|].
      intros j Hj. apply Hb. by rewrite <- app_assoc.
Qed.

Lemma mix_round_bytes round hash :
  length hash = 32%nat →
  length (mix_round round hash) = 32%nat ∧ Forall is_byte (mix_round round hash).
Proof.
  intros Hlen. unfold mix_round.
  generalize (seq 0 32) (elem_of_seq 0 32). intros idxs Hidx.
  destruct (fold_insert_bytes
              (λ h i, wrap8 (Z.lxor (Z.lxor (nth i h 0) (nth ((i + 1) mod 32) h 0))
                                    (Z.land round 0xFF)))
              idxs (λ _ _, wrap8_byte _) [] hash) as [Hl Hb].
  { intros j Hj. by apply elem_of_nil in Hj. }
  split; [by rewrite Hl|].
  apply Forall_forall. intros b Hin. apply list_elem_of_lookup in Hin as [j Hj].
  pose proof (lookup_lt_Some _ _ _ Hj) as Hlt. rewrite Hl, Hlen in Hlt.
  specialize (Hb j). rewrite nth_lookup, Hj in Hb. apply Hb.
  - cbn [app]. apply Hidx. lia.
  - lia.
Qed.

Lemma mix_rounds_S n round hash :
  mix_rounds (S n) round hash = mix_rounds n (round + 1) (mix_round round hash).
Proof. lazy beta iota delta [mix_rounds]; fold mix_rounds. exact eq_refl. Qed.

Lemma mix_rounds_bytes n : ∀ round hash,
  (0 < n)%nat → length hash = 32%nat →
  length (mix_rounds n round hash) = 32%nat ∧ Forall is_byte (mix_rounds n round hash).
Proof.
  induction n as [|n IH]; intros round hash Hn Hlen.
  - by apply Nat.lt_irrefl in Hn.
  - rewrite mix_rounds_S.
    destruct (mix_round_bytes round hash Hlen) as [Hl Hb].
    revert Hl Hb. generalize (mix_round round hash). intros mixed Hl Hb.
    destruct n as [|n].
    + exact (conj Hl Hb).
    + apply IH; [apply Nat.lt_0_succ | exact Hl].
Qed.

(** C9.  [derive_key_from_password] depends on nothing but the password (the
    characters before the first NUL at the pointer) and the first 16 bytes at
    the salt pointer: two runs on buffers that agree there succeed and store
    the same key, which is 32 bytes long. *)
Theorem derive_key_depends_on_inputs_only (pw1 pw2 salt1 salt2 : list Z) :
  take (strlen pw1) pw1 = take (strlen pw2) pw2 →
  take 16 salt1 = take 16 salt2 →
  (16 ≤ length salt1)%nat →
  ∃ key,
    derive_key_from_password (Some pw1) (Some salt1) = (0, Some key) ∧
    derive_key_from_password (Some pw2) (Some salt2) = (0, Some key) ∧
    length key = AES_KEY_SIZE ∧ Forall is_byte key.
Proof.
  intros Hpw Hsalt Hlen. unfold derive_key_from_password.
  rewrite <- Hpw, <- Hsalt.
  assert (length (mix_password (take (strlen pw1) pw1) 0 (take 16 salt1 ++ replicate 16 0))
          = 32%nat) as Hh.
  { rewrite length_mix_password, length_app, length_take, length_replicate. lia. }
  revert Hh.
  generalize (mix_password (take (strlen pw1) pw1) 0 (take 16 salt1 ++ replicate 16 0)).
  intros hash Hh.
  destruct (mix_rounds_bytes 1000 0 hash (Nat.lt_0_succ _) Hh) as [Hl Hb].
  revert Hl Hb. generalize (mix_rounds 1000 0 hash). intros key Hl Hb.
  exists key. split_and!; [reflexivity | reflexivity | exact Hl | exact Hb].
Qed.

Lemma derive_key_witness :
  take (strlen [112; 119; 0; 33]) [112; 119; 0; 33] = take (strlen [112; 119; 0]) [112; 119; 0] ∧
  take 16 (replicate 16 7 ++ [1]) = take 16 (replicate 16 7) ∧
  (16 ≤ length (replicate 16 7 ++ [1]))%nat ∧
  ∃ key,
    derive_key_from_password (Some [112; 119; 0; 33]) (Some (replicate 16 7 ++ [1])) = (0, Some key) ∧
    derive_key_from_password (Some [112; 119; 0]) (Some (replicate 16 7)) = (0, Some key) ∧
    length key = AES_KEY_SIZE ∧ Forall is_byte key.
Proof.
  split; [reflexivity|]. split; [reflexivity|]. split; [cbn; lia|].
  apply (derive_key_depends_on_inputs_only [112; 119; 0; 33] [112; 119; 0]
           (replicate 16 7 ++ [1]) (replicate 16 7)); [reflexivity | reflexivity | cbn; lia].
Defined.

End KeyDerivation.

(** ** sentinal_send.c: the container *)

Section Container.
Import Send.

Lemma length_cells n l : length (cells n l) = n.
Proof. unfold cells. rewrite length_take, length_app, length_replicate. lia. Qed.

Lemma length_le_bytes n : ∀ x, length (le_bytes n x) = n.
Proof. induction n as [|n IH]; intros x; cbn; [done|]. by rewrite IH. Qed.

Lemma header_bytes_split h :
  header_bytes h = header_prefix h ++ le_bytes 4 (header_checksum h).
Proof. unfold header_bytes, header_prefix. by rewrite <- !app_assoc. Qed.

Lemma length_header_prefix h : length (header_prefix h) = 60%nat.
Proof.
  unfold header_prefix. rewrite !length_app, !length_cells, !length_le_bytes. reflexivity.
Qed.

Lemma length_header_bytes h : length (header_bytes h) = sizeof_header.
Proof.
  rewrite header_bytes_split, length_app, length_header_prefix, length_le_bytes. reflexivity.
Qed.

Lemma take_header_prefix h body :
  take (sizeof_header - sizeof_header_checksum) (header_bytes h ++ body) = header_prefix h.
Proof.
  rewrite header_bytes_split, <- app_assoc.
  change (sizeof_header - sizeof_header_checksum)%nat with 60%nat.
  rewrite <- (length_header_prefix h) at 1. apply take_app_length.
Qed.

Lemma header_prefix_checksum c h : header_prefix (set_header_checksum c h) = header_prefix h.
Proof. reflexivity. Qed.

(** C8 fails as stated: for a one-byte input the file is 64 + 16 bytes long,
    its bytes 60..63 are the checksum of bytes 0..59 and not that of bytes
    0..55, and no header is 56 bytes long. *)
Lemma header_is_64_bytes :
  encrypt_file Scenario.opts_encrypt Scenario.env_plain = (0, Some Scenario.container) ∧
  length Scenario.container = (64 + 16)%nat ∧
  take 4 (drop 60 Scenario.container) = le_bytes 4 (calculate_checksum (take 60 Scenario.container)) ∧
  take 4 (drop 60 Scenario.container) ≠ le_bytes 4 (calculate_checksum (take 56 Scenario.container)) ∧
  (∀ h, length (header_bytes h) ≠ 56%nat).
Proof.
  split_and!; try (vm_compute; reflexivity).
  - vm_compute. discriminate.
  - intros h. rewrite length_header_bytes. vm_compute. discriminate.
Qed.

(** C7: what the code does in place of the round trip.  Whenever the
    encrypt mode is not selected, and so in every decrypting run, [main]
    exits with status 1 and writes no output file. *)
Theorem decrypt_mode_not_implemented (opts : options) (e : environment) :
  encrypt_mode opts = false → main opts e = (1, None).
Proof.
  intros He. unfold main. rewrite He. cbn.
  destruct (decrypt_mode opts); cbn; [|done].
  destruct (input_file opts), (output_file opts); try done.
  destruct (password opts); [done|]. by destruct (typed_password e).
Qed.

Lemma decrypt_mode_witness :
  encrypt_mode Scenario.opts_decrypt = false ∧ main Scenario.opts_decrypt Scenario.env_container = (1, None).
Proof.
  split; [reflexivity|]. apply (decrypt_mode_not_implemented Scenario.opts_decrypt Scenario.env_container).
  reflexivity.
Defined.

(** The encrypting run writes the container; the decrypting run on that
    container, with the same password, recovers nothing. *)
Lemma roundtrip_stops_at_decrypt :
  main Scenario.opts_encrypt Scenario.env_plain = (0, Some Scenario.container) ∧
  main Scenario.opts_decrypt Scenario.env_container = (1, None).
Proof. split; vm_compute; reflexivity. Qed.

End Container.

(** ** memory.c: the bump allocator, aligned allocation, [mm_init] *)

Section HeapArithmetic.

Lemma wrap64_small x : 0 ≤ x < 2 ^ 64 → wrap64 x = x.
Proof. intros. unfold wrap64. by apply Z.mod_small. Qed.

Lemma wrap64_range x : 0 ≤ wrap64 x < 2 ^ 64.
Proof. unfold wrap64. apply Z.mod_pos_bound. lia. Qed.

(** [y & ~m] on 64-bit values is [y] without the bits of [m]. *)
Lemma land_wrap64_lnot y m :
  0 ≤ y < 2 ^ 64 → Z.land y (wrap64 (Z.lnot m)) = Z.ldiff y m.
Proof.
  intros Hy. unfold wrap64. rewrite <- Z.land_ones by lia.
  apply Z.bits_inj'. intros i Hi.
  rewrite !Z.land_spec, Z.ldiff_spec, Z.lnot_spec by done.
  destruct (Z_lt_ge_dec i 64) as [Hlt|Hge].
  - rewrite Z.ones_spec_low by lia. by rewrite andb_true_r.
  - assert (Z.testbit y i = false) as ->; [|done].
    destruct (decide (y = 0)) as [->|Hne]; [apply Z.bits_0|].
    apply Z.bits_above_log2; [lia|].
    assert (Z.log2 y < 64); [|lia]. apply Z.log2_lt_pow2; lia.
Qed.

(** Clearing the low [k] bits rounds down to a multiple of [2^k]. *)
Lemma ldiff_low_bits y k : 0 ≤ k → Z.ldiff y (2 ^ k - 1) = 2 ^ k * (y / 2 ^ k).
Proof.
  intros Hk. replace (2 ^ k - 1) with (Z.ones k) by (rewrite Z.ones_equiv; lia).
  rewrite Z.ldiff_ones_r by done.
  rewrite Z.shiftl_mul_pow2, Z.shiftr_div_pow2 by done. lia.
Qed.

Lemma align_up_pow2 x k :
  0 ≤ k → 0 ≤ x → x + 2 ^ k ≤ 2 ^ 64 →
  MmInit.align_up x (2 ^ k) = 2 ^ k * ((x + 2 ^ k - 1) / 2 ^ k).
Proof.
  intros Hk Hx Hfit. unfold MmInit.align_up.
  assert (0 < 2 ^ k) by (apply Z.pow_pos_nonneg; lia).
  rewrite (wrap64_small (x + 2 ^ k - 1)) by lia.
  rewrite (wrap64_small (2 ^ k - 1)) by lia.
  rewrite land_wrap64_lnot by lia. by apply ldiff_low_bits.
Qed.

Lemma align_up_bounds x k :
  0 ≤ k → 0 ≤ x → x + 2 ^ k ≤ 2 ^ 64 →
  MmInit.align_up x (2 ^ k) mod 2 ^ k = 0 ∧
  x ≤ MmInit.align_up x (2 ^ k) < x + 2 ^ k.
Proof.
  intros Hk Hx Hfit. rewrite align_up_pow2 by done.
  assert (0 < 2 ^ k) as Hpos by (apply Z.pow_pos_nonneg; lia).
  split.
  - rewrite Z.mul_comm. by apply Z.mod_mul, Z.neq_sym, Z.lt_neq.
  - pose proof (Z.div_mod (x + 2 ^ k - 1) (2 ^ k) ltac:(lia)) as Hdm.
    pose proof (Z.mod_pos_bound (x + 2 ^ k - 1) (2 ^ k) Hpos). lia.
Qed.

Lemma align8_round size :
  0 ≤ size ≤ 2 ^ 64 - 8 → Mm.align8 size = 8 * ((size + 7) / 8).
Proof.
  intros Hs. unfold Mm.align8. rewrite (wrap64_small (size + 7)) by lia.
  rewrite land_wrap64_lnot by lia. by apply (ldiff_low_bits _ 3).
Qed.

Lemma align8_bounds size :
  0 ≤ size ≤ 2 ^ 64 - 8 → size ≤ Mm.align8 size ≤ size + 7 ∧ Mm.align8 size ≤ 2 ^ 64 - 8.
Proof.
  intros Hs. rewrite align8_round by done.
  pose proof (Z.div_mod (size + 7) 8 ltac:(lia)).
  pose proof (Z.mod_pos_bound (size + 7) 8 ltac:(lia)).
  assert ((size + 7) / 8 ≤ 2 ^ 61 - 1); [|lia].
  apply Z.lt_succ_r. apply Z.div_lt_upper_bound; lia.
Qed.

End HeapArithmetic.

Section KernelHeapBlocks.
Import Mm.

(** What [kmalloc] does on the initialised heap when the rounded size
    still fits below [2^64]. *)
Lemma kmalloc_returned size s p s' :
  initialized s = true →
  0 ≤ kernel_heap_ptr s → 0 ≤ size →
  kernel_heap_ptr s + size + 7 < 2 ^ 64 →
  kmalloc size s = Returned (p, s') →
  p = HeapAddr (kernel_heap_ptr s) ∧
  kernel_heap_ptr s' = kernel_heap_ptr s + align8 size ∧
  kernel_heap_ptr s' ≤ KERNEL_HEAP_END ∧
  initialized s' = true.
Proof.
  intros Hi Hp Hs Hfit. unfold kmalloc. rewrite Hi. cbn [negb].
  destruct (align8_bounds size) as [Ha _]; [lia|].
  rewrite (wrap64_small (kernel_heap_ptr s + align8 size)) by lia.
  case_bool_decide as Hfull; [done|]. intros [= <- <-]. cbn. split_and!; try done. lia.
Qed.

(** X1: on the initialised heap two successive allocations, with a
    [kfree] of the first block in between, give blocks inside the heap
    window that do not overlap: nothing that was handed out is handed out
    again. *)
Theorem kmalloc_blocks_do_not_overlap (n1 n2 p1 p2 : Z) (s s1 s2 : mm) :
  initialized s = true →
  KERNEL_HEAP_START ≤ kernel_heap_ptr s ≤ KERNEL_HEAP_END →
  0 ≤ n1 ≤ KERNEL_HEAP_SIZE → 0 ≤ n2 ≤ KERNEL_HEAP_SIZE →
  kmalloc n1 s = Returned (HeapAddr p1, s1) →
  kmalloc n2 (kfree (Some (HeapAddr p1)) s1) = Returned (HeapAddr p2, s2) →
  KERNEL_HEAP_START ≤ p1 ∧ p1 + n1 ≤ p2 ∧ p2 + n2 ≤ KERNEL_HEAP_END.
Proof.
  intros Hi Hp Hn1 Hn2 H1 H2.
  unfold KERNEL_HEAP_END, KERNEL_HEAP_SIZE, KERNEL_HEAP_START in *.
  apply kmalloc_returned in H1 as (Hp1 & Hs1 & Hend1 & Hi1); [|done|lia..].
  injection Hp1 as ->.
  destruct (align8_bounds n1) as [Ha1 _]; [lia|].
  unfold kfree in H2.
  apply kmalloc_returned in H2 as (Hp2 & Hs2 & Hend2 & _);
    [|done| unfold KERNEL_HEAP_END, KERNEL_HEAP_SIZE, KERNEL_HEAP_START in *; lia..].
  injection Hp2 as ->.
  destruct (align8_bounds n2) as [Ha2 _]; [lia|].
  unfold KERNEL_HEAP_END, KERNEL_HEAP_SIZE, KERNEL_HEAP_START in *. lia.
Qed.

Lemma kmalloc_blocks_witness :
  KERNEL_HEAP_START ≤ KERNEL_HEAP_START ∧
  KERNEL_HEAP_START + 100 ≤ KERNEL_HEAP_START + 104 ∧
  KERNEL_HEAP_START + 104 + 50 ≤ KERNEL_HEAP_END.
Proof.
  apply (kmalloc_blocks_do_not_overlap 100 50 KERNEL_HEAP_START (KERNEL_HEAP_START + 104)
           (mkMm [] ∅ 0 0 KERNEL_HEAP_START true 0)
           (mkMm [] ∅ 0 104 (KERNEL_HEAP_START + 104) true 0)
           (mkMm [] ∅ 0 160 (KERNEL_HEAP_START + 160) true 0));
    vm_compute; (reflexivity || (split; discriminate)).
Defined.

(** X2: a request of at least [2^64 - kernel_heap_ptr] bytes, far more
    than the heap holds, does not panic: the sum wraps around, the current
    heap pointer is returned and the heap pointer moves backwards. *)
Theorem kmalloc_oversized_request_wraps (n : Z) (s : mm) :
  initialized s = true →
  KERNEL_HEAP_START ≤ kernel_heap_ptr s ≤ KERNEL_HEAP_END →
  2 ^ 64 - kernel_heap_ptr s ≤ n ≤ 2 ^ 64 - 8 →
  ∃ s', kmalloc n s = Returned (HeapAddr (kernel_heap_ptr s), s') ∧
        kernel_heap_ptr s' = kernel_heap_ptr s + align8 n - 2 ^ 64 ∧
        kernel_heap_ptr s' < kernel_heap_ptr s.
Proof.
  intros Hi Hp Hn. unfold KERNEL_HEAP_END, KERNEL_HEAP_SIZE, KERNEL_HEAP_START in Hp.
  destruct (align8_bounds n) as [Ha Hb]; [lia|].
  assert (wrap64 (kernel_heap_ptr s + align8 n) = kernel_heap_ptr s + align8 n - 2 ^ 64) as Hw.
  { unfold wrap64. symmetry. apply (Z.mod_unique _ _ 1); lia. }
  unfold kmalloc. rewrite Hi. cbn [negb]. rewrite Hw.
  rewrite bool_decide_eq_false_2.
  - eexists. split; [done|]. cbn. lia.
  - unfold KERNEL_HEAP_END, KERNEL_HEAP_SIZE, KERNEL_HEAP_START. lia.
Qed.

Lemma kmalloc_oversized_witness :
  ∃ s', kmalloc (2 ^ 64 - KERNEL_HEAP_START) (mkMm [] ∅ 0 0 KERNEL_HEAP_START true 0)
        = Returned (HeapAddr KERNEL_HEAP_START, s') ∧
        kernel_heap_ptr s' = KERNEL_HEAP_START + align8 (2 ^ 64 - KERNEL_HEAP_START) - 2 ^ 64 ∧
        kernel_heap_ptr s' < KERNEL_HEAP_START.
Proof.
  apply (kmalloc_oversized_request_wraps (2 ^ 64 - KERNEL_HEAP_START)
           (mkMm [] ∅ 0 0 KERNEL_HEAP_START true 0));
    vm_compute; (reflexivity || (split; discriminate)).
Defined.

(** X3: [kmalloc_aligned] with a power of two as alignment returns an
    address (on the initialised heap) or an offset into the early heap
    (before) that is a multiple of the alignment. *)
Theorem kmalloc_aligned_is_aligned (size k : Z) (s s' : mm) (p : kptr) :
  0 ≤ k →
  0 ≤ kernel_heap_ptr s → kernel_heap_ptr s + 2 ^ k ≤ 2 ^ 64 →
  0 ≤ early_heap_offset s → early_heap_offset s + 2 ^ k ≤ 2 ^ 64 →
  MmInit.kmalloc_aligned size (2 ^ k) s = Returned (p, s') →
  match p with
  | HeapAddr a => a mod 2 ^ k = 0 ∧ kernel_heap_ptr s ≤ a < kernel_heap_ptr s + 2 ^ k
  | EarlyHeap o => o mod 2 ^ k = 0 ∧ early_heap_offset s ≤ o < early_heap_offset s + 2 ^ k
  end.
Proof.
  intros Hk Hp Hpfit Ho Hofit. unfold MmInit.kmalloc_aligned.
  destruct (initialized s) eqn:Hi; cbn [negb].
  - unfold kmalloc. cbn [initialized with_heap]. rewrite Hi. cbn [negb kernel_heap_ptr].
    case_bool_decide; [done|]. intros [= <- _]. by apply align_up_bounds.
  - unfold early_kmalloc. cbn [early_heap_offset with_early_offset].
    case_bool_decide; [done|]. intros [= <- _]. by apply align_up_bounds.
Qed.

Lemma kmalloc_aligned_witness :
  4096 mod 2 ^ 12 = 0 ∧ 100 ≤ 4096 < 100 + 2 ^ 12.
Proof.
  apply (kmalloc_aligned_is_aligned 16384 12 (mkMm [] ∅ 0 0 0 false 100)
           (mkMm [] ∅ 0 0 0 false (4096 + 16384)) (EarlyHeap 4096));
    vm_compute; (reflexivity || discriminate).
Defined.

(** [init_memory_zones] writes zone descriptors only. *)
Lemma init_memory_zones_scalars (s : mm) :
  early_heap_offset (MmInit.init_memory_zones s) = early_heap_offset s ∧
  total_memory (MmInit.init_memory_zones s) = total_memory s.
Proof.
  unfold MmInit.init_memory_zones.
  set (s0 := assign_zone ZONE_HIGHMEM _ _).
  change (early_heap_offset s) with (early_heap_offset s0).
  change (total_memory s) with (total_memory s0).
  generalize s0 (seq 0 3). clear s0. intros s0 zs. revert s0.
  induction zs as [|z zs IH]; intros s0; cbn [fold_left]; [done|].
  destruct (IH (fold_left (λ s k, set_free_head z k None s) (seq 0 12) s0)) as [-> ->].
  generalize (seq 0 12). intros ks. revert s0.
  induction ks as [|k ks IHk]; intros s0; cbn [fold_left]; [done|].
  by destruct (IHk (set_free_head z k None s0)) as [-> ->].
Qed.

Lemma panic_propagates {A B : Type} (o : outcome A) (k : A → outcome B) (msg : string) :
  o = Panicked msg →
  match o with Panicked m => Panicked m | Returned a => k a end = Panicked msg.
Proof. by intros ->. Qed.

Lemma with_heap_scalars a b (s : mm) :
  early_heap_offset (with_heap a b s) = early_heap_offset s ∧
  total_memory (with_heap a b s) = total_memory s.
Proof. done. Qed.

Lemma with_total_memory_scalars n (s : mm) :
  early_heap_offset (MmInit.with_total_memory n s) = early_heap_offset s ∧
  total_memory (MmInit.with_total_memory n s) = n.
Proof. done. Qed.

(** X4: [mm_init] does not return.  The descriptors of the 131072 frames
    of the assumed 512 MiB take 3 MiB, the early heap that is to hold them
    has 1 MiB, and [early_kmalloc] panics. *)
Theorem mm_init_panics (s : mm) :
  0 ≤ early_heap_offset s < 2 ^ 64 - 3 * 2 ^ 20 →
  MmInit.mm_init s = Panicked "Early heap exhausted".
Proof.
  intros Ho. unfold MmInit.mm_init. cbv zeta.
  apply (panic_propagates (B := mm)).
  unfold early_kmalloc.
  rewrite !(proj1 (with_heap_scalars _ _ _)), !(proj2 (with_heap_scalars _ _ _)).
  rewrite !(proj1 (init_memory_zones_scalars _)), !(proj2 (init_memory_zones_scalars _)).
  rewrite !(proj1 (with_total_memory_scalars _ _)), !(proj2 (with_total_memory_scalars _ _)).
  assert (align8 (wrap64 (Z.shiftr (512 * 1024 * 1024) MmInit.PAGE_SHIFT
                          * MmInit.sizeof_page)) = 3 * 2 ^ 20) as -> by reflexivity.
  rewrite wrap64_small by lia.
  rewrite bool_decide_eq_true_2; [done|]. unfold EARLY_HEAP_SIZE. lia.
Qed.

Lemma mm_init_panics_at_boot :
  MmInit.mm_init MmInit.boot_state = Panicked "Early heap exhausted".
Proof. apply (mm_init_panics MmInit.boot_state). vm_compute. split; [discriminate|reflexivity]. Defined.

End KernelHeapBlocks.

Section BuddyAlloc.
Import Mm MmInit.

(** X5: [buddy_alloc_pages] returns [NULL] exactly when the free lists of
    the requested order and of every larger order are empty, and then it
    has changed nothing. *)
Theorem buddy_alloc_pages_exhausted (z ord : nat) (s : mm) :
  (fst (buddy_alloc_pages z ord s) = None ↔
   ∀ k, (ord ≤ k < 12)%nat → free_head s z k = None) ∧
  (fst (buddy_alloc_pages z ord s) = None → snd (buddy_alloc_pages z ord s) = s).
Proof.
  unfold buddy_alloc_pages.
  assert (∀ n k,
    (fst (alloc_from n z ord k s) = None ↔
     ∀ j, (k ≤ j < k + n)%nat → free_head s z j = None) ∧
    (fst (alloc_from n z ord k s) = None → snd (alloc_from n z ord k s) = s)) as Hloop.
  { induction n as [|n IH]; intros k; cbn [alloc_from].
    - split; [|done]. split; [intros _ j Hj; lia | done].
    - destruct (free_head s z k) as [page|] eqn:Hk.
      + split; [|done]. split; [done|]. intros Hall.
        specialize (Hall k ltac:(lia)). congruence.
      + destruct (IH (S k)) as [Hiff Hsame]. split; [|done].
        rewrite Hiff. split.
        * intros Hall j Hj. destruct (decide (j = k)) as [->|]; [done|]. apply Hall. lia.
        * intros Hall j Hj. apply Hall. lia. }
  destruct (Hloop (12 - ord)%nat ord) as [Hiff Hsame]. split; [|done].
  rewrite Hiff. split; intros Hall k Hk; apply Hall; lia.
Qed.

Lemma free_head_set (s : mm) z k k' v :
  zone_ok s z → (k < 12)%nat →
  free_head (set_free_head z k v s) z k' =
  if decide (k = k') then v else free_head s z k'.
Proof.
  intros [Hz Hl] Hk. unfold free_head, set_free_head, assign_zone, zone. cbn.
  rewrite list_lookup_total_insert_eq by done. cbn.
  case_decide as Hkk.
  - subst. rewrite list_lookup_total_insert_eq; [done|]. unfold zone in Hl. lia.
  - by rewrite list_lookup_total_insert_ne.
Qed.

Lemma zone_ok_set (s : mm) z k v : zone_ok s z → zone_ok (set_free_head z k v s) z.
Proof.
  intros [Hz Hl]. unfold zone_ok, set_free_head, assign_zone, zone in *. cbn.
  rewrite length_insert. split; [done|].
  rewrite list_lookup_total_insert_eq by done. cbn. by rewrite length_insert.
Qed.

Lemma pg_assign (s : mm) q f x :
  pg (assign q f s) x = if decide (q = x) then f (pg s x) else pg s x.
Proof. unfold pg, assign. cbn. apply upd_lookup. Qed.

Lemma shiftl_one (i : nat) : Z.shiftl 1 (Z.of_nat i) = 2 ^ Z.of_nat i.
Proof. rewrite Z.shiftl_mul_pow2 by lia. lia. Qed.

Lemma pow2_inj (i j : nat) : 2 ^ Z.of_nat i = 2 ^ Z.of_nat j → i = j.
Proof. intros Heq. apply Z.pow_inj_r in Heq; lia. Qed.

(** The splitting loop: the upper half of each order from [ord + k - 1]
    down to [ord] is linked in front of the free list of its order; no
    other list head and no other descriptor changes, and of the halves only
    the [next] field is written. *)
Lemma split_block_spec z ord page : ∀ k s,
  zone_ok s z → (ord + k ≤ 12)%nat →
  let s' := split_block k z ord page s in
  zone_ok s' z ∧
  (∀ i, free_head s' z i =
        if bool_decide (ord ≤ i < ord + k)%nat then Some (page + 2 ^ Z.of_nat i)
        else free_head s z i) ∧
  (∀ i, (ord ≤ i < ord + k)%nat →
        pg s' (page + 2 ^ Z.of_nat i) =
        set_next (free_head s z i) (pg s (page + 2 ^ Z.of_nat i))) ∧
  (∀ x, (∀ i, (ord ≤ i < ord + k)%nat → x ≠ page + 2 ^ Z.of_nat i) → pg s' x = pg s x).
Proof.
  induction k as [|k IH]; intros s Hok Hk; cbn [split_block].
  - cbv zeta. split_and!; [done| |intros; lia|done].
    intros i. rewrite bool_decide_eq_false_2; [done|lia].
  - cbv zeta. rewrite shiftl_one.
    set (b := page + 2 ^ Z.of_nat (ord + k)).
    set (s1 := assign b _ s). set (s2 := set_free_head z (ord + k) (Some b) s1).
    assert (zone_ok s2 z) as Hok2 by (by apply zone_ok_set).
    destruct (IH s2 Hok2 ltac:(lia)) as (Hok' & Hheads & Hhalves & Hrest).
    assert (∀ i, free_head s2 z i =
                 if decide ((ord + k)%nat = i) then Some b else free_head s z i) as Hh2.
    { intros i. unfold s2. by rewrite free_head_set by (done || lia). }
    assert (∀ x, pg s2 x =
                 if decide (b = x) then set_next (free_head s z (ord + k)) (pg s x)
                 else pg s x) as Hpg2.
    { intros x. unfold s2, s1. apply pg_assign. }
    split_and!; [done|..].
    + intros i. rewrite Hheads, Hh2. repeat case_bool_decide; repeat case_decide;
        subst; try done; lia.
    + intros i Hi. destruct (decide (i = (ord + k)%nat)) as [->|Hne].
      * rewrite Hrest, Hpg2; [by rewrite decide_True by done|].
        intros j Hj Heq. assert (2 ^ Z.of_nat (ord + k) = 2 ^ Z.of_nat j) as Hp by lia.
        apply pow2_inj in Hp. lia.
      * rewrite Hhalves by lia. rewrite Hh2, Hpg2.
        rewrite decide_False by lia. rewrite decide_False; [done|].
        unfold b. intros Heq. assert (2 ^ Z.of_nat (ord + k) = 2 ^ Z.of_nat i) as Hp by lia.
        apply pow2_inj in Hp. lia.
    + intros x Hx. rewrite Hrest by (intros i Hi; apply Hx; lia).
      rewrite Hpg2. rewrite decide_False; [done|]. intros <-. by apply (Hx (ord + k)%nat); [lia|].
Qed.

(** X6: when the first non-empty free list at or above the requested
    order [ord] is the one of order [j], [buddy_alloc_pages] takes its head
    [p], puts the upper halves [p + 2^i] for [ord <= i < j] in front of the
    lists of their orders and returns [p] with reference count 1 and order
    [ord].  The order field of the halves is not written: they keep the
    tag they had. *)
Theorem buddy_alloc_pages_splits (z ord j : nat) (p : Z) (s : mm) :
  zone_ok s z → (ord ≤ j < 12)%nat →
  (∀ i, (ord ≤ i < j)%nat → free_head s z i = None) →
  free_head s z j = Some p →
  let s' := snd (buddy_alloc_pages z ord s) in
  fst (buddy_alloc_pages z ord s) = Some p ∧
  ref_count (pg s' p) = 1 ∧ order (pg s' p) = Z.of_nat ord ∧
  (∀ i, free_head s' z i =
        if bool_decide (ord ≤ i < j)%nat then Some (p + 2 ^ Z.of_nat i)
        else if decide (i = j) then next (pg s p) else free_head s z i) ∧
  (∀ i, (ord ≤ i < j)%nat →
        next (pg s' (p + 2 ^ Z.of_nat i)) = None ∧
        order (pg s' (p + 2 ^ Z.of_nat i)) = order (pg s (p + 2 ^ Z.of_nat i)) ∧
        ref_count (pg s' (p + 2 ^ Z.of_nat i)) = ref_count (pg s (p + 2 ^ Z.of_nat i))).
Proof.
  intros Hok Hj Hempty Hhead. unfold buddy_alloc_pages.
  assert (∀ n k, (ord ≤ k ≤ j)%nat → (j < k + n)%nat →
            alloc_from n z ord k s = alloc_from (S (j - j)) z ord j s) as Hskip.
  { induction n as [|n IH]; intros k Hk Hn; [lia|].
    destruct (decide (k = j)) as [->|Hne].
    - cbn [alloc_from]. rewrite Nat.sub_diag. cbn [alloc_from]. by rewrite Hhead.
    - cbn [alloc_from]. rewrite Hempty by lia. apply IH; lia. }
  rewrite (Hskip (12 - ord)%nat ord) by lia. rewrite Nat.sub_diag.
  cbn [alloc_from]. rewrite Hhead. cbv zeta.
  set (s1 := set_free_head z j (next (pg s p)) s).
  assert (zone_ok s1 z) as Hok1 by (by apply zone_ok_set).
  destruct (split_block_spec z ord p (j - ord) s1 Hok1 ltac:(lia))
    as (Hok2 & Hheads & Hhalves & Hrest).
  set (s2 := split_block (j - ord) z ord p s1) in *.
  cbn [fst snd].
  assert (∀ x, pg (assign_zone z (λ zn, set_free_pages_count
                 (wrap64 (free_pages_count zn - Z.shiftl 1 (Z.of_nat ord))) zn)
                 (assign p (set_ref_count 1) (assign p (set_order (Z.of_nat ord)) s2))) x =
               if decide (p = x)
               then set_ref_count 1 (set_order (Z.of_nat ord) (pg s2 x)) else pg s2 x) as Hpg.
  { intros x. change (pg (assign_zone ?a ?b ?c) x) with (pg c x).
    rewrite !pg_assign. by case_decide. }
  assert (∀ i, free_head s1 z i =
               if decide (j = i) then next (pg s p) else free_head s z i) as Hh1.
  { intros i. unfold s1. by rewrite free_head_set by (done || lia). }
  assert (∀ i : nat, p ≠ p + 2 ^ Z.of_nat i) as Hpne.
  { intros i. assert (0 < 2 ^ Z.of_nat i) by (apply Z.pow_pos_nonneg; lia). lia. }
  split_and!.
  - done.
  - rewrite Hpg. by rewrite decide_True by done.
  - rewrite Hpg. by rewrite decide_True by done.
  - intros i.
    assert (∀ c, free_head (assign_zone z (λ zn, set_free_pages_count c zn)
                   (assign p (set_ref_count 1) (assign p (set_order (Z.of_nat ord)) s2))) z i
                 = free_head s2 z i) as Hcount.
    { intros c. destruct Hok2 as [Hz Hl]. unfold free_head, assign_zone, zone. cbn.
      by rewrite list_lookup_total_insert_eq by done. }
    etrans; [|etrans; [apply (Hheads i)|]].
    + unfold free_head, assign_zone, zone. cbn. destruct Hok2 as [Hz Hl].
      by rewrite list_lookup_total_insert_eq by done.
    + rewrite Hh1. replace (ord + (j - ord))%nat with j by lia.
      repeat case_bool_decide; repeat case_decide; subst; try done; lia.
  - intros i Hi. rewrite Hpg. rewrite decide_False by apply Hpne.
    rewrite Hhalves by lia. rewrite Hh1. rewrite decide_False by lia.
    rewrite Hempty by done.
    assert (pg s1 (p + 2 ^ Z.of_nat i) = pg s (p + 2 ^ Z.of_nat i)) as -> by done.
    done.
Qed.

Lemma buddy_alloc_pages_splits_witness :
  let s' := snd (buddy_alloc_pages ZONE_NORMAL 9 Scenario.one_block) in
  fst (buddy_alloc_pages ZONE_NORMAL 9 Scenario.one_block) = Some 4096 ∧
  ref_count (pg s' 4096) = 1 ∧ order (pg s' 4096) = Z.of_nat 9 ∧
  (∀ i, free_head s' ZONE_NORMAL i =
        if bool_decide (9 ≤ i < 11)%nat then Some (4096 + 2 ^ Z.of_nat i)
        else if decide (i = 11%nat) then next (pg Scenario.one_block 4096)
             else free_head Scenario.one_block ZONE_NORMAL i) ∧
  (∀ i, (9 ≤ i < 11)%nat →
        next (pg s' (4096 + 2 ^ Z.of_nat i)) = None ∧
        order (pg s' (4096 + 2 ^ Z.of_nat i)) =
          order (pg Scenario.one_block (4096 + 2 ^ Z.of_nat i)) ∧
        ref_count (pg s' (4096 + 2 ^ Z.of_nat i)) =
          ref_count (pg Scenario.one_block (4096 + 2 ^ Z.of_nat i))).
Proof.
  apply (buddy_alloc_pages_splits ZONE_NORMAL 9 11 4096 Scenario.one_block).
  - split; [unfold ZONE_NORMAL; cbn; lia | reflexivity].
  - lia.
  - intros i Hi. assert (i = 9%nat ∨ i = 10%nat) as [-> | ->] by lia; reflexivity.
  - reflexivity.
Defined.

End BuddyAlloc.

(** ** scheduler.c: dispatch without a current process, termination,
       the process table *)

Section SchedulerQueue.
Import Sched.

Lemma deref_assign p f (s : sched) x :
  deref (assign p f s) x = if decide (p = x) then f (deref s x) else deref s x.
Proof. unfold deref, assign. cbn. apply upd_lookup. Qed.

Lemma deref_with_ready_queue q (s : sched) x : deref (with_ready_queue q s) x = deref s x.
Proof. done. Qed.

(** What [remove_from_ready_queue] leaves of a PCB [x]: links may change,
    nothing else does. *)
Lemma remove_keeps_fields n (s : sched) x :
  let p := deref (remove_from_ready_queue n s) x in
  pid p = pid (deref s x) ∧ state p = state (deref s x) ∧
  sec_level p = sec_level (deref s x).
Proof.
  unfold remove_from_ready_queue. cbv zeta.
  rewrite !deref_assign. repeat case_match; repeat case_decide; subst; cbn;
    rewrite ?deref_assign, ?deref_with_ready_queue; repeat case_decide; done.
Qed.

Lemma add_keeps_fields n (s : sched) x :
  let p := deref (add_to_ready_queue n s) x in
  pid p = pid (deref s x) ∧ sec_level p = sec_level (deref s x) ∧
  state p = (if decide (n = x) then PROC_READY else state (deref s x)).
Proof.
  unfold add_to_ready_queue. cbv zeta. cbn [ready_queue assign with_table].
  destruct (ready_queue s) as [h|];
    rewrite ?deref_with_ready_queue, !deref_assign; repeat case_decide; subst; done.
Qed.

(** With no current process [schedule] unlinks the head of the ready queue
    and switches to nothing. *)
Lemma schedule_without_current (s : sched) :
  current_process s = None →
  schedule s =
  if negb (initialized s) then s else
  match ready_queue s with
  | Some nxt => remove_from_ready_queue nxt s
  | None => s
  end.
Proof.
  intros Hc. unfold schedule. rewrite Hc.
  destruct (initialized s); cbn [negb]; [|done].
  destruct (ready_queue s) as [nxt|]; [|done].
  cbv zeta. rewrite current_remove, Hc. cbv beta iota.
  rewrite current_remove, Hc. done.
Qed.

Lemma schedule_keeps_no_current (s : sched) :
  current_process s = None →
  current_process (schedule s) = None ∧
  context_switches (schedule s) = context_switches s ∧
  ∀ x, state (deref (schedule s) x) = state (deref s x).
Proof.
  intros Hc. rewrite schedule_without_current by done.
  destruct (initialized s); cbn [negb]; [|done].
  destruct (ready_queue s) as [nxt|]; [|done].
  rewrite current_remove, switches_remove. split_and!; try done.
  intros x. apply remove_keeps_fields.
Qed.

Lemma iter_schedule_no_current n : ∀ (s : sched),
  current_process s = None →
  current_process (Nat.iter n schedule s) = None ∧
  context_switches (Nat.iter n schedule s) = context_switches s ∧
  ∀ x, state (deref (Nat.iter n schedule s) x) = state (deref s x).
Proof.
  induction n as [|n IH]; intros s Hc; [done|].
  change (Nat.iter (S n) schedule s) with (schedule (Nat.iter n schedule s)).
  destruct (IH s Hc) as (Hc' & Hsw & Hst).
  destruct (schedule_keeps_no_current _ Hc') as (Hc'' & Hsw' & Hst').
  split_and!; [done | by rewrite Hsw', Hsw |]. intros x. by rewrite Hst', Hst.
Qed.

End SchedulerQueue.

Section Termination.
Import Sched SchedTable.

Lemma security_check_write (src dest : process) :
  security_check src dest 1 = bool_decide (sec_level src ≤ sec_level dest).
Proof. unfold security_check. by rewrite decide_False by done. Qed.

(** X7: [terminate_process] applies the write rule of [security_check]:
    the running process can terminate a live process classified at or
    above its own level, whose slot is then marked dead, and it cannot
    terminate one classified below: that attempt only logs a warning. *)
Theorem terminate_process_follows_write_rule (pid : Z) (s : scheduler) (p c : nat) :
  get_process pid s = Some p →
  current_process (core s) = Some c →
  (sec_level (slot s c) ≤ sec_level (slot s p) →
     state (slot (terminate_process pid s) p) = PROC_DEAD) ∧
  (sec_level (slot s p) < sec_level (slot s c) →
     terminate_process pid s = with_core (with_log WarnTerminationBlocked (core s)) s).
Proof.
  intros Hget Hcur. unfold terminate_process. rewrite Hget, Hcur.
  rewrite security_check_write. split; intros Hlev.
  - rewrite bool_decide_eq_true_2 by done. cbn [negb]. cbv zeta.
    set (s1 := if decide (state (slot s p) = PROC_READY) then _ else s).
    set (c2 := assign p (set_state PROC_DEAD) (core s1)).
    assert (state (deref c2 p) = PROC_DEAD) as Hdead.
    { unfold c2. rewrite deref_assign. by rewrite decide_True by done. }
    cbn [core with_core with_total with_event].
    case_decide as Hsame; [|exact Hdead].
    unfold slot. cbn [core with_core].
    destruct (schedule_keeps_no_current (with_current None c2)) as (_ & _ & Hst); [done|].
    rewrite Hst. exact Hdead.
  - rewrite bool_decide_eq_false_2 by lia. done.
Qed.

Lemma terminate_process_dead_current (pid : Z) (s : scheduler) (c : nat) :
  get_process pid s = Some c →
  current_process (core s) = Some c →
  let t := core (terminate_process pid s) in
  current_process t = None ∧
  context_switches t = context_switches (core s) ∧
  state (deref t c) = PROC_DEAD.
Proof.
  intros Hget Hcur. unfold terminate_process. rewrite Hget, Hcur.
  rewrite security_check_write. rewrite bool_decide_eq_true_2 by done.
  cbn [negb]. cbv zeta.
  set (s1 := if decide (state (slot s c) = PROC_READY) then _ else s).
  assert (current_process (core s1) = Some c ∧
          context_switches (core s1) = context_switches (core s)) as [Hc1 Hsw1].
  { unfold s1. case_decide; [|done]. cbn [core with_core].
    by rewrite current_remove, switches_remove. }
  set (c2 := assign c (set_state PROC_DEAD) (core s1)).
  assert (state (deref c2 c) = PROC_DEAD) as Hdead.
  { unfold c2. rewrite deref_assign. by rewrite decide_True by done. }
  cbn [core with_core with_total with_event].
  rewrite decide_True by exact Hc1.
  cbn [core with_core].
  destruct (schedule_keeps_no_current (with_current None c2)) as (Hnone & Hsw & Hst); [done|].
  split_and!; [done | by rewrite Hsw | by rewrite Hst].
Qed.

Lemma terminate_process_write_rule_witness :
  (sec_level (slot Examples.pentagon_running 1) ≤ sec_level (slot Examples.pentagon_running 2) →
     state (slot (terminate_process 5 Examples.pentagon_running) 2) = PROC_DEAD) ∧
  (sec_level (slot Examples.pentagon_running 2) < sec_level (slot Examples.pentagon_running 1) →
     terminate_process 5 Examples.pentagon_running =
     with_core (with_log WarnTerminationBlocked (core Examples.pentagon_running))
               Examples.pentagon_running).
Proof.
  apply (terminate_process_follows_write_rule 5 Examples.pentagon_running 2 1); reflexivity.
Defined.

(** X8: when the running process is terminated, [current_process] is set
    to [NULL] before [schedule] is called, and [context_switch] returns at
    once for a null [from]: no process becomes current, neither then nor in
    any later call of [schedule], and no context switch is counted. *)
Theorem terminating_the_running_process_stops_dispatch
    (pid : Z) (s : scheduler) (c : nat) (n : nat) :
  get_process pid s = Some c →
  current_process (core s) = Some c →
  let after := Nat.iter n schedule (core (terminate_process pid s)) in
  current_process after = None ∧
  context_switches after = context_switches (core s) ∧
  state (deref after c) = PROC_DEAD.
Proof.
  intros Hget Hcur. cbv zeta.
  pose proof (terminate_process_dead_current pid s c Hget Hcur) as (Hnone & Hsw & Hdead).
  destruct (iter_schedule_no_current n _ Hnone) as (Hc & Hsw' & Hst).
  split_and!; [done | by rewrite Hsw', Hsw | by rewrite Hst].
Qed.

Lemma terminating_the_running_process_witness :
  let after := Nat.iter 3 schedule (core (terminate_process 0 Examples.idle_running)) in
  current_process after = None ∧
  context_switches after = context_switches (core Examples.idle_running) ∧
  state (deref after 0) = PROC_DEAD.
Proof.
  apply (terminating_the_running_process_stops_dispatch 0 Examples.idle_running 0 3);
    reflexivity.
Defined.

End Termination.

Section RoundRobin.
Import Sched SchedTable.

Lemma sdlist_frame t t' l : ∀ pv hd,
  (∀ x, x ∈ l → next (t' !!! x) = next (t !!! x) ∧ prev (t' !!! x) = prev (t !!! x)) →
  dlist t pv hd l → dlist t' pv hd l.
Proof.
  induction l as [|x l IH]; intros pv hd Hfr; cbn; [done|].
  intros (-> & Hp & Hl). destruct (Hfr x) as [Hn Hp']; [left|].
  rewrite Hn, Hp'. split_and!; try done. apply IH; [|done].
  intros y Hy. apply Hfr. by right.
Qed.

Lemma sdlist_head t pv hd l : dlist t pv hd l → hd = head l.
Proof. destruct l; cbn; [done|]. by intros (-> & _). Qed.

(** Writing the [prev] field of the first PCB of a segment. *)
Lemma sdlist_set_prev t l pv pv' hd :
  dlist t pv hd l → NoDup l →
  dlist (match hd with Some h => upd h (set_prev pv') t | None => t end) pv' hd l.
Proof.
  destruct l as [|h l]; cbn.
  - by intros ->.
  - intros (-> & Hp & Hl) Hnd. apply NoDup_cons in Hnd as [Hh _].
    rewrite upd_eq. cbn. split_and!; try done.
    eapply sdlist_frame; [|done]. intros x Hx.
    rewrite upd_ne; [done|]. by intros ->.
Qed.

(** Unlinking the head of the ready queue. *)
Lemma remove_head_spec (s : sched) y rest :
  dlist (process_table s) None (ready_queue s) (y :: rest) →
  NoDup (y :: rest) →
  let s1 := remove_from_ready_queue y s in
  dlist (process_table s1) None (ready_queue s1) rest ∧
  initialized s1 = initialized s ∧
  ∀ x, x ≠ y → x ∉ rest → deref s1 x = deref s x.
Proof.
  cbn [dlist]. intros (Hrq & Hpv & Hl) Hnd.
  apply NoDup_cons in Hnd as [Hy Hnd].
  pose proof (sdlist_set_prev _ _ _ None _ Hl Hnd) as Hl'.
  pose proof (sdlist_head _ _ _ _ Hl) as Hhd.
  change (process_table s !!! y) with (deref s y) in *.
  unfold remove_from_ready_queue. rewrite Hpv.
  rewrite deref_with_ready_queue.
  set (s0 := with_ready_queue (next (deref s y)) s).
  set (s2 := match next (deref s y) with
             | Some nx => assign nx (set_prev (prev (deref s y))) s0
             | None => s0
             end).
  assert (process_table s2 =
          match next (deref s y) with
          | Some h => upd h (set_prev None) (process_table s)
          | None => process_table s
          end) as Ht2.
  { unfold s2. destruct (next (deref s y)); [|done].
    rewrite Hpv. done. }
  assert (ready_queue s2 = next (deref s y)) as Hrq2.
  { unfold s2. by destruct (next (deref s y)). }
  assert (initialized s2 = initialized s) as Hi2.
  { unfold s2. by destruct (next (deref s y)). }
  clearbody s2. cbv zeta. cbn [assign with_table process_table ready_queue initialized].
  rewrite Hrq2, Hi2. split_and!; [|done|].
  - apply (sdlist_frame (process_table s2)); [|rewrite Ht2; exact Hl'].
    intros x Hx. rewrite !upd_ne; [done|by intros ->..].
  - intros x Hxy Hx. rewrite !deref_assign. rewrite !decide_False by done.
    unfold deref at 1. rewrite Ht2.
    destruct (next (deref s y)) as [h|] eqn:Hn; [|done].
    rewrite upd_ne; [done|]. intros ->. apply Hx.
    destruct rest; [done|]. cbn in Hhd. injection Hhd as ->. left.
Qed.

Lemma table_assign p f (s : sched) :
  process_table (assign p f s) = upd p f (process_table s).
Proof. done. Qed.

(** Linking a PCB in front of the ready queue. *)
Lemma add_head_spec (s : sched) x l :
  dlist (process_table s) None (ready_queue s) l →
  NoDup (x :: l) →
  let s2 := add_to_ready_queue x s in
  dlist (process_table s2) None (ready_queue s2) (x :: l) ∧
  initialized s2 = initialized s ∧
  ∀ z, z ≠ x → z ∉ l → deref s2 z = deref s z.
Proof.
  intros Hl Hnd. apply NoDup_cons in Hnd as [Hx Hnd].
  pose proof (sdlist_set_prev _ _ _ (Some x) _ Hl Hnd) as Hl'.
  pose proof (sdlist_head _ _ _ _ Hl) as Hhd.
  unfold add_to_ready_queue. cbv zeta. cbn [ready_queue assign with_table].
  set (t3 := upd x (set_prev None) (upd x (set_next (ready_queue s))
               (upd x (set_state PROC_READY) (process_table s)))).
  assert (∀ z, z ≠ x → t3 !!! z = process_table s !!! z) as Hother.
  { intros z Hz. unfold t3. by rewrite !upd_ne. }
  assert (next (t3 !!! x) = ready_queue s ∧ prev (t3 !!! x) = None) as [Hnx Hpx].
  { unfold t3. rewrite !upd_eq. done. }
  destruct (ready_queue s) as [h|] eqn:Hrq.
  - cbn [process_table with_ready_queue ready_queue initialized with_table].
    assert (h ∈ l) as Hh. { destruct l; [done|]. cbn in Hhd. injection Hhd as ->. left. }
    assert (h ≠ x) as Hhx by (by intros ->).
    rewrite !table_assign. fold t3.
    split_and!; [|done|].
    + cbn [dlist]. rewrite upd_ne by done. rewrite Hnx, Hpx. split_and!; try done.
      eapply sdlist_frame; [|exact Hl'].
      intros z Hz. destruct (decide (z = h)) as [->|Hzh].
      * rewrite !upd_eq. rewrite Hother by done. done.
      * rewrite !upd_ne by done. rewrite Hother; [done|]. by intros ->.
    + intros z Hzx Hz. rewrite deref_with_ready_queue, !deref_assign.
      rewrite !decide_False; [done|done..|]. by intros ->.
  - cbn [process_table with_ready_queue ready_queue initialized with_table].
    rewrite !table_assign. fold t3.
    split_and!; [|done|].
    + cbn [dlist]. rewrite Hnx, Hpx. split_and!; try done.
      by destruct l.
    + intros z Hzx Hz. rewrite deref_with_ready_queue, !deref_assign.
      by rewrite !decide_False.
Qed.

Lemma context_switch_spec f t (s : sched) :
  let s' := context_switch (Some f) (Some t) s in
  initialized s' = initialized s ∧ ready_queue s' = ready_queue s ∧
  current_process s' = Some t ∧
  process_table s' =
    upd t (set_state PROC_RUNNING) (upd f (set_state PROC_READY) (process_table s)).
Proof. done. Qed.

(** One call of [schedule] with [x] running and [y] at the head of the
    queue, both of the same classification: [y] runs and [x] is the new
    head; the rest of the queue stays behind it. *)
Lemma schedule_swaps (s : sched) x y rest :
  initialized s = true →
  current_process s = Some x →
  state (deref s x) = PROC_RUNNING →
  dlist (process_table s) None (ready_queue s) (y :: rest) →
  NoDup (x :: y :: rest) →
  sec_level (deref s x) = sec_level (deref s y) →
  initialized (schedule s) = true ∧
  current_process (schedule s) = Some y ∧
  state (deref (schedule s) y) = PROC_RUNNING ∧
  dlist (process_table (schedule s)) None (ready_queue (schedule s)) (x :: rest) ∧
  sec_level (deref (schedule s) y) = sec_level (deref (schedule s) x).
Proof.
  intros Hi Hc Hx Hl Hnd Hsec.
  assert (ready_queue s = Some y) as Hrq by (by destruct Hl).
  apply NoDup_cons in Hnd as [Hxn Hnd].
  assert (x ≠ y) as Hxy by (intros ->; apply Hxn; left).
  assert (x ∉ rest) as Hxr by (intros Hin; apply Hxn; by right).
  assert (y ∉ rest) as Hyr by (by apply NoDup_cons in Hnd as [? _]).
  unfold schedule. rewrite Hi, Hrq, Hc. cbn [negb].
  unfold security_check. rewrite decide_True by done.
  rewrite bool_decide_eq_true_2 by lia. cbn [negb]. cbv zeta.
  destruct (remove_head_spec s y rest Hl Hnd) as (Hl1 & Hi1 & Hsame1).
  set (s1 := remove_from_ready_queue y s) in *.
  assert (current_process s1 = Some x) as Hc1 by (unfold s1; by rewrite current_remove).
  rewrite Hc1. cbv beta iota.
  assert (deref s1 x = deref s x) as Hx1 by (by apply Hsame1).
  rewrite Hx1, Hx. rewrite decide_True by done.
  assert (NoDup (x :: rest)) as Hnd2.
  { apply NoDup_cons. split; [done|]. by apply NoDup_cons in Hnd as [_ ?]. }
  destruct (add_head_spec s1 x rest Hl1 Hnd2) as (Hl2 & Hi2 & Hsame2).
  set (s2 := add_to_ready_queue x s1) in *.
  assert (current_process s2 = Some x) as Hc2 by (unfold s2; by rewrite current_add).
  rewrite Hc2.
  assert (sec_level (deref s2 x) = sec_level (deref s x) ∧
          sec_level (deref s2 y) = sec_level (deref s y)) as [Hsx Hsy].
  { unfold s2, s1. split.
    - destruct (add_keeps_fields x (remove_from_ready_queue y s) x) as (_ & -> & _).
      by destruct (remove_keeps_fields y s x) as (_ & _ & ->).
    - destruct (add_keeps_fields x (remove_from_ready_queue y s) y) as (_ & -> & _).
      by destruct (remove_keeps_fields y s y) as (_ & _ & ->). }
  destruct (context_switch_spec x y s2) as (Hi3 & Hrq3 & Hc3 & Ht3).
  set (s3 := context_switch (Some x) (Some y) s2) in *.
  assert (∀ z, next (deref s3 z) = next (deref s2 z) ∧ prev (deref s3 z) = prev (deref s2 z) ∧
               sec_level (deref s3 z) = sec_level (deref s2 z)) as Hlinks.
  { intros z. unfold deref. rewrite Ht3, !upd_lookup. by repeat case_decide. }
  split_and!.
  - congruence.
  - done.
  - unfold deref. rewrite Ht3. by rewrite upd_eq.
  - rewrite Hrq3. eapply sdlist_frame; [|exact Hl2]. intros z Hz.
    destruct (Hlinks z) as (Hn & Hp & _). done.
  - destruct (Hlinks x) as (_ & _ & ->). destruct (Hlinks y) as (_ & _ & ->). congruence.
Qed.

(** X9: [schedule] takes the head of the ready queue and puts the
    outgoing process in front of it.  With [a] running, [b] at the head
    and both of the same classification, the calls of [schedule] switch
    between [a] and [b]; the processes queued behind them stay where they
    are and none of them is ever dispatched. *)
Theorem schedule_alternates_between_two (s : sched) (a b : nat) (rest : list nat) (n : nat) :
  initialized s = true →
  current_process s = Some a →
  state (deref s a) = PROC_RUNNING →
  dlist (process_table s) None (ready_queue s) (b :: rest) →
  NoDup (a :: b :: rest) →
  sec_level (deref s a) = sec_level (deref s b) →
  let after := Nat.iter n schedule s in
  current_process after = Some (if Nat.even n then a else b) ∧
  dlist (process_table after) None (ready_queue after)
        ((if Nat.even n then b else a) :: rest) ∧
  ∀ r, r ∈ rest → current_process after ≠ Some r.
Proof.
  intros Hi Hc Ha Hl Hnd Hsec. cbv zeta.
  assert (NoDup (b :: a :: rest)) as Hnd'.
  { pose proof Hnd as Hnd0.
    apply NoDup_cons in Hnd0 as [Hab Hnd0]. apply NoDup_cons in Hnd0 as [Hb Hr].
    apply NoDup_cons. split.
    - intros [->|Hin]%elem_of_cons; [apply Hab; left | done].
    - apply NoDup_cons. split; [|done]. intros Hin. apply Hab. by right. }
  assert (initialized (Nat.iter n schedule s) = true ∧
          current_process (Nat.iter n schedule s) = Some (if Nat.even n then a else b) ∧
          state (deref (Nat.iter n schedule s) (if Nat.even n then a else b)) = PROC_RUNNING ∧
          dlist (process_table (Nat.iter n schedule s)) None
                (ready_queue (Nat.iter n schedule s))
                ((if Nat.even n then b else a) :: rest) ∧
          sec_level (deref (Nat.iter n schedule s) a) =
          sec_level (deref (Nat.iter n schedule s) b)) as (_ & Hcur & _ & Hq & _).
  { induction n as [|n IH]; [done|].
    change (Nat.iter (S n) schedule s) with (schedule (Nat.iter n schedule s)).
    destruct IH as (Hi' & Hc' & Hr' & Hl' & Hs').
    rewrite Nat.even_succ, <- Nat.negb_even.
    destruct (Nat.even n); cbn [negb].
    - destruct (schedule_swaps _ a b rest Hi' Hc' Hr' Hl' Hnd Hs') as (?&?&?&?&?).
      split_and!; done.
    - destruct (schedule_swaps _ b a rest Hi' Hc' Hr' Hl' Hnd' (eq_sym Hs')) as (?&?&?&?&?).
      split_and!; done. }
  split_and!; [done..|].
  intros r Hr. rewrite Hcur. intros [= Heq].
  apply NoDup_cons in Hnd as [Hab Hnd]. apply NoDup_cons in Hnd as [Hb _].
  destruct (Nat.even n); subst r; [apply Hab; by right | done].
Qed.

Lemma schedule_alternates_witness :
  let after := Nat.iter 3 schedule Scenario.two_waiting in
  current_process after = Some 2%nat ∧
  dlist (process_table after) None (ready_queue after) [0; 1]%nat ∧
  ∀ r, r ∈ [1%nat] → current_process after ≠ Some r.
Proof.
  apply (schedule_alternates_between_two Scenario.two_waiting 0 2 [1%nat] 3).
  - reflexivity.
  - reflexivity.
  - reflexivity.
  - vm_compute. split_and!; reflexivity.
  - refine (bool_decide_unpack _ _). vm_compute. exact I.
  - reflexivity.
Defined.

End RoundRobin.

Section ProcessTable.
Import Sched SchedTable.

Lemma find_seq_first {f : nat → bool} n : ∀ a p,
  find f (seq a n) = Some p → ∀ i, (a ≤ i < p)%nat → f i = false.
Proof.
  induction n as [|n IH]; intros a p; cbn; [done|].
  destruct (f a) eqn:Hfa.
  - intros [= <-] i Hi. lia.
  - intros Hf i Hi. destruct (decide (i = a)) as [->|Hne]; [done|].
    apply (IH (S a) p Hf). lia.
Qed.

Lemma alloc_process_spec (s : scheduler) :
  match alloc_process s with
  | (Some p, s') =>
      (p < 256)%nat ∧ state (slot s p) = PROC_DEAD ∧
      (∀ i, (i < p)%nat → state (slot s i) ≠ PROC_DEAD) ∧
      s' = with_rest (<[p := zero_rest]> (rest s))
             (with_core (with_table (<[p := zero_process]> (process_table (core s)))
                                    (core s)) s)
  | (None, s') => s' = s ∧ ∀ i, (i < 256)%nat → state (slot s i) ≠ PROC_DEAD
  end.
Proof.
  unfold alloc_process. destruct (find _ _) as [p|] eqn:Hf.
  - pose proof (find_seq_first _ _ _ Hf) as Hfirst.
    apply find_some in Hf as [Hin Hp]. apply in_seq in Hin.
    apply bool_decide_eq_true_1 in Hp. split_and!; [lia|done| |done].
    intros i Hi Hd. specialize (Hfirst i ltac:(lia)). cbv beta in Hfirst.
    by rewrite bool_decide_eq_true_2 in Hfirst by done.
  - split; [done|]. intros i Hi Hd.
    pose proof (find_none _ _ Hf i) as Hn. cbv beta in Hn.
    rewrite bool_decide_eq_true_2 in Hn by done.
    by discriminate Hn; apply in_seq; lia.
Qed.

(** X10: [create_process] returns [NULL] exactly when none of the 256
    slots of the process table is dead, and then it has only logged the
    failure: no pid is used up and no memory is taken. *)
Theorem create_process_fails_iff_table_full
    (sec : Z) (priv : bool) (now : Z) (s : scheduler) :
  ((∃ s', create_process sec priv now s = Returned (None, s')) ↔
   ∀ i, (i < 256)%nat → state (slot s i) ≠ PROC_DEAD) ∧
  (∀ s', create_process sec priv now s = Returned (None, s') →
         s' = with_event ErrFailedToAllocate s).
Proof.
  unfold create_process. pose proof (alloc_process_spec s) as Ha.
  destruct (alloc_process s) as [[p|] s1].
  - destruct Ha as (Hp & Hd & _ & _).
    destruct (MmInit.kmalloc_aligned _ _ _) as [[ptr h]|msg]; cbv zeta.
    + split; [split|]; [intros [s' Hs']; discriminate Hs'
                       | intros Hall; by apply Hall in Hd
                       | intros s' Hs'; discriminate Hs'].
    + split; [split|]; [intros [s' Hs']; discriminate Hs'
                       | intros Hall; by apply Hall in Hd
                       | intros s' Hs'; discriminate Hs'].
  - destruct Ha as [-> Hall]. split.
    + split; [done | by eexists].
    + by intros s' [= <-].
Qed.

(** What a successful [create_process] leaves in the table. *)
Lemma create_process_slots (sec : Z) (priv : bool) (now : Z) (s s' : scheduler) (p : nat) :
  create_process sec priv now s = Returned (Some p, s') →
  (p < 256)%nat ∧ state (slot s p) = PROC_DEAD ∧
  (∀ i, (i < p)%nat → state (slot s i) ≠ PROC_DEAD) ∧
  next_pid s' = wrap64 (next_pid s + 1) ∧
  total_processes s' = wrap64 (total_processes s + 1) ∧
  (∃ c, core s' = add_to_ready_queue p c ∧
        ready_queue c = ready_queue (core s) ∧
        initialized c = initialized (core s) ∧
        current_process c = current_process (core s) ∧
        context_switches c = context_switches (core s) ∧
        ∀ z, z ≠ p → deref c z = deref (core s) z) ∧
  ∀ z, pid (slot s' z) = (if decide (p = z) then next_pid s else pid (slot s z)) ∧
       state (slot s' z) = (if decide (p = z) then PROC_READY else state (slot s z)) ∧
       sec_level (slot s' z) = (if decide (p = z) then sec else sec_level (slot s z)).
Proof.
  unfold create_process. pose proof (alloc_process_spec s) as Ha.
  destruct (alloc_process s) as [[q|] s1]; [|done].
  destruct Ha as (Hq & Hd & Hfirst & ->).
  cbn [next_pid heap with_next_pid with_rest with_core core].
  destruct (MmInit.kmalloc_aligned _ _ _) as [[ptr h]|msg]; [|done].
  cbv zeta. intros [= <- <-].
  cbn [current_process with_table core with_core with_heap with_next_pid with_rest].
  destruct (current_process (core s)) as [cur|] eqn:Hcur;
    cbn [next_pid total_processes with_event with_total with_core with_rest core].
  all: split_and!; [done..| |].
  all: try (eexists; split; [reflexivity|]; split_and!; [done..|];
            intros z Hz; unfold deref; cbn [process_table with_table core with_core];
            by rewrite !lookup_total_insert_ne by done).
  all: intros z; unfold slot; cbn [core with_core with_event with_total with_rest];
    set (c := with_table _ _).
  all: destruct (add_keeps_fields q c z) as (-> & -> & ->);
    unfold c, deref; cbn [process_table with_table];
    split_and!; case_decide as Hz; subst;
      rewrite ?lookup_total_insert_eq, ?lookup_total_insert_ne by done; done.
Qed.

(** X11: among live processes whose pids are distinct and below
    [next_pid], [create_process] gives the new process the pid [next_pid],
    [get_process] of that pid finds the new process, and the pids in the
    table are again distinct and below the new [next_pid]. *)
Theorem create_process_then_get_process
    (sec : Z) (priv : bool) (now : Z) (s s' : scheduler) (p : nat) :
  pids_fresh s → pids_unique s →
  0 ≤ next_pid s < 2 ^ 64 - 1 →
  create_process sec priv now s = Returned (Some p, s') →
  pid (slot s' p) = next_pid s ∧
  state (slot s' p) = PROC_READY ∧
  get_process (next_pid s) s' = Some p ∧
  pids_fresh s' ∧ pids_unique s'.
Proof.
  intros Hfresh Huniq Hnp Hcreate.
  destruct (create_process_slots _ _ _ _ _ _ Hcreate) as (Hp & Hdead & _ & Hnext & _ & _ & Hslots).
  assert (next_pid s' = next_pid s + 1) as Hnext'.
  { rewrite Hnext. unfold wrap64. apply Z.mod_small. lia. }
  assert (pid (slot s' p) = next_pid s ∧ state (slot s' p) = PROC_READY) as [Hpid Hst].
  { destruct (Hslots p) as (-> & -> & _). by rewrite !decide_True by done. }
  assert (∀ i, (i < 256)%nat → state (slot s' i) ≠ PROC_DEAD → i ≠ p →
               0 ≤ pid (slot s' i) < next_pid s) as Hold.
  { intros i Hi Hlive Hne. destruct (Hslots i) as (Hpi & Hsi & _).
    rewrite decide_False in Hpi by done. rewrite decide_False in Hsi by done. rewrite Hpi. apply Hfresh; [done|].
    by rewrite <- Hsi. }
  split_and!; [done..| | |].
  - unfold get_process. destruct (find _ _) as [i|] eqn:Hf.
    + apply find_some in Hf as [Hin Hi]. apply in_seq in Hin.
      apply andb_prop in Hi as [Hipid Hilive].
      apply bool_decide_eq_true_1 in Hipid. apply bool_decide_eq_true_1 in Hilive.
      destruct (decide (i = p)) as [->|Hne]; [done|].
      pose proof (Hold i ltac:(lia) Hilive Hne). lia.
    + pose proof (find_none _ _ Hf p) as Hn. cbv beta in Hn.
      rewrite Hpid, Hst in Hn. rewrite !bool_decide_eq_true_2 in Hn by done.
      by discriminate Hn; apply in_seq; lia.
  - intros i Hi Hlive. rewrite Hnext'. destruct (decide (i = p)) as [->|Hne].
    + rewrite Hpid. lia.
    + pose proof (Hold i Hi Hlive Hne). lia.
  - intros i j Hi Hj Hli Hlj Heq.
    destruct (decide (i = p)) as [->|Hip], (decide (j = p)) as [->|Hjp]; [done|..].
    + pose proof (Hold j Hj Hlj Hjp). lia.
    + pose proof (Hold i Hi Hli Hip). lia.
    + destruct (Hslots i) as (Hpi & Hsi & _), (Hslots j) as (Hpj & Hsj & _).
      rewrite decide_False in Hpi by done. rewrite decide_False in Hsi by done.
      rewrite decide_False in Hpj by done. rewrite decide_False in Hsj by done.
      apply Huniq; [done..| by rewrite <- Hsi | by rewrite <- Hsj | congruence].
Qed.

(** A table built slot by slot. *)
Lemma table_lookup {A : Type} `{Inhabited A} (f : nat → A) (n : nat) : ∀ a i,
  (list_to_map (map (λ i, (i, f i)) (seq a n)) : gmap nat A) !!! i =
  if bool_decide (a ≤ i < a + n)%nat then f i else inhabitant.
Proof.
  induction n as [|n IH]; intros a i; cbn [seq map list_to_map foldr].
  - rewrite lookup_total_empty. by rewrite bool_decide_eq_false_2 by lia.
  - cbn [fst snd]. destruct (decide (a = i)) as [->|Hne].
    + rewrite lookup_total_insert_eq. by rewrite bool_decide_eq_true_2 by lia.
    + rewrite lookup_total_insert_ne by done. rewrite IH.
      by repeat case_bool_decide; try lia.
Qed.

(** What [scheduler_init] leaves when the stack of the init process could
    be allocated. *)
Lemma scheduler_init_spec (now : Z) (s s' : scheduler) :
  scheduler_init now s = Returned s' →
  initialized (core s') = true ∧
  current_process (core s') = Some 0%nat ∧
  context_switches (core s') = 0 ∧
  dlist (process_table (core s')) None (ready_queue (core s')) [1%nat] ∧
  next_pid s' = 2 ∧ total_processes s' = 1 ∧
  slot s' 0 = mkProcess 0 0 PROC_RUNNING SEC_PENTAGON true 0 0 None None ∧
  pid (slot s' 1) = 1 ∧ state (slot s' 1) = PROC_READY ∧
  sec_level (slot s' 1) = SEC_PENTAGON ∧
  ∀ i, (2 ≤ i < 256)%nat → state (slot s' i) = PROC_DEAD.
Proof.
  unfold scheduler_init. cbv zeta.
  set (s0 := create_idle_process _).
  assert (∀ i, slot s0 i =
               if decide (i = 0%nat)
               then mkProcess 0 0 PROC_RUNNING SEC_PENTAGON true 0 0 None None
               else if bool_decide (i < 256)%nat
                    then mkProcess 0 0 PROC_DEAD 0 false 0 0 None None
                    else zero_process) as Hs0.
  { intros i. unfold s0, create_idle_process, slot, deref. cbn.
    case_decide as Hi; [subst; by rewrite lookup_total_insert_eq|].
    rewrite lookup_total_insert_ne by done.
    rewrite (table_lookup (λ _, mkProcess 0 0 PROC_DEAD 0 false 0 0 None None) 256 0 i).
    by repeat case_bool_decide; try lia. }
  destruct (create_process SEC_PENTAGON true now s0) as [[[p|] s1]|msg] eqn:Hcreate;
    [| |done].
  - intros [= <-].
    destruct (create_process_slots _ _ _ _ _ _ Hcreate)
      as (Hp & Hdead & Hfirst & Hnext & Htotal & (c & Hcore & Hrq & Hic & Hcc & Hcsw & Hc) & Hslots).
    assert (p = 1%nat) as ->.
    { destruct (decide (p = 0%nat)) as [->|Hp0].
      - rewrite Hs0 in Hdead. cbn in Hdead. discriminate Hdead.
      - destruct (decide (p = 1%nat)) as [|Hp1]; [done|].
        exfalso. apply (Hfirst 1%nat); [lia|]. by rewrite Hs0. }
    assert (dlist (process_table c) None (ready_queue c) []) as Hempty.
    { cbn. by rewrite Hrq. }
    destruct (add_head_spec c 1%nat [] Hempty) as (Hl & _ & Hsame).
    { apply NoDup_singleton. }
    rewrite <- Hcore in Hl, Hsame.
    cbn [core with_core initialized current_process process_table ready_queue
         next_pid total_processes].
    assert (current_process (core s1) = Some 0%nat) as Hcur.
    { rewrite Hcore, current_add, Hcc. done. }
    change (slot (with_core ?x s1)) with (λ i, deref x i). cbv beta.
    change (deref (mkSched ?a ?b (process_table (core s1)) ?d ?e ?f))
      with (slot s1).
    assert (context_switches (core s1) = 0) as Hsw.
    { rewrite Hcore, switches_add, Hcsw. unfold s0.
      by cbn [context_switches core with_core create_idle_process with_current
              with_table with_rest]. }
    split_and!; [done | done | done | done | done | done | | | | |].
    + change (slot s1 0) with (deref (core s1) 0%nat). rewrite Hsame; [|done|by intros ?%elem_of_nil].
      rewrite Hc by done. apply (Hs0 0%nat).
    + destruct (Hslots 1%nat) as (-> & _ & _). by rewrite decide_True by done.
    + destruct (Hslots 1%nat) as (_ & -> & _). by rewrite decide_True by done.
    + destruct (Hslots 1%nat) as (_ & _ & ->). by rewrite decide_True by done.
    + intros i Hi. destruct (Hslots i) as (_ & -> & _). rewrite decide_False by lia.
      rewrite Hs0. rewrite decide_False by lia. by rewrite bool_decide_eq_true_2 by lia.
  - exfalso. unfold create_process in Hcreate.
    pose proof (alloc_process_spec s0) as Ha.
    destruct (alloc_process s0) as [[q|] s2].
    + destruct (MmInit.kmalloc_aligned _ _ _) as [[ptr h]|]; cbv zeta in Hcreate;
        discriminate Hcreate.
    + destruct Ha as [_ Hall]. apply (Hall 1%nat); [lia|]. by rewrite Hs0.
Qed.

Lemma scheduler_init_pids (now : Z) (s s' : scheduler) :
  scheduler_init now s = Returned s' → pids_fresh s' ∧ pids_unique s'.
Proof.
  intros Hinit.
  destruct (scheduler_init_spec _ _ _ Hinit)
    as (_ & _ & _ & _ & Hnext & _ & Hidle & Hpid1 & _ & _ & Hdead).
  assert (∀ i, (i < 256)%nat → state (slot s' i) ≠ PROC_DEAD → i = 0%nat ∨ i = 1%nat)
    as Hlive.
  { intros i Hi256 Hl'. destruct (decide (i = 0%nat)); [by left|].
    destruct (decide (i = 1%nat)); [by right|]. exfalso. apply Hl'. apply Hdead. lia. }
  split.
  - intros i Hi256 Hl'. rewrite Hnext.
    destruct (Hlive i Hi256 Hl') as [-> | ->]; [rewrite Hidle; cbn; lia | rewrite Hpid1; lia].
  - intros i j Hi256 Hj256 Hli Hlj Heq.
    destruct (Hlive i Hi256 Hli) as [-> | ->], (Hlive j Hj256 Hlj) as [-> | ->];
      [reflexivity | exfalso | exfalso | reflexivity];
      rewrite Hidle, Hpid1 in Heq; cbn in Heq; discriminate Heq.
Qed.

Lemma booted_is_initialised :
  scheduler_init 0 Examples.unbooted = Returned Examples.booted.
Proof. vm_compute. reflexivity. Qed.

Lemma create_process_then_get_process_witness :
  pid (slot Examples.booted_plus_one 2) = next_pid Examples.booted ∧
  state (slot Examples.booted_plus_one 2) = PROC_READY ∧
  get_process (next_pid Examples.booted) Examples.booted_plus_one = Some 2%nat ∧
  pids_fresh Examples.booted_plus_one ∧ pids_unique Examples.booted_plus_one.
Proof.
  apply (create_process_then_get_process SEC_UNCLASSIFIED false 7
           Examples.booted Examples.booted_plus_one 2).
  - exact (proj1 (scheduler_init_pids _ _ _ booted_is_initialised)).
  - exact (proj2 (scheduler_init_pids _ _ _ booted_is_initialised)).
  - vm_compute. split; [discriminate | reflexivity].
  - vm_compute. reflexivity.
Defined.

(** X12: after [scheduler_init] the idle process (pid 0, slot 0) is the
    current process and the init process (pid 1, slot 1, ready) is alone in
    the ready queue, every other slot being dead; the pids in the table are
    distinct and below [next_pid]; the idle process is not counted in
    [total_processes].  The first call of [schedule] then switches to init
    and queues the idle process. *)
Theorem scheduler_init_then_schedule (now : Z) (s s' : scheduler) :
  scheduler_init now s = Returned s' →
  initialized (core s') = true ∧
  current_process (core s') = Some 0%nat ∧
  pid (slot s' 0) = 0 ∧ state (slot s' 0) = PROC_RUNNING ∧
  dlist (process_table (core s')) None (ready_queue (core s')) [1%nat] ∧
  ready_queue (core s') = Some 1%nat ∧
  pid (slot s' 1) = 1 ∧ state (slot s' 1) = PROC_READY ∧
  (∀ i, (2 ≤ i < 256)%nat → state (slot s' i) = PROC_DEAD) ∧
  next_pid s' = 2 ∧ total_processes s' = 1 ∧
  pids_fresh s' ∧ pids_unique s' ∧
  sched_get_stats s' = (1, 0) ∧
  get_process 0 s' = Some 0%nat ∧
  get_process 1 s' = Some 1%nat ∧
  let c := schedule (core s') in
  current_process c = Some 1%nat ∧
  state (deref c 1) = PROC_RUNNING ∧
  dlist (process_table c) None (ready_queue c) [0%nat].
Proof.
  intros Hinit.
  destruct (scheduler_init_spec _ _ _ Hinit)
    as (Hi & Hcur & Hsw & Hl & Hnext & Htotal & Hidle & Hpid1 & Hst1 & Hsec1 & Hdead).
  destruct (scheduler_init_pids _ _ _ Hinit) as [Hfresh Huniq].
  split_and!; [done | done | by rewrite Hidle | by rewrite Hidle | done | |
               done | done | done | done | done | done | done |..].
  - cbn [dlist] in Hl. tauto.
  - unfold sched_get_stats. by rewrite Htotal, Hsw.
  - unfold get_process. cbn [seq find]. by rewrite Hidle.
  - unfold get_process. cbn [seq find]. rewrite Hidle. cbn [state pid].
    rewrite Hst1, Hpid1. reflexivity.
  - cbv zeta.
    destruct (schedule_swaps (core s') 0%nat 1%nat [] Hi Hcur) as (_ & Hc & Hr & Hq & _).
    + change (deref (core s') 0%nat) with (slot s' 0). by rewrite Hidle.
    + exact Hl.
    + apply NoDup_cons. split; [by intros ?%list_elem_of_singleton | apply NoDup_singleton].
    + change (sec_level (slot s' 0) = sec_level (slot s' 1%nat)).
      by rewrite Hidle, Hsec1.
    + exact (conj Hc (conj Hr Hq)).
Qed.

Lemma scheduler_init_then_schedule_witness :
  initialized (core Examples.booted) = true ∧
  current_process (core Examples.booted) = Some 0%nat ∧
  pid (slot Examples.booted 0) = 0 ∧ state (slot Examples.booted 0) = PROC_RUNNING ∧
  dlist (process_table (core Examples.booted)) None (ready_queue (core Examples.booted))
        [1%nat] ∧
  ready_queue (core Examples.booted) = Some 1%nat ∧
  pid (slot Examples.booted 1) = 1 ∧ state (slot Examples.booted 1) = PROC_READY ∧
  (∀ i, (2 ≤ i < 256)%nat → state (slot Examples.booted i) = PROC_DEAD) ∧
  next_pid Examples.booted = 2 ∧ total_processes Examples.booted = 1 ∧
  pids_fresh Examples.booted ∧ pids_unique Examples.booted ∧
  sched_get_stats Examples.booted = (1, 0) ∧
  get_process 0 Examples.booted = Some 0%nat ∧
  get_process 1 Examples.booted = Some 1%nat ∧
  let c := schedule (core Examples.booted) in
  current_process c = Some 1%nat ∧
  state (deref c 1) = PROC_RUNNING ∧
  dlist (process_table c) None (ready_queue c) [0%nat].
Proof.
  apply (scheduler_init_then_schedule 0 Examples.unbooted Examples.booted).
  vm_compute. reflexivity.
Defined.

End ProcessTable.

(** ** crypto.c: comparison, key derivation; sentinal_send.c: checksum *)

Section Bytes.
Import Crypto.

Lemma byte_iff_land x : is_byte x ↔ Z.land x (Z.ones 8) = x.
Proof.
  unfold is_byte. rewrite Z.land_ones by lia. change (2 ^ 8) with 256. split.
  - intros. apply Z.mod_small. lia.
  - intros <-. apply Z.mod_pos_bound. lia.
Qed.

Lemma land_lxor_distr a b c :
  Z.land (Z.lxor a b) c = Z.lxor (Z.land a c) (Z.land b c).
Proof.
  apply Z.bits_inj'. intros i Hi. rewrite !Z.land_spec, !Z.lxor_spec, !Z.land_spec.
  by destruct (Z.testbit a i), (Z.testbit b i), (Z.testbit c i).
Qed.

Lemma lxor_byte x y : is_byte x → is_byte y → is_byte (Z.lxor x y).
Proof.
  rewrite !byte_iff_land. intros Hx Hy. by rewrite land_lxor_distr, Hx, Hy.
Qed.

Lemma lor_byte x y : is_byte x → is_byte y → is_byte (Z.lor x y).
Proof.
  rewrite !byte_iff_land. intros Hx Hy. by rewrite Z.land_lor_distr_l, Hx, Hy.
Qed.

Lemma wrap8_of_byte x : is_byte x → wrap8 x = x.
Proof. unfold is_byte, wrap8. intros. apply Z.mod_small. lia. Qed.

Lemma nth_byte (l : list Z) i : Forall is_byte l → is_byte (nth i l 0).
Proof.
  intros Hl. rewrite nth_lookup. destruct (l !! i) as [x|] eqn:Hx; cbn.
  - by eapply Forall_lookup_1.
  - unfold is_byte. lia.
Qed.

Lemma lookup_nth (l : list Z) i : (i < length l)%nat → l !! i = Some (nth i l 0).
Proof.
  intros Hi. rewrite nth_lookup.
  destruct (lookup_lt_is_Some_2 l i Hi) as [x Hx]. by rewrite Hx.
Qed.

End Bytes.

Section SecureCompare.
Import Crypto CryptoUtil.

Lemma secure_compare_loop (a b : list Z) :
  Forall is_byte a → Forall is_byte b →
  ∀ len s r, is_byte r →
    let out := fold_left (λ result i, wrap8 (Z.lor result (Z.lxor (nth i a 0) (nth i b 0))))
                         (seq s len) r in
    is_byte out ∧
    (out = 0 ↔ r = 0 ∧ ∀ i, (s ≤ i < s + len)%nat → nth i a 0 = nth i b 0).
Proof.
  intros Ha Hb. induction len as [|len IH]; intros s r Hr; cbn [seq fold_left].
  - cbv zeta. split; [done|]. split; [intros ->; split; [done|intros; lia] | by intros [? _]].
  - cbv zeta.
    assert (is_byte (Z.lor r (Z.lxor (nth s a 0) (nth s b 0)))) as Hstep.
    { apply lor_byte; [done|]. apply lxor_byte; by apply nth_byte. }
    rewrite (wrap8_of_byte _ Hstep).
    destruct (IH (S s) _ Hstep) as [Hbyte Hiff]. split; [done|].
    rewrite Hiff, Z.lor_eq_0_iff, Z.lxor_eq_0_iff. split.
    + intros ((Hr0 & Hs) & Hrest). split; [done|]. intros i Hi.
      destruct (decide (i = s)) as [->|]; [done|]. apply Hrest. lia.
    + intros (Hr0 & Hall). split_and!; [done| apply Hall; lia |].
      intros i Hi. apply Hall. lia.
Qed.

(** X13: [secure_compare] returns 0 exactly when the first [len] bytes of
    the two buffers are equal. *)
Theorem secure_compare_zero_iff_equal (a b : list Z) (len : nat) :
  Forall is_byte a → Forall is_byte b →
  (len ≤ length a)%nat → (len ≤ length b)%nat →
  secure_compare a b len = 0 ↔ take len a = take len b.
Proof.
  intros Ha Hb Hla Hlb. unfold secure_compare.
  destruct (secure_compare_loop a b Ha Hb len 0 0) as [_ Hiff]; [unfold is_byte; lia|].
  cbv zeta in Hiff. rewrite Hiff. split.
  - intros [_ Hall]. apply list_eq. intros i.
    destruct (decide (i < len)%nat) as [Hi|Hi].
    + rewrite !lookup_take_lt by done.
      rewrite (lookup_nth a), (lookup_nth b) by lia.
      f_equal. apply Hall. lia.
    + by rewrite !lookup_take_ge by lia.
  - intros Heq. split; [done|]. intros i Hi.
    rewrite !nth_lookup.
    assert (a !! i = b !! i) as ->; [|done].
    rewrite <- (lookup_take_lt a len i), <- (lookup_take_lt b len i) by lia.
    by rewrite Heq.
Qed.

Lemma secure_compare_witness :
  secure_compare [1; 2; 3; 4] [1; 2; 3; 9] 3 = 0 ↔ take 3 [1; 2; 3; 4] = take 3 [1; 2; 3; 9].
Proof.
  apply (secure_compare_zero_iff_equal [1; 2; 3; 4] [1; 2; 3; 9] 3).
  - repeat constructor; unfold is_byte; lia.
  - repeat constructor; unfold is_byte; lia.
  - cbn. lia.
  - cbn. lia.
Defined.

End SecureCompare.

Section KeyDerivationCollisions.
Import Crypto CryptoUtil.

Lemma nth_insert (h : list Z) (m k : nat) (x : Z) :
  (m < length h)%nat → nth k (<[m := x]> h) 0 = if decide (m = k) then x else nth k h 0.
Proof.
  intros Hm. rewrite !nth_lookup. case_decide as Hmk.
  - subst. by rewrite list_lookup_insert_eq.
  - by rewrite list_lookup_insert_ne.
Qed.

(** "Mix password", cell by cell. *)
Lemma mix_password_nth pw : ∀ i h k,
  length h = 32%nat →
  nth k (mix_password pw i h) 0 = mixed_cell pw i (nth k h 0) k.
Proof.
  induction pw as [|c pw IH]; intros i h k Hh; cbn [mix_password mixed_cell]; [done|].
  rewrite IH by (by rewrite length_insert). f_equal.
  rewrite nth_insert by (rewrite Hh; apply Nat.mod_upper_bound; lia).
  destruct (Nat.eqb_spec (i mod 32) k) as [Heq|Hne].
  - rewrite decide_True by done. by rewrite Heq.
  - by rewrite decide_False by done.
Qed.

Lemma mixed_cell_app p : ∀ q i v k,
  mixed_cell (p ++ q) i v k = mixed_cell q (i + length p) (mixed_cell p i v k) k.
Proof.
  induction p as [|c p IH]; intros q i v k; cbn [app mixed_cell length].
  - by rewrite Nat.add_0_r.
  - rewrite IH. f_equal. lia.
Qed.

(** Of at most 32 characters one at most meets the cell [k]. *)
Lemma mixed_cell_block q : ∀ i v k,
  (length q ≤ 32)%nat → (k < 32)%nat →
  mixed_cell q i v k =
  match q !! ((k + 32 - i mod 32) mod 32)%nat with
  | Some c => wrap8 (Z.lxor v c)
  | None => v
  end.
Proof.
  induction q as [|c q IH]; intros i v k Hq Hk; cbn [mixed_cell]; [done|].
  cbn [length] in Hq. rewrite IH by lia.
  destruct (Nat.eqb_spec (i mod 32) k) as [Heq|Hne].
  - assert ((k + 32 - i mod 32) mod 32 = 0 ∧ (k + 32 - S i mod 32) mod 32 = 31)%nat
      as [-> ->] by (zify; Z.to_euclidean_division_equations; lia).
    cbn [lookup list_lookup]. rewrite lookup_ge_None_2; [done|]. lia.
  - assert (∃ d, (k + 32 - i mod 32) mod 32 = S d ∧ (k + 32 - S i mod 32) mod 32 = d)%nat
      as (d & -> & ->); [|done].
    exists ((k + 32 - S i mod 32) mod 32)%nat. split; [|done].
    zify; Z.to_euclidean_division_equations; lia.
Qed.

Lemma mixed_cell_byte pw : ∀ i v k, is_byte v → is_byte (mixed_cell pw i v k).
Proof.
  induction pw as [|c pw IH]; intros i v k Hv; cbn [mixed_cell]; [done|].
  apply IH. destruct (i mod 32 =? k)%nat; [apply wrap8_byte | done].
Qed.

(** A block of 32 characters mixed in twice is mixed out again. *)
Lemma mixed_cell_twice q i v k :
  length q = 32%nat → Forall is_byte q → (k < 32)%nat → is_byte v →
  mixed_cell (q ++ q) i v k = v.
Proof.
  intros Hq Hb Hk Hv. rewrite mixed_cell_app, !mixed_cell_block by lia.
  rewrite Hq. replace ((i + 32) mod 32)%nat with (i mod 32)%nat
    by (zify; Z.to_euclidean_division_equations; lia).
  destruct (q !! ((k + 32 - i mod 32) mod 32)%nat) as [c|] eqn:Hc; [|done].
  assert (is_byte c) as Hcb by (by eapply Forall_lookup_1).
  rewrite (wrap8_of_byte (Z.lxor v c)) by (by apply lxor_byte).
  rewrite Z.lxor_assoc, Z.lxor_nilpotent, Z.lxor_0_r. by apply wrap8_of_byte.
Qed.

Lemma strlen_terminated (p rest : list Z) :
  Forall (λ c, c ≠ 0) p → strlen (p ++ 0 :: rest) = length p.
Proof.
  induction p as [|c p IH]; intros Hp; cbn [app strlen length].
  - by rewrite decide_True by done.
  - apply Forall_cons in Hp as [Hc Hp]. rewrite decide_False by done. by rewrite IH.
Qed.

(** X14: the characters of the password are only XORed into the 32 cells
    of the hash, so a block of 32 characters written twice cancels: the
    password [pw ++ q ++ q] derives the same key as [pw], and a password that
    consists of one doubled block derives the key of the empty password. *)
Theorem derive_key_ignores_doubled_block (pw q salt : list Z) :
  Forall (λ c, 0 < c < 256) pw → Forall (λ c, 0 < c < 256) q →
  length q = 32%nat →
  Forall is_byte salt → (16 ≤ length salt)%nat →
  derive_key_from_password (Some (pw ++ q ++ q ++ [0])) (Some salt) =
  derive_key_from_password (Some (pw ++ [0])) (Some salt).
Proof.
  intros Hpw Hq Hlen Hsalt Hsl. unfold derive_key_from_password.
  assert (Forall (λ c, c ≠ 0) pw ∧ Forall (λ c, c ≠ 0) q ∧ Forall is_byte q)
    as (Hpw0 & Hq0 & Hqb).
  { split_and!; eapply Forall_impl; try done; unfold is_byte; cbv beta; intros; lia. }
  assert (strlen (pw ++ q ++ q ++ [0]) = length (pw ++ q ++ q)) as Hs1.
  { replace (pw ++ q ++ q ++ [0]) with ((pw ++ q ++ q) ++ 0 :: []) by (by rewrite <- !app_assoc).
    apply strlen_terminated. by rewrite !Forall_app. }
  assert (strlen (pw ++ [0]) = length pw) as Hs2 by (by apply strlen_terminated).
  rewrite Hs1, Hs2.
  replace (pw ++ q ++ q ++ [0]) with ((pw ++ q ++ q) ++ [0]) by (by rewrite <- !app_assoc).
  rewrite !take_app_length.
  set (h0 := take 16 salt ++ replicate 16 0).
  assert (length h0 = 32%nat) as Hh0.
  { unfold h0. rewrite length_app, length_take, length_replicate. lia. }
  assert (Forall is_byte h0) as Hhb.
  { unfold h0. apply Forall_app. split; [by apply Forall_take|].
    apply Forall_replicate. unfold is_byte. lia. }
  assert (mix_password (pw ++ q ++ q) 0 h0 = mix_password pw 0 h0) as Heq.
  { apply (nth_ext _ _ 0 0); [by rewrite !length_mix_password|].
    intros k Hk. rewrite length_mix_password, Hh0 in Hk.
    rewrite !mix_password_nth by done.
    rewrite mixed_cell_app. apply mixed_cell_twice; [done..|].
    apply mixed_cell_byte. by apply nth_byte. }
  clearbody h0. revert Heq.
  generalize (mix_password (pw ++ q ++ q) 0 h0) (mix_password pw 0 h0).
  intros h1 h2 ->. reflexivity.
Qed.

Lemma derive_key_doubled_block_witness :
  derive_key_from_password
    (Some ([] ++ replicate 32 97 ++ replicate 32 97 ++ [0])) (Some (replicate 16 5)) =
  derive_key_from_password (Some ([] ++ [0])) (Some (replicate 16 5)).
Proof.
  apply (derive_key_ignores_doubled_block [] (replicate 32 97) (replicate 16 5)).
  - constructor.
  - apply Forall_replicate. lia.
  - reflexivity.
  - apply Forall_replicate. unfold is_byte. lia.
  - cbn. lia.
Defined.

End KeyDerivationCollisions.

Section Checksum.
Import Send.

Lemma wrap32_bits x i : 0 ≤ i →
  Z.testbit (wrap32 x) i = if bool_decide (i < 32) then Z.testbit x i else false.
Proof.
  intros Hi. unfold wrap32. case_bool_decide.
  - by apply Z.mod_pow2_bits_low.
  - apply Z.mod_pow2_bits_high. lia.
Qed.

Lemma wrap32_idem x : wrap32 (wrap32 x) = wrap32 x.
Proof. unfold wrap32. apply Z.mod_mod. lia. Qed.

(** The checksum loop is linear in its start value: the start value only
    adds its own shifted copy. *)
Lemma checksum_loop (data : list Z) : ∀ x,
  fold_left (λ checksum b, wrap32 (Z.lxor (Z.shiftl checksum 1) b)) data (wrap32 x) =
  Z.lxor (fold_left (λ checksum b, wrap32 (Z.lxor (Z.shiftl checksum 1) b)) data 0)
         (wrap32 (Z.shiftl x (Z.of_nat (length data)))).
Proof.
  induction data as [|d data IH]; intros x; cbn [fold_left length].
  - by rewrite Z.shiftl_0_r, Z.lxor_0_l.
  - rewrite (IH (Z.lxor (Z.shiftl (wrap32 x) 1) d)).
    change (Z.shiftl 0 1) with 0.
    rewrite (IH (Z.lxor 0 d)).
    rewrite Z.lxor_assoc. f_equal.
    apply Z.bits_inj'. intros i Hi.
    rewrite Z.lxor_spec, !wrap32_bits by done.
    case_bool_decide as Hi32; [|done].
    rewrite !Z.shiftl_spec by done. rewrite !Z.lxor_spec.
    rewrite Z.bits_0, xorb_false_l, xorb_comm. f_equal.
    replace (i - Z.of_nat (S (length data))) with (i - Z.of_nat (length data) - 1) by lia.
    destruct (Z_lt_ge_dec (i - Z.of_nat (length data)) 0) as [Hneg|Hpos].
    + by rewrite !Z.testbit_neg_r by lia.
    + rewrite Z.shiftl_spec by lia.
      destruct (Z_lt_ge_dec (i - Z.of_nat (length data) - 1) 0) as [Hneg|Hpos'].
      * by rewrite !Z.testbit_neg_r by lia.
      * rewrite wrap32_bits by lia. by rewrite bool_decide_eq_true_2 by lia.
Qed.

Lemma checksum_forgets (a b : list Z) :
  (32 ≤ length b)%nat →
  calculate_checksum (a ++ b) = calculate_checksum b.
Proof.
  intros Hb. unfold calculate_checksum. rewrite fold_left_app.
  set (f := λ checksum b, wrap32 (Z.lxor (Z.shiftl checksum 1) b)).
  assert (fold_left f a 0 = wrap32 (fold_left f a 0)) as ->.
  { destruct a as [|d a] using rev_ind; [done|].
    rewrite fold_left_app. cbn [fold_left]. unfold f at 1 3. by rewrite wrap32_idem. }
  unfold f. rewrite checksum_loop. fold f.
  assert (wrap32 (Z.shiftl (fold_left f a 0) (Z.of_nat (length b))) = 0) as ->.
  { apply Z.bits_inj'. intros i Hi. rewrite wrap32_bits, Z.bits_0 by done.
    case_bool_decide; [|done]. rewrite Z.shiftl_spec by done.
    apply Z.testbit_neg_r. lia. }
  apply Z.lxor_0_r.
Qed.

(** X15: the checksum shifts its 32-bit state left by one bit per byte,
    so a byte is shifted out after 32 more bytes: the checksum of a buffer
    depends on its last 32 bytes only, and a change of any earlier byte
    leaves it as it is. *)
Theorem calculate_checksum_last_32_bytes (a b : list Z) (x y : Z) :
  (32 ≤ length b)%nat →
  calculate_checksum (a ++ b) = calculate_checksum b ∧
  calculate_checksum (a ++ x :: b) = calculate_checksum (a ++ y :: b).
Proof.
  intros Hb. split; [by apply checksum_forgets|].
  rewrite !(cons_middle _ a), !app_assoc. by rewrite !checksum_forgets.
Qed.

Lemma calculate_checksum_witness :
  calculate_checksum ([1; 2; 3] ++ replicate 32 7) = calculate_checksum (replicate 32 7) ∧
  calculate_checksum ([1; 2; 3] ++ 4 :: replicate 32 7) =
  calculate_checksum ([1; 2; 3] ++ 200 :: replicate 32 7).
Proof.
  apply (calculate_checksum_last_32_bytes [1; 2; 3] (replicate 32 7) 4 200). cbn. lia.
Defined.

End Checksum.

Section Encryption.
Import Crypto Send SendUtil.

Lemma length_add_round_key state rk : length (add_round_key state rk) = length state.
Proof. unfold add_round_key. apply length_imap. Qed.

Lemma length_aes_encrypt_block ctx plaintext :
  initialized ctx = true →
  ∃ c, aes_encrypt_block ctx plaintext = Some c ∧ length c = 16%nat.
Proof.
  intros Hi. unfold aes_encrypt_block. rewrite Hi. cbn [negb]. cbv zeta.
  eexists. split; [reflexivity|].
  rewrite length_add_round_key. unfold shift_rows. by rewrite length_map.
Qed.

Lemma length_cbc_blocks ctx n : ∀ prev plaintext,
  initialized ctx = true →
  ∃ out, cbc_blocks n ctx prev plaintext = Some out ∧ length out = (16 * n)%nat.
Proof.
  induction n as [|n IH]; intros prev plaintext Hi; cbn [cbc_blocks].
  - by exists [].
  - cbv zeta.
    destruct (length_aes_encrypt_block ctx (zip_with Z.lxor (take 16 plaintext) prev) Hi)
      as (c & -> & Hc).
    destruct (IH c (drop 16 plaintext) Hi) as (rest & -> & Hrest).
    eexists. split; [reflexivity|]. rewrite length_app. lia.
Qed.

(** Padded to a multiple of 16 bytes, a chunk is encrypted to as many
    bytes. *)
Lemma length_encrypt_chunk ctx chunk :
  initialized ctx = true →
  ∃ c, encrypt_chunk ctx chunk = Some c ∧
       length c = ((length chunk + 15) / 16 * 16)%nat.
Proof.
  intros Hi. unfold encrypt_chunk, aes_encrypt_cbc, AES_BLOCK_SIZE. cbv zeta.
  set (padded := ((length chunk + 16 - 1) / 16 * 16)%nat).
  assert (padded = ((length chunk + 15) / 16 * 16)%nat ∧ (length chunk ≤ padded)%nat)
    as [Hp Hle].
  { unfold padded. replace (length chunk + 16 - 1)%nat with (length chunk + 15)%nat by lia.
    split; [done|]. zify; Z.to_euclidean_division_equations; lia. }
  rewrite length_app, length_replicate.
  replace (length chunk + (padded - length chunk))%nat with padded by lia.
  assert ((padded mod 16 =? 0)%nat = true) as ->.
  { apply Nat.eqb_eq. rewrite Hp. apply Nat.Div0.mod_mul. }
  cbn [negb].
  destruct (length_cbc_blocks ctx (padded / 16)
              (Crypto.iv ctx) (chunk ++ replicate (padded - length chunk)
                                           (wrap8 (Z.of_nat (padded - length chunk)))) Hi)
    as (out & -> & Hout).
  exists out. split; [done|]. rewrite Hout, <- Hp.
  rewrite Hp at 1. rewrite Nat.div_mul by done. lia.
Qed.

Lemma buffer_size_blocks : BUFFER_SIZE = (512 * 16)%nat.
Proof. reflexivity. Qed.

(** The read loop encrypts every chunk and rounds only the last one up. *)
Lemma length_encrypt_chunks ctx : ∀ n data,
  initialized ctx = true → (length data ≤ n)%nat →
  ∃ body, encrypt_chunks n ctx data = (body, true) ∧
          length body = ((length data + 15) / 16 * 16)%nat.
Proof.
  intros n. induction n as [|n IH]; intros data Hi Hn.
  - destruct data; [|cbn in Hn; lia]. by exists [].
  - destruct data as [|d data']; [by exists []|].
    set (data := d :: data') in *. cbn [encrypt_chunks]. fold data.
    destruct (length_encrypt_chunk ctx (take BUFFER_SIZE data) Hi) as (c & -> & Hc).
    destruct (IH (drop BUFFER_SIZE data) Hi) as (rest & -> & Hrest).
    { rewrite length_drop, buffer_size_blocks. unfold data in *. cbn [length] in *. lia. }
    eexists. split; [reflexivity|].
    rewrite length_app, Hc, Hrest, length_take, length_drop, buffer_size_blocks.
    zify; Z.to_euclidean_division_equations; lia.
Qed.



Lemma header_checksum_as_written h :
  calculate_checksum (take (sizeof_header - sizeof_header_checksum) (header_bytes h)) =
  calculate_checksum (header_prefix h).
Proof. by rewrite <- (app_nil_r (header_bytes h)), take_header_prefix. Qed.

(** A run of [encrypt_file] that returns 0, step by step. *)
Lemma encrypt_file_runs (opts : options) (e : environment) (out : list Z) :
  encrypt_file opts e = (0, Some out) ↔
  ∃ data salt iv pw key ctx body,
    can_encrypt opts e data salt iv pw ∧
    derive_key_from_password (Some pw) (Some salt) = (0, Some key) ∧
    aes_init (Some key) (Some iv) = (0, Some ctx) ∧
    encrypt_chunks (length data) ctx data = (body, true) ∧
    out = header_bytes (sealed (plain_header (wrap8 (classification opts)) salt iv
                                             (wrap64 (Z.of_nat (length data))))) ++ body.
Proof.
  unfold encrypt_file, can_encrypt, sealed, plain_header, verify_security_clearance,
    generate_random.
  split.
  - intros Hrun.
    destruct (source_system opts); [|discriminate Hrun].
    destruct (dest_system opts); [|discriminate Hrun].
    case_bool_decide as Hclear; [discriminate Hrun|].
    destruct (input_contents e) as [data|]; [|discriminate Hrun].
    destruct (fstat_ok e); [|discriminate Hrun]. cbn [negb] in Hrun.
    destruct (negb (force_overwrite opts) && output_exists e) eqn:Hover;
      [discriminate Hrun|].
    destruct (urandom_salt e) as [salt|]; [|discriminate Hrun].
    destruct (decide (length salt = SALT_SIZE)) as [Hsalt|]; [|discriminate Hrun].
    destruct (urandom_iv e) as [iv|]; [|discriminate Hrun].
    destruct (decide (length iv = Crypto.AES_BLOCK_SIZE)) as [Hiv|]; [|discriminate Hrun].
    destruct (derive_key_from_password (password opts) (Some salt)) as [r [key|]] eqn:Hkey;
      [|destruct r; discriminate Hrun].
    destruct r; try discriminate Hrun.
    destruct (aes_init (Some key) (Some iv)) as [r [ctx|]] eqn:Hctx;
      [|destruct r; discriminate Hrun].
    destruct r; try discriminate Hrun.
    destruct (encrypt_chunks (length data) ctx data) as [body ok] eqn:Hbody.
    destruct ok; [|discriminate Hrun].
    rewrite header_checksum_as_written in Hrun.
    destruct (password opts) as [pw|]; [|discriminate Hkey].
    exists data, salt, iv, pw, key, ctx, body.
    split_and!; try reflexivity; try assumption.
    + discriminate.
    + discriminate.
    + case_bool_decide; [lia|]. by destruct Hclear.
    + destruct (force_overwrite opts), (output_exists e); cbn in Hover; auto;
        discriminate Hover.
    + injection Hrun as <-. reflexivity.
  - intros (data & salt & iv & pw & key & ctx & body & Hcan & Hkey & Hctx & Hbody & ->).
    destruct Hcan as (Hsrc & Hdst & Hclear & Hin & Hfs & Hover & Hus & Hsalt & Hui & Hiv & Hpw).
    rewrite Hin, Hfs, Hus, Hui, Hpw.
    destruct (source_system opts); [|exfalso; apply Hsrc; reflexivity].
    destruct (dest_system opts); [|exfalso; apply Hdst; reflexivity].
    rewrite (bool_decide_eq_true_2 _ Hclear).
    rewrite bool_decide_eq_false_2 by (intros Hne; apply Hne; reflexivity).
    cbn [negb].
    assert (negb (force_overwrite opts) && output_exists e = false) as ->.
    { destruct Hover as [-> | ->]; [reflexivity | apply andb_false_r]. }
    rewrite (decide_True (P := length salt = SALT_SIZE)) by exact Hsalt.
    rewrite (decide_True (P := length iv = Crypto.AES_BLOCK_SIZE)) by exact Hiv.
    cbv beta iota. rewrite Hkey. cbv beta iota. rewrite Hctx. cbv beta iota.
    rewrite Hbody. cbv beta iota.
    rewrite header_checksum_as_written. reflexivity.
Qed.


Lemma insert_classification (c c' : Z) (salt iv : list Z) (size cks hcks : Z) :
  header_bytes (mkHeader SENTINAL [1; 0; 0; 0] c' 1 0 salt iv size cks hcks) =
  <[12%nat := c' mod 256]>
    (header_bytes (mkHeader SENTINAL [1; 0; 0; 0] c 1 0 salt iv size cks hcks)).
Proof. reflexivity. Qed.

(** The header checksum is the checksum of the header's last 32 covered
    bytes. *)
Lemma header_checksum_tail h :
  calculate_checksum (header_prefix h) = calculate_checksum (header_tail h).
Proof.
  assert (header_prefix h =
          (cells 8 (magic h) ++ cells 4 (version h) ++
           le_bytes 1 (hdr_classification h) ++ le_bytes 1 (flags h) ++
           le_bytes 2 (reserved h) ++ take 12 (cells SALT_SIZE (salt h))) ++ header_tail h)
    as ->.
  { unfold header_prefix, header_tail. rewrite <- !app_assoc.
    do 5 f_equal. rewrite <- (take_drop 12 (cells SALT_SIZE (salt h))) at 1.
    by rewrite <- app_assoc. }
  apply checksum_forgets.
  unfold header_tail. rewrite !length_app, length_drop, !length_cells, !length_le_bytes.
  reflexivity.
Qed.

(** X17: the classification is bound to nothing else in the container.
    The key comes from password and salt, the header checksum covers only
    the last 32 of the 60 bytes before it, and the classification is byte
    12: the same run with another classification writes the same file but
    for that byte. *)
Theorem classification_is_one_unprotected_byte
    (opts : options) (e : environment) (out : list Z) (c' : Z) :
  encrypt_file opts e = (0, Some out) →
  wrap8 c' ≤ wrap8 (user_clearance opts) →
  encrypt_file (with_classification c' opts) e = (0, Some (<[12%nat := wrap8 c']> out)).
Proof.
  intros Hrun Hclear.
  apply encrypt_file_runs in Hrun
    as (data & sl & v & pw & key & ctx & body & Hcan & Hkey & Hctx & Hbody & ->).
  apply encrypt_file_runs. exists data, sl, v, pw, key, ctx, body.
  split_and!; [|exact Hkey|exact Hctx|exact Hbody|]; clear Hkey Hctx Hbody.
  - unfold can_encrypt in *. cbn. tauto.
  - cbn [classification with_classification].
    rewrite insert_app_l by (rewrite length_header_bytes; unfold sizeof_header; lia).
    f_equal. unfold sealed.
    rewrite !header_checksum_tail.
    unfold plain_header, header_tail, set_header_checksum. cbn [salt iv original_size checksum
      magic version hdr_classification flags reserved header_checksum].
    rewrite (insert_classification (wrap8 (classification opts)) (wrap8 c')).
    f_equal. unfold wrap8. change (2 ^ 8) with 256. symmetry. apply Z.mod_mod. lia.
Qed.


Lemma classification_byte_witness :
  encrypt_file (with_classification 0 Scenario.opts_encrypt) Scenario.env_plain =
  (0, Some (<[12%nat := wrap8 0]> Scenario.container)).
Proof.
  apply (classification_is_one_unprotected_byte Scenario.opts_encrypt Scenario.env_plain
           Scenario.container 0).
  - vm_compute. reflexivity.
  - vm_compute. discriminate.
Defined.

Lemma aes_init_initialized key v ctx :
  aes_init (Some key) (Some v) = (0, Some ctx) → initialized ctx = true.
Proof. unfold aes_init. intros Hctx. injection Hctx as <-. reflexivity. Qed.




End Encryption.

(** ** sentinal_send.c: the layout of the container *)

Section ContainerLayout.
Import Crypto Send SendUtil.

Lemma encrypt_chunk_padded ctx chunk :
  encrypt_chunk ctx chunk = aes_encrypt_cbc ctx (padded chunk).
Proof. unfold encrypt_chunk, padded. cbv zeta. reflexivity. Qed.

Lemma encrypt_chunks_step n ctx data :
  data ≠ [] →
  encrypt_chunks (S n) ctx data =
  match encrypt_chunk ctx (take BUFFER_SIZE data) with
  | None => ([], false)
  | Some c =>
      let '(rest, ok) := encrypt_chunks n ctx (drop BUFFER_SIZE data) in (c ++ rest, ok)
  end.
Proof. destruct data; [done | reflexivity]. Qed.

Lemma buffers_step n data :
  data ≠ [] →
  buffers (S n) data = take BUFFER_SIZE data :: buffers n (drop BUFFER_SIZE data).
Proof. destruct data; [done | reflexivity]. Qed.

Lemma encrypt_chunks_nil n ctx : encrypt_chunks n ctx [] = ([], true).
Proof. by destruct n. Qed.

Lemma buffers_nil n : buffers n [] = [].
Proof. by destruct n. Qed.

Lemma encrypt_chunks_buffers ctx : ∀ n data body,
  encrypt_chunks n ctx data = (body, true) →
  ∃ cs, Forall2 (λ buf c, aes_encrypt_cbc ctx (padded buf) = Some c) (buffers n data) cs ∧
        body = concat cs.
Proof.
  intros n. induction n as [|n IH]; intros data body Hrun.
  - destruct data; [|discriminate Hrun]. injection Hrun as <-. exists []. by split.
  - destruct (decide (data = [])) as [->|Hne].
    { rewrite encrypt_chunks_nil in Hrun. injection Hrun as <-.
      rewrite buffers_nil. exists []. by split. }
    rewrite encrypt_chunks_step in Hrun by exact Hne.
    rewrite buffers_step by exact Hne.
    rewrite encrypt_chunk_padded in Hrun.
    destruct (aes_encrypt_cbc ctx (padded (take BUFFER_SIZE data))) as [c|] eqn:Hc;
      [|discriminate Hrun].
    destruct (encrypt_chunks n ctx (drop BUFFER_SIZE data)) as [rest ok] eqn:Hrest.
    injection Hrun as <- ->.
    destruct (IH _ _ Hrest) as (cs & Hcs & ->).
    exists (c :: cs). split; [|reflexivity].
    apply Forall2_cons. split; [exact Hc | exact Hcs].
Qed.

Lemma concat_buffers : ∀ n data, (length data ≤ n)%nat → concat (buffers n data) = data.
Proof.
  intros n. induction n as [|n IH]; intros data Hn.
  - destruct data; [reflexivity | cbn in Hn; lia].
  - destruct (decide (data = [])) as [->|Hne]; [by rewrite buffers_nil|].
    rewrite buffers_step by exact Hne. cbn [concat].
    rewrite IH; [apply take_drop|]. rewrite length_drop, buffer_size_blocks.
    destruct data; [done|]. cbn [length] in *. lia.
Qed.

(** C8, as the code has it.  A successful [encrypt_file] writes a header of 64
    bytes followed, at offset 64, by the ciphertext.  The header holds the
    magic "SENTINAL", the version 1.0.0.0, the classification, the flags
    (1), the reserved field (0), the salt and the IV as [/dev/urandom]
    delivered them (16 bytes each), the length of the input and a payload
    checksum that is 0, and last the header checksum, which is
    [calculate_checksum] of the first 60 bytes of the file.  The ciphertext
    is what [aes_encrypt_cbc] returns for the input, read in buffers of 8192
    bytes and each buffer padded to a multiple of 16 bytes, under the key
    derived from the password and the salt of the header and with the IV of
    the header; it is as long as the input rounded up to a multiple of
    16. *)
Theorem container_layout (opts : options) (e : environment) (out : list Z) :
  encrypt_file opts e = (0, Some out) →
  ∃ h data body pw key ctx cs,
    out = header_bytes h ++ body ∧
    length (header_bytes h) = 64%nat ∧
    header_checksum h = calculate_checksum (take 60 out) ∧
    magic h = SENTINAL ∧ version h = [1; 0; 0; 0] ∧
    hdr_classification h = wrap8 (classification opts) ∧
    flags h = 1 ∧ reserved h = 0 ∧
    urandom_salt e = Some (Send.salt h) ∧ length (Send.salt h) = 16%nat ∧
    urandom_iv e = Some (Send.iv h) ∧ length (Send.iv h) = 16%nat ∧
    input_contents e = Some data ∧
    original_size h = wrap64 (Z.of_nat (length data)) ∧
    checksum h = 0 ∧
    drop 64 out = body ∧
    password opts = Some pw ∧
    derive_key_from_password (Some pw) (Some (Send.salt h)) = (0, Some key) ∧
    aes_init (Some key) (Some (Send.iv h)) = (0, Some ctx) ∧
    concat (buffers (length data) data) = data ∧
    Forall2 (λ buf c, aes_encrypt_cbc ctx (padded buf) = Some c)
            (buffers (length data) data) cs ∧
    body = concat cs ∧
    length body = ((length data + 15) / 16 * 16)%nat.
Proof.
  intros Hrun.
  apply encrypt_file_runs in Hrun
    as (data & sl & v & pw & key & ctx & body & Hcan & Hkey & Hctx & Hbody & ->).
  destruct Hcan as (_ & _ & _ & Hin & _ & _ & Hsalt & Hsl & Hiv & Hvl & Hpw).
  destruct (encrypt_chunks_buffers ctx _ _ _ Hbody) as (cs & Hcs & Hconcat).
  destruct (length_encrypt_chunks ctx (length data) data
              (aes_init_initialized _ _ _ Hctx) ltac:(lia)) as (body' & Hbody' & Hlen).
  assert (body' = body) as -> by congruence.
  set (h := sealed _).
  exists h, data, body, pw, key, ctx, cs.
  assert (length (header_bytes h) = 64%nat) as Hh by apply length_header_bytes.
  split_and!.
  - reflexivity.
  - exact Hh.
  - change 60%nat with (sizeof_header - sizeof_header_checksum)%nat.
    rewrite take_header_prefix. unfold h, sealed.
    cbn [header_checksum set_header_checksum].
    by rewrite header_prefix_checksum.
  - reflexivity.
  - reflexivity.
  - reflexivity.
  - reflexivity.
  - reflexivity.
  - exact Hsalt.
  - exact Hsl.
  - exact Hiv.
  - exact Hvl.
  - exact Hin.
  - reflexivity.
  - reflexivity.
  - rewrite <- Hh. apply drop_app_length.
  - exact Hpw.
  - exact Hkey.
  - exact Hctx.
  - apply concat_buffers. lia.
  - exact Hcs.
  - exact Hconcat.
  - exact Hlen.
Qed.

Lemma container_layout_witness :
  encrypt_file Scenario.opts_encrypt Scenario.env_plain = (0, Some Scenario.container) ∧
  ∃ h data body pw key ctx cs,
    Scenario.container = header_bytes h ++ body ∧
    length (header_bytes h) = 64%nat ∧
    header_checksum h = calculate_checksum (take 60 Scenario.container) ∧
    magic h = SENTINAL ∧ version h = [1; 0; 0; 0] ∧
    hdr_classification h = wrap8 (classification Scenario.opts_encrypt) ∧
    flags h = 1 ∧ reserved h = 0 ∧
    urandom_salt Scenario.env_plain = Some (Send.salt h) ∧ length (Send.salt h) = 16%nat ∧
    urandom_iv Scenario.env_plain = Some (Send.iv h) ∧ length (Send.iv h) = 16%nat ∧
    input_contents Scenario.env_plain = Some data ∧
    original_size h = wrap64 (Z.of_nat (length data)) ∧
    checksum h = 0 ∧
    drop 64 Scenario.container = body ∧
    password Scenario.opts_encrypt = Some pw ∧
    derive_key_from_password (Some pw) (Some (Send.salt h)) = (0, Some key) ∧
    aes_init (Some key) (Some (Send.iv h)) = (0, Some ctx) ∧
    concat (buffers (length data) data) = data ∧
    Forall2 (λ buf c, aes_encrypt_cbc ctx (padded buf) = Some c)
            (buffers (length data) data) cs ∧
    body = concat cs ∧
    length body = ((length data + 15) / 16 * 16)%nat.
Proof.
  split; [vm_compute; reflexivity|].
  apply (container_layout Scenario.opts_encrypt Scenario.env_plain Scenario.container).
  vm_compute. reflexivity.
Defined.

End ContainerLayout.




(** ** syscalls.c: descriptors *)

Section Descriptors.
Import Sys SysClose.
Variable world : Type.
Variable fs_get_inode : world → Z → option Z.
Variable fs_create_file : world → Z → Z → Z * world.
Variable fs_read_inode : world → Z → Z → Z → Z → Z * world.
Variable fs_write_inode : world → Z → Z → Z → Z → Z * world.
Variable load_byte : world → Z → Z.

Local Abbreviation sys_read := (Sys.sys_read fs_read_inode).
Local Abbreviation sys_write := (Sys.sys_write fs_write_inode load_byte).
Local Abbreviation sys_open := (Sys.sys_open fs_get_inode fs_create_file).
Local Abbreviation reached :=
  (after_calls fs_get_inode fs_create_file fs_read_inode fs_write_inode load_byte).

(** What a successful [sys_open] leaves behind. *)
Lemma sys_open_runs (s : sys world) (filename flags mode : Z) :
  0 ≤ fst (sys_open filename flags mode s) →
  ∃ (fd : nat) (ino : Z) (w : world),
    sys_open filename flags mode s =
      (Z.of_nat fd,
       mkSys (match current_process s with
              | Some cp => Some (Core.set_open_files (<[fd := 1]> (Core.open_files cp)) cp)
              | None => None
              end)
             (<[fd := mkFd (Some ino) 0 (wrap32 flags) (wrap32 mode) 1]> (file_table s))
             (console s) w) ∧
    find_free_fd s = Some fd.
Proof.
  unfold Sys.sys_open. case_bool_decide; [cbn; lia|].
  destruct (find_free_fd s) as [fd|]; [|cbn; lia].
  assert (∀ (found : option Z) (s1 : sys world),
            current_process s1 = current_process s → file_table s1 = file_table s →
            console s1 = console s →
            0 ≤ fst (match found with
                     | None => (-2, s1)
                     | Some ino =>
                         (Z.of_nat fd,
                          match current_process (with_file_table
                             (<[fd := mkFd (Some ino) 0 (wrap32 flags) (wrap32 mode) 1]>
                                (file_table s1)) s1) with
                          | Some cp => with_current
                             (Some (Core.set_open_files (<[fd := 1]> (Core.open_files cp)) cp))
                             (with_file_table
                                (<[fd := mkFd (Some ino) 0 (wrap32 flags) (wrap32 mode) 1]>
                                   (file_table s1)) s1)
                          | None => with_file_table
                             (<[fd := mkFd (Some ino) 0 (wrap32 flags) (wrap32 mode) 1]>
                                (file_table s1)) s1
                          end)
                     end) →
            ∃ (fd0 : nat) (ino : Z) (w : world),
              match found with
              | None => (-2, s1)
              | Some ino =>
                  (Z.of_nat fd,
                   match current_process (with_file_table
                      (<[fd := mkFd (Some ino) 0 (wrap32 flags) (wrap32 mode) 1]>
                         (file_table s1)) s1) with
                   | Some cp => with_current
                      (Some (Core.set_open_files (<[fd := 1]> (Core.open_files cp)) cp))
                      (with_file_table
                         (<[fd := mkFd (Some ino) 0 (wrap32 flags) (wrap32 mode) 1]>
                            (file_table s1)) s1)
                   | None => with_file_table
                      (<[fd := mkFd (Some ino) 0 (wrap32 flags) (wrap32 mode) 1]>
                         (file_table s1)) s1
                   end)
              end =
              (Z.of_nat fd0,
               mkSys (match current_process s with
                      | Some cp =>
                          Some (Core.set_open_files (<[fd0 := 1]> (Core.open_files cp)) cp)
                      | None => None
                      end)
                     (<[fd0 := mkFd (Some ino) 0 (wrap32 flags) (wrap32 mode) 1]>
                        (file_table s))
                     (console s) w) ∧
              Some fd = Some fd0) as Hres.
  { intros [ino|] [cp1 t1 c1 w1] Hcp Ht Hc; cbn in *; [|lia]. intros _. subst.
    exists fd, ino, w1. by destruct (current_process s). }
  destruct (fs_get_inode (env s) 0) as [ino|].
  { apply (Hres (Some ino) s); reflexivity. }
  case_bool_decide.
  - destruct (fs_create_file _ _ _) as [r w]. case_bool_decide.
    + apply (Hres None (with_env w s)); reflexivity.
    + apply (Hres (fs_get_inode (env (with_env w s)) 0) (with_env w s)); reflexivity.
  - apply (Hres None s); reflexivity.
Qed.

Lemma find_free_fd_ext (s s' : sys world) :
  (∀ i, (3 ≤ i < 256)%nat →
        inode (file_table s' !!! i) = None ↔ inode (file_table s !!! i) = None) →
  find_free_fd s' = find_free_fd s.
Proof.
  intros Hext. unfold find_free_fd.
  change (Z.to_nat Core.MAX_OPEN_FILES - 3)%nat with 253%nat.
  assert (∀ i, i ∈ seq 3 253 → (3 ≤ i < 256)%nat) as Hrange.
  { intros i Hi%elem_of_seq. lia. }
  induction (seq 3 253) as [|x l IH]; [reflexivity|]. cbn [find].
  assert (x ∈ x :: l) as Hx by left.
  rewrite (bool_decide_ext _ _ (Hext x (Hrange x Hx))).
  destruct (bool_decide _); [reflexivity|].
  apply IH. intros i Hi. apply Hrange. by right.
Qed.

(** Closing the last reference to an open descriptor. *)
Lemma sys_close_last_reference (s : sys world) (fd : nat) :
  (fd < 256)%nat →
  inode (file_table s !!! fd) ≠ None →
  ref_count (file_table s !!! fd) = 1 →
  sys_close (Z.of_nat fd) s =
    (0, mkSys (match current_process s with
               | Some cp => Some (Core.set_open_files (<[fd := 0]> (Core.open_files cp)) cp)
               | None => None
               end)
              (<[fd := mkFd None 0 0 0 0]> (file_table s)) (console s) (env s)).
Proof.
  intros Hfd Hopen Href. destruct s as [cp t c w]. cbn [file_table] in Hopen, Href.
  unfold sys_close, slot. rewrite Nat2Z.id. cbn [file_table with_file_table].
  rewrite bool_decide_eq_false_2 by (unfold Core.MAX_OPEN_FILES; lia).
  rewrite bool_decide_eq_false_2 by done. cbn [orb].
  unfold upd. rewrite !lookup_total_insert_eq. cbn [ref_count]. rewrite Href.
  change (wrap32 (1 - 1)) with 0. rewrite bool_decide_eq_true_2 by reflexivity.
  cbn [file_table with_file_table current_process console env].
  rewrite insert_insert_eq.
  by destruct cp.
Qed.

Lemma closed_descriptor_is_bad (s : sys world) (fd : nat) (buf count : Z) :
  inode (file_table s !!! fd) = None →
  sys_close (Z.of_nat fd) s = (-9, s) ∧ sys_read (Z.of_nat fd) buf count s = (-9, s).
Proof.
  intros Hnone. unfold sys_close, Sys.sys_read, slot. rewrite Nat2Z.id, Hnone.
  rewrite (bool_decide_eq_true_2 (None = None)) by reflexivity.
  by rewrite orb_true_r.
Qed.

(** X19: a descriptor that [sys_open] returned is closed by [sys_close]
    with result 0: its slot is zeroed, the other slots are as before the
    [sys_open], so the next [sys_open] finds the same descriptor.  Closing
    it again, or reading from it, fails with -9 (EBADF). *)
Theorem sys_open_then_sys_close (s : sys world) (filename oflags omode buf count : Z) :
  let r := fst (sys_open filename oflags omode s) in
  let s1 := snd (sys_open filename oflags omode s) in
  let s2 := snd (sys_close r s1) in
  0 ≤ r →
  fst (sys_close r s1) = 0 ∧
  slot s2 r = mkFd None 0 0 0 0 ∧
  (∀ i, i ≠ Z.to_nat r → file_table s2 !!! i = file_table s !!! i) ∧
  find_free_fd s2 = find_free_fd s ∧
  sys_close r s2 = (-9, s2) ∧
  sys_read r buf count s2 = (-9, s2).
Proof.
  intros r s1 s2 Hr.
  destruct (sys_open_runs s filename oflags omode Hr) as (fd & ino & w & Hrun & Hfree).
  subst r s1 s2. rewrite Hrun in *. cbn [fst snd]. clear Hrun Hr.
  pose proof (find_free_fd_spec _ fs_get_inode fs_create_file fs_read_inode fs_write_inode
                load_byte s) as Hfd.
  rewrite Hfree in Hfd. destruct Hfd as [Hrange Hnone].
  rewrite sys_close_last_reference;
    [|lia|cbn [file_table]; by rewrite lookup_total_insert_eq..].
  cbn [fst snd].
  set (s2 := mkSys _ (<[fd := mkFd None 0 0 0 0]> _) _ _).
  assert (file_table s2 = <[fd := mkFd None 0 0 0 0]> (file_table s)) as Ht2.
  { subst s2. cbn [file_table]. apply insert_insert_eq. }
  clearbody s2.
  assert (inode (file_table s2 !!! fd) = None) as Hclosed.
  { by rewrite Ht2, lookup_total_insert_eq. }
  split_and!.
  - reflexivity.
  - unfold slot. by rewrite Nat2Z.id, Ht2, lookup_total_insert_eq.
  - intros i Hi. rewrite Nat2Z.id in Hi. by rewrite Ht2, lookup_total_insert_ne.
  - apply find_free_fd_ext. intros i _. rewrite Ht2.
    destruct (decide (i = fd)) as [->|].
    + by rewrite lookup_total_insert_eq.
    + by rewrite lookup_total_insert_ne.
  - by apply (closed_descriptor_is_bad s2 fd 0 0).
  - by apply (closed_descriptor_is_bad s2 fd buf count).
Qed.

Lemma syscall_init_clears (s : sys world) (i : nat) :
  (i < 256)%nat → inode (file_table (syscall_init s) !!! i) = None.
Proof.
  intros Hi. unfold syscall_init. cbn [file_table with_file_table].
  change (Z.to_nat Core.MAX_OPEN_FILES) with 256%nat.
  assert (i ∈ seq 0 256) as Hin by (apply elem_of_seq; lia).
  revert Hin. generalize (seq 0 256). intros l.
  induction l as [|x l IH] using rev_ind; [by intros ?%elem_of_nil|].
  intros Hin. rewrite fold_left_app. cbn [fold_left]. rewrite upd_lookup.
  case_decide; [reflexivity|].
  apply IH. apply elem_of_app in Hin as [Hin|Hin%list_elem_of_singleton]; [done|congruence].
Qed.

Lemma stdio_unopened_table (s s' : sys world) :
  stdio_unopened s →
  (∀ fd : nat, (fd < 3)%nat →
     inode (file_table s !!! fd) = None → inode (file_table s' !!! fd) = None) →
  stdio_unopened s'.
Proof. intros Hs Ht fd Hfd. apply Ht; [done|]. by apply Hs. Qed.

Lemma sys_read_keeps_inodes (s : sys world) (fd buf count : Z) (i : nat) :
  inode (file_table (snd (sys_read fd buf count s)) !!! i) = inode (file_table s !!! i).
Proof.
  unfold Sys.sys_read. destruct (_ || _); [reflexivity|]. destruct (_ || _); [reflexivity|].
  destruct (inode (slot s fd)); [|reflexivity].
  destruct (fs_read_inode _ _ _ _ _) as [n w]. case_bool_decide; [|reflexivity].
  cbn. rewrite upd_lookup. by case_decide; subst.
Qed.

Lemma sys_write_keeps_inodes (s : sys world) (fd buf count : Z) (i : nat) :
  inode (file_table (snd (sys_write fd buf count s)) !!! i) = inode (file_table s !!! i).
Proof.
  unfold Sys.sys_write. case_bool_decide; [reflexivity|]. destruct (_ || _); [reflexivity|].
  destruct (_ || _); [reflexivity|].
  destruct (inode (slot s fd)); [|reflexivity].
  destruct (fs_write_inode _ _ _ _ _) as [n w]. case_bool_decide; [|reflexivity].
  cbn. rewrite upd_lookup. by case_decide; subst.
Qed.

Lemma sys_close_only_closes (s : sys world) (fd : Z) (i : nat) :
  inode (file_table s !!! i) = None →
  inode (file_table (snd (sys_close fd s)) !!! i) = None.
Proof.
  intros Hi. unfold sys_close. destruct (_ || _); [done|]. cbn zeta.
  set (s1 := with_file_table _ s).
  assert (inode (file_table s1 !!! i) = None) as H1.
  { subst s1. cbn. rewrite upd_lookup. by case_decide; subst. }
  clearbody s1.
  set (s2 := if bool_decide _ then _ else s1).
  assert (inode (file_table s2 !!! i) = None) as H2.
  { subst s2. case_bool_decide; [|done]. cbn. rewrite upd_lookup. by case_decide. }
  clearbody s2. cbn [snd]. by destruct (current_process s2).
Qed.

Lemma sys_open_keeps_stdio (s : sys world) (filename flags mode : Z) :
  stdio_unopened s → stdio_unopened (snd (sys_open filename flags mode s)).
Proof.
  intros Hs.
  destruct (Z_lt_le_dec (fst (sys_open filename flags mode s)) 0) as [Hneg|Hpos].
  - assert (file_table (snd (sys_open filename flags mode s)) = file_table s) as Ht.
    { revert Hneg. unfold Sys.sys_open. case_bool_decide; [done|].
      destruct (find_free_fd s) as [fd|]; [|done].
      destruct (fs_get_inode (env s) 0) as [ino|].
      { cbn. lia. }
      case_bool_decide.
      - destruct (fs_create_file _ _ _) as [r w]. case_bool_decide; [done|].
        destruct (fs_get_inode _ _); cbn; [lia|done].
      - done. }
    intros fd Hfd. rewrite Ht. by apply Hs.
  - destruct (sys_open_runs s filename flags mode Hpos) as (fd & ino & w & Hrun & Hfree).
    pose proof (find_free_fd_spec _ fs_get_inode fs_create_file fs_read_inode fs_write_inode
                load_byte s) as Hfd. rewrite Hfree in Hfd.
    rewrite Hrun. intros i Hi. cbn [snd file_table].
    rewrite lookup_total_insert_ne by lia. by apply Hs.
Qed.

(** X20: [sys_open] hands out descriptors from 3 on only, so after
    [syscall_init] the descriptors 0, 1 and 2 never get an inode, whatever
    calls of [sys_read], [sys_write], [sys_open] and [sys_close] follow:
    reading from standard input and closing a standard descriptor always
    fail with -9 (EBADF) and change nothing. *)
Theorem standard_descriptors_are_never_open (s0 s : sys world) (fd buf count : Z) :
  reached (syscall_init s0) s →
  0 ≤ fd < 3 →
  sys_read fd buf count s = (-9, s) ∧ sys_close fd s = (-9, s).
Proof.
  intros Hreach Hfd.
  assert (stdio_unopened s) as Hs.
  { induction Hreach as [|s' ???? IH|s' ???? IH|s' ???? IH|s' ?? IH].
    - intros i Hi. apply syscall_init_clears. lia.
    - intros i Hi. rewrite sys_read_keeps_inodes. by apply IH.
    - intros i Hi. rewrite sys_write_keeps_inodes. by apply IH.
    - by apply sys_open_keeps_stdio.
    - intros i Hi. apply sys_close_only_closes. by apply IH. }
  assert (inode (slot s fd) = None) as Hnone.
  { apply Hs. lia. }
  unfold Sys.sys_read, sys_close. rewrite Hnone.
  rewrite (bool_decide_eq_true_2 (None = None)) by reflexivity.
  by rewrite orb_true_r.
Qed.

End Descriptors.

Lemma sys_open_then_sys_close_witness :
  let r := fst (Scenario.sys_open0 4096 0 0 Scenario.one_open) in
  let s1 := snd (Scenario.sys_open0 4096 0 0 Scenario.one_open) in
  let s2 := snd (SysClose.sys_close r s1) in
  fst (SysClose.sys_close r s1) = 0 ∧
  Sys.slot s2 r = Sys.mkFd None 0 0 0 0 ∧
  (∀ i, i ≠ Z.to_nat r → Sys.file_table s2 !!! i = Sys.file_table Scenario.one_open !!! i) ∧
  Sys.find_free_fd s2 = Sys.find_free_fd Scenario.one_open ∧
  SysClose.sys_close r s2 = (-9, s2) ∧
  Scenario.sys_read0 r 4096 16 s2 = (-9, s2).
Proof.
  refine (sys_open_then_sys_close unit (λ _ _, Some 1) (λ _ _ _, (0, tt))
            (λ _ _ _ _ _, (0, tt)) (λ _ _ _ _ _, (0, tt)) (λ _ _, 0)
            Scenario.one_open 4096 0 0 4096 16 _).
  vm_compute. discriminate.
Defined.

Lemma standard_descriptors_witness :
  Scenario.sys_read0 0 4096 16
    (snd (Scenario.sys_open0 4096 0 0 (SysClose.syscall_init Scenario.one_open)))
    = (-9, snd (Scenario.sys_open0 4096 0 0 (SysClose.syscall_init Scenario.one_open))) ∧
  SysClose.sys_close 0
    (snd (Scenario.sys_open0 4096 0 0 (SysClose.syscall_init Scenario.one_open)))
    = (-9, snd (Scenario.sys_open0 4096 0 0 (SysClose.syscall_init Scenario.one_open))).
Proof.
  refine (standard_descriptors_are_never_open unit (λ _ _, Some 1) (λ _ _ _, (0, tt))
            (λ _ _ _ _ _, (0, tt)) (λ _ _ _ _ _, (0, tt)) (λ _ _, 0)
            Scenario.one_open
            (snd (Scenario.sys_open0 4096 0 0 (SysClose.syscall_init Scenario.one_open)))
            0 4096 16 _ _).
  - apply SysClose.after_open. apply SysClose.after_none.
  - lia.
Defined.

(** ** process.c: the process list *)

Section ProcessListProofs.
Import Proc.

Lemma kmalloc_keeps (size a : Z) (s s' : pstate) :
  kmalloc size s = Returned (a, s') →
  kernel s' = kernel s ∧ process_list s' = process_list s ∧ next_pid s' = next_pid s.
Proof.
  unfold kmalloc. destruct (Mm.kmalloc size (heap s)) as [[[o|p] h]|msg]; [| |discriminate].
  - intros H. by injection H as _ <-.
  - intros H. by injection H as _ <-.
Qed.

Lemma pcb_write (s : pstate) (p q : nat) (f : Core.process → Core.process) :
  pcb (write p f s) q = if decide (p = q) then f (pcb s q) else pcb s q.
Proof. unfold pcb, write, Core.deref, Core.assign. cbn. apply upd_lookup. Qed.

Lemma pcb_write_field {A : Type} (proj : Core.process → A) (s : pstate) (p q : nat)
    (f : Core.process → Core.process) :
  (∀ x, proj (f x) = proj x) → proj (pcb (write p f s) q) = proj (pcb s q).
Proof. intros Hf. rewrite pcb_write. by case_decide. Qed.

Lemma ready_queue_write (s : pstate) (p : nat) (f : Core.process → Core.process) :
  Core.ready_queue (kernel (write p f s)) = Core.ready_queue (kernel s).
Proof. reflexivity. Qed.

Lemma process_list_write (s : pstate) (p : nat) (f : Core.process → Core.process) :
  process_list (write p f s) = process_list s.
Proof. reflexivity. Qed.

(** X21: [process_create] links the new PCB in front of
    [process_list] and then enqueues it, and the ready queue uses the same
    [next] and [prev] fields.  When the ready queue was empty the new
    process is afterwards the only one on the process list:
    [process_find_by_pid] finds the new pid and no other, so no process
    created before can be found. *)
Theorem process_create_forgets_the_other_processes (fuel : nat) (s s' : pstate) (r : Z) :
  Core.ready_queue (kernel s) = None →
  process_create fuel s = Some (Done (r, s')) →
  0 ≤ r →
  ∃ p, process_list s' = Some p ∧ Core.pid (pcb s' p) = r ∧
       Core.next (pcb s' p) = None ∧
       ∀ pid fuel', (2 ≤ fuel')%nat →
         process_find_by_pid fuel' pid s' =
         Some (if bool_decide (wrap32 pid = r) then Some p else None).
Proof.
  intros Hempty Hrun Hr. unfold process_create in Hrun.
  case_bool_decide; [discriminate Hrun|].
  destruct (kmalloc sizeof_process (with_lock 1 s)) as [[a s1]|msg] eqn:Hk1;
    [|discriminate Hrun].
  apply kmalloc_keeps in Hk1 as (Hker1 & _ & _). cbn [kernel with_lock] in Hker1.
  case_bool_decide; [injection Hrun as <- _; lia|].
  cbv zeta in Hrun.
  match type of Hrun with
  | match kmalloc PAGE_SIZE ?x with _ => _ end = _ => set (s2 := x) in *
  end.
  assert (Core.ready_queue (kernel s2) = None ∧
          Core.state (pcb s2 (Z.to_nat a)) = Core.PROCESS_READY ∧
          Core.pid (pcb s2 (Z.to_nat a)) = wrap32 (next_pid s1)) as (Hq2 & Hst2 & Hpid2).
  { subst s2. split_and!.
    - rewrite !ready_queue_write. cbn [kernel with_next_pid].
      rewrite !ready_queue_write. by rewrite Hker1.
    - rewrite !(pcb_write_field Core.state _ _ _ (set_security_level _)) by done.
      rewrite !(pcb_write_field Core.state _ _ _ (set_gid _)) by done.
      rewrite !(pcb_write_field Core.state _ _ _ (set_uid _)) by done.
      rewrite !(pcb_write_field Core.state _ _ _ (set_priority _)) by done.
      by rewrite pcb_write, decide_True by done.
    - rewrite !(pcb_write_field Core.pid _ _ _ (set_security_level _)) by done.
      rewrite !(pcb_write_field Core.pid _ _ _ (set_gid _)) by done.
      rewrite !(pcb_write_field Core.pid _ _ _ (set_uid _)) by done.
      rewrite !(pcb_write_field Core.pid _ _ _ (set_priority _)) by done.
      rewrite !(pcb_write_field Core.pid _ _ _ (Core.set_state _)) by done.
      rewrite !(pcb_write_field Core.pid _ _ _ (set_ppid _)) by done.
      change (pcb (with_next_pid ?n ?x) ?y) with (pcb x y).
      by rewrite pcb_write, decide_True by done. }
  clearbody s2.
  destruct (kmalloc PAGE_SIZE s2) as [[pd s3]|msg] eqn:Hk2; [|discriminate Hrun].
  apply kmalloc_keeps in Hk2 as (Hker3 & _ & _).
  case_bool_decide; [injection Hrun as <- _; lia|].
  destruct (kmalloc KERNEL_STACK_SIZE s3) as [[ks s4]|msg] eqn:Hk3; [|discriminate Hrun].
  apply kmalloc_keeps in Hk3 as (Hker4 & _ & _).
  destruct (kmalloc sizeof_cpu_context s4) as [[ctx s5]|msg] eqn:Hk4; [|discriminate Hrun].
  apply kmalloc_keeps in Hk4 as (Hker5 & _ & _).
  case_bool_decide; [injection Hrun as <- _; lia|].
  assert (kernel s5 = kernel s2) as Hker by congruence.
  assert (∀ q, pcb s5 q = pcb s2 q) as Hpcb5 by (intros q; unfold pcb; by rewrite Hker).
  clear Hker3 Hker4 Hker5 Hker1.
  match type of Hrun with
  | match Core.add_to_ready_queue _ _ (kernel ?x) with _ => _ end = _ => set (s6 := x) in *
  end.
  assert (Core.ready_queue (kernel s6) = None ∧
          Core.state (pcb s6 (Z.to_nat a)) = Core.PROCESS_READY ∧
          Core.pid (pcb s6 (Z.to_nat a)) = wrap32 (next_pid s1) ∧
          process_list s6 = Some (Z.to_nat a)) as (Hq6 & Hst6 & Hpid6 & Hl6).
  { subst s6. split_and!.
    - cbn [kernel with_process_list]. rewrite ready_queue_write.
      destruct (process_list _); rewrite !ready_queue_write; by rewrite Hker.
    - change (pcb (with_process_list ?n ?x) ?y) with (pcb x y).
      rewrite (pcb_write_field Core.state) by done.
      destruct (process_list _);
        rewrite !(pcb_write_field Core.state) by done; by rewrite Hpcb5.
    - change (pcb (with_process_list ?n ?x) ?y) with (pcb x y).
      rewrite (pcb_write_field Core.pid) by done.
      destruct (process_list _);
        rewrite !(pcb_write_field Core.pid) by done; by rewrite Hpcb5.
    - reflexivity. }
  clearbody s6.
  unfold Core.add_to_ready_queue in Hrun.
  change (Core.deref (kernel s6) (Z.to_nat a)) with (pcb s6 (Z.to_nat a)) in Hrun.
  rewrite Hst6, Hq6 in Hrun. rewrite decide_True in Hrun by done.
  injection Hrun as Hret <-.
  exists (Z.to_nat a).
  set (s7 := with_lock 0 _) in *.
  assert (Core.pid (pcb s7 (Z.to_nat a)) = wrap32 (next_pid s1)) as Hpid.
  { subst s7. unfold pcb, Core.deref, Core.assign. cbn.
    rewrite !upd_lookup, !decide_True by done. cbn. exact Hpid6. }
  assert (Core.next (pcb s7 (Z.to_nat a)) = None) as Hnext.
  { subst s7. unfold pcb, Core.deref, Core.assign. cbn.
    by rewrite !upd_lookup, !decide_True by done. }
  assert (process_list s7 = Some (Z.to_nat a)) as Hl7 by exact Hl6.
  clearbody s7.
  rewrite Hpid in Hret.
  assert (wrap32 (next_pid s1) = r) as Hpr.
  { revert Hret Hr. unfold to_int, wrap32. rewrite Z.mod_mod by lia.
    case_bool_decide; lia. }
  split_and!; [exact Hl7 | congruence | exact Hnext |].
  intros pid fuel' Hfuel. destruct fuel' as [|[|k]]; [lia..|].
  unfold process_find_by_pid. rewrite Hl7. cbn [find_from].
  change (Core.procs (kernel ?x) !!! ?y) with (pcb x y).
  rewrite Hpid, Hnext, Hpr.
  case_bool_decide as Hp1; case_bool_decide as Hp2; try done; congruence.
Qed.











Lemma process_create_witness :
  ∃ p, process_list (snd Examples.one_created) = Some p ∧
       Core.pid (pcb (snd Examples.one_created) p) = fst Examples.one_created ∧
       Core.next (pcb (snd Examples.one_created) p) = None ∧
       ∀ pid fuel', (2 ≤ fuel')%nat →
         process_find_by_pid fuel' pid (snd Examples.one_created) =
         Some (if bool_decide (wrap32 pid = fst Examples.one_created) then Some p else None).
Proof.
  apply (process_create_forgets_the_other_processes 4 Examples.init_running).
  - reflexivity.
  - vm_compute. reflexivity.
  - vm_compute. discriminate.
Defined.




End ProcessListProofs.

(** ** string.c *)

Section KernelStrings.
Import Klib.

Lemma store_eq (m : mem) (p v : Z) : store p v m p = v.
Proof. unfold store. by rewrite decide_True. Qed.

Lemma store_ne (m : mem) (p v x : Z) : x ≠ p → store p v m x = m x.
Proof. intros. unfold store. by rewrite decide_False. Qed.

Lemma copy_up_spec (k : nat) (m : mem) (d s x : Z) :
  d < s →
  copy_up k m d s x = if decide (d ≤ x < d + Z.of_nat k) then m (s + (x - d)) else m x.
Proof.
  revert m d s. induction k as [|k IH]; intros m d s Hds.
  - cbn. case_decide; [lia | reflexivity].
  - cbn [copy_up]. rewrite IH by lia. unfold store.
    repeat case_decide; try lia; try reflexivity; f_equal; lia.
Qed.

Lemma copy_down_spec (k : nat) (m : mem) (d s x : Z) :
  s ≤ d →
  copy_down k m (d + Z.of_nat k) (s + Z.of_nat k) x =
  if decide (d ≤ x < d + Z.of_nat k) then m (s + (x - d)) else m x.
Proof.
  revert m. induction k as [|k IH]; intros m Hds.
  - cbn. case_decide; [lia | reflexivity].
  - cbn [copy_down].
    replace (d + Z.of_nat (S k) - 1) with (d + Z.of_nat k) by lia.
    replace (s + Z.of_nat (S k) - 1) with (s + Z.of_nat k) by lia.
    rewrite IH by lia. unfold store.
    repeat case_decide; try lia; try reflexivity; f_equal; lia.
Qed.

Lemma copy_up_ext (k : nat) (m m' : mem) (d s : Z) :
  (∀ x, m x = m' x) → ∀ x, copy_up k m d s x = copy_up k m' d s x.
Proof.
  revert m m' d s. induction k as [|k IH]; intros m m' d s Hm x; [apply Hm|].
  cbn [copy_up]. apply IH. intros y. unfold store. rewrite Hm. by case_decide.
Qed.

Lemma copy_up_snoc (k : nat) (m : mem) (d s x : Z) :
  copy_up (S k) m d s x =
  store (d + Z.of_nat k) (copy_up k m d s (s + Z.of_nat k)) (copy_up k m d s) x.
Proof.
  revert m d s. induction k as [|k IH]; intros m d s.
  - cbn. by rewrite !Z.add_0_r.
  - change (copy_up (S (S k)) m d s x)
      with (copy_up (S k) (store d (m s) m) (d + 1) (s + 1) x).
    rewrite IH. cbn [copy_up].
    replace (d + 1 + Z.of_nat k) with (d + Z.of_nat (S k)) by lia.
    replace (s + 1 + Z.of_nat k) with (s + Z.of_nat (S k)) by lia.
    reflexivity.
Qed.

Lemma copy_up_repeats (k : nat) (m : mem) (d s x : Z) :
  s < d →
  copy_up k m d s x =
  if decide (d ≤ x < d + Z.of_nat k) then m (s + (x - d) mod (d - s)) else m x.
Proof.
  intros Hsd. revert x. induction k as [|k IH]; intros x.
  - cbn. case_decide; [lia | reflexivity].
  - rewrite copy_up_snoc. unfold store. case_decide as Hx.
    + subst x. rewrite decide_True by lia. rewrite IH.
      replace (d + Z.of_nat k - d) with (Z.of_nat k) by lia.
      case_decide as Hk.
      * f_equal. f_equal.
        replace (s + Z.of_nat k - d) with (Z.of_nat k + (-1) * (d - s)) by lia.
        apply Z.mod_add. lia.
      * f_equal. rewrite Z.mod_small; lia.
    + rewrite IH. repeat case_decide; try lia; reflexivity.
Qed.

(** X23: [memmove] copies the [n] bytes that were at [src] to [dest]
    also when the two areas overlap, and writes nowhere else.  [memcpy]
    does not: it copies upwards byte by byte, so with [dest] above [src]
    the first [dest - src] bytes of the source are repeated over the whole
    destination, which is the source only when the areas do not overlap. *)
Theorem memmove_copies_overlapping_areas (m : mem) (dest src n : Z) :
  (∀ i, 0 ≤ i < n → memmove m dest src n (dest + i) = m (src + i)) ∧
  (∀ x, ¬ (dest ≤ x < dest + n) → memmove m dest src n x = m x) ∧
  (src < dest →
   ∀ i, 0 ≤ i < n → memcpy m dest src n (dest + i) = m (src + i mod (dest - src))).
Proof.
  split_and!.
  - unfold memmove. case_bool_decide as Hlt; intros i Hi.
    + rewrite copy_up_spec by done. rewrite decide_True by lia. f_equal. lia.
    + remember (Z.to_nat n) as k eqn:Hk. assert (n = Z.of_nat k) as -> by lia.
      rewrite copy_down_spec by lia. rewrite decide_True by lia. f_equal. lia.
  - unfold memmove. case_bool_decide as Hlt; intros x Hx.
    + rewrite copy_up_spec by done. rewrite decide_False; [done | lia].
    + destruct (Z_lt_le_dec n 0) as [Hn|Hn].
      { by rewrite Z2Nat.nonpos by lia. }
      remember (Z.to_nat n) as k eqn:Hk. assert (n = Z.of_nat k) as -> by lia.
      rewrite copy_down_spec by lia. rewrite decide_False; [done | lia].
  - intros Hds i Hi. unfold memcpy.
    rewrite copy_up_repeats by done. rewrite decide_True by lia.
    f_equal. f_equal. f_equal. lia.
Qed.

Lemma cstring_frame (m m' : mem) (a : Z) (l : list Z) :
  (∀ x, a ≤ x ≤ a + Z.of_nat (length l) → m' x = m x) →
  cstring m a l → cstring m' a l.
Proof.
  revert a. induction l as [|c l IH]; intros a Hm.
  - cbn. intros <-. apply Hm. cbn. lia.
  - cbn [cstring]. intros (Hc & Hnz & Hl). split_and!; [|done|].
    + rewrite <- Hc. apply Hm. cbn [length]. lia.
    + apply IH; [|done]. intros x Hx. apply Hm. cbn [length]. lia.
Qed.

Lemma cstring_head (m : mem) (a : Z) (l : list Z) :
  cstring m a l → m a = nth 0 l 0 ∧ (m a = 0 ↔ l = []).
Proof.
  destruct l as [|c l]; cbn.
  - intros ->. done.
  - intros (-> & Hnz & _). split; [done|]. split; [done | discriminate].
Qed.

(** X24: for two NUL-terminated strings [strcmp] returns, and it returns
    0 exactly when the two strings are equal. *)
Theorem strcmp_zero_iff_equal (m : mem) (a b : Z) (la lb : list Z) (fuel : nat) :
  cstring m a la → cstring m b lb → (length la < fuel)%nat →
  ∃ r, strcmp fuel m a b = Some r ∧ (r = 0 ↔ la = lb).
Proof.
  revert a b lb fuel.
  induction la as [|c la IH]; intros a b lb fuel Ha Hb Hfuel.
  - destruct fuel as [|fuel]; [cbn in Hfuel; lia|]. cbn in Ha. cbn [strcmp].
    rewrite Ha. rewrite bool_decide_eq_false_2 by (intros H; by apply H). cbn [andb].
    eexists. split; [reflexivity|].
    destruct (cstring_head m b lb Hb) as [_ Hnil]. split.
    + intros H. symmetry. apply Hnil. lia.
    + intros <-. cbn in Hb. lia.
  - destruct fuel as [|fuel]; [cbn in Hfuel; lia|]. cbn [length] in Hfuel.
    destruct Ha as (Hc & Hnz & Ha). cbn [strcmp]. rewrite Hc.
    rewrite bool_decide_eq_true_2 by done. cbn [andb]. case_bool_decide as Heq.
    + destruct lb as [|c' lb].
      { cbn in Hb. congruence. }
      destruct Hb as (Hc' & _ & Hb).
      destruct (IH (a + 1) (b + 1) lb fuel Ha Hb ltac:(lia)) as (r & Hr & Hiff).
      exists r. split; [done|]. rewrite Hiff. split; [intros ->; congruence|].
      intros H. by injection H.
    + eexists. split; [reflexivity|]. split; [lia|].
      intros <-. destruct Hb as (Hc' & _). congruence.
Qed.

Lemma strcmp_witness :
  ∃ r, strcmp 8 (mem_of 100 [104; 105; 0; 104; 105]) 100 103 = Some r ∧
       (r = 0 ↔ [104; 105] = [104; 105]).
Proof.
  apply (strcmp_zero_iff_equal (mem_of 100 [104; 105; 0; 104; 105]) 100 103
           [104; 105] [104; 105] 8).
  - vm_compute. split_and!; (reflexivity || discriminate).
  - vm_compute. split_and!; (reflexivity || discriminate).
  - cbn. lia.
Defined.

Lemma strncmp_spec (m : mem) (k : nat) :
  ∀ (a b : Z) (la lb : list Z),
    cstring m a la → cstring m b lb →
    (strncmp_loop k m a b = 0 ↔ take k la = take k lb).
Proof.
  induction k as [|k IH]; intros a b la lb Ha Hb; [by rewrite !take_0|].
  cbn [strncmp_loop].
  destruct (cstring_head m a la Ha) as [Hha Hna].
  destruct (cstring_head m b lb Hb) as [Hhb Hnb].
  case_bool_decide as Hnz; cbn [andb]; [case_bool_decide as Heq|].
  - destruct la as [|c la]; [by destruct Hnz; apply Hna|].
    destruct lb as [|c' lb]; [destruct Hnz; rewrite Heq; by apply Hnb|].
    cbn in Hha, Hhb. destruct Ha as (_ & _ & Ha), Hb as (_ & _ & Hb).
    rewrite (IH _ _ _ _ Ha Hb). cbn [take].
    split; [intros ->; congruence|]. intros H. by injection H.
  - split; [lia|]. intros Ht. destruct la as [|c la]; [by destruct Hnz; apply Hna|].
    destruct lb as [|c' lb]; [discriminate Ht|].
    cbn in Hha, Hhb, Ht. injection Ht as ? _. congruence.
  - assert (m a = 0) as H0.
    { destruct (decide (m a = 0)); [done|]. by destruct Hnz. }
    rewrite H0. apply Hna in H0 as ->. rewrite take_nil.
    split.
    + intros H. assert (m b = 0) as ->%Hnb by lia. by rewrite take_nil.
    + destruct lb as [|c' lb]; [|discriminate]. cbn in Hb. lia.
Qed.

(** X25: [strncmp] of two NUL-terminated strings is 0 exactly when their
    first [n] characters agree (a string shorter than [n] counts whole);
    with [n = strlen(s2)], as [find_mount_point] calls it, exactly when
    [s2] is a prefix of [s1]. *)
Theorem strncmp_zero_iff_prefixes_agree (m : mem) (a b n : Z) (la lb : list Z) :
  cstring m a la → cstring m b lb →
  (strncmp m a b n = 0 ↔ take (Z.to_nat n) la = take (Z.to_nat n) lb) ∧
  (strncmp m a b (Z.of_nat (length lb)) = 0 ↔ ∃ rest, la = lb ++ rest).
Proof.
  intros Ha Hb. unfold strncmp. split; [by apply strncmp_spec|].
  rewrite Nat2Z.id, (strncmp_spec m _ a b la lb Ha Hb), firstn_all. split.
  - intros H. exists (drop (length lb) la).
    rewrite <- (take_drop (length lb) la) at 1. by rewrite H.
  - intros [rest ->]. by rewrite take_app_length.
Qed.

Lemma strncmp_witness :
  (strncmp (mem_of 100 [47; 97; 47; 98; 0; 47; 97]) 100 105 2 = 0 ↔
   take (Z.to_nat 2) [47; 97; 47; 98] = take (Z.to_nat 2) [47; 97]) ∧
  (strncmp (mem_of 100 [47; 97; 47; 98; 0; 47; 97]) 100 105 (Z.of_nat (length [47; 97])) = 0 ↔
   ∃ rest, [47; 97; 47; 98] = [47; 97] ++ rest).
Proof.
  apply (strncmp_zero_iff_prefixes_agree (mem_of 100 [47; 97; 47; 98; 0; 47; 97]) 100 105 2
           [47; 97; 47; 98] [47; 97]).
  - vm_compute. split_and!; (reflexivity || discriminate).
  - vm_compute. split_and!; (reflexivity || discriminate).
Defined.

Lemma strncpy_pad_spec (k : nat) (m : mem) (dest i x : Z) :
  strncpy_pad k m dest i x =
  if decide (dest + i ≤ x < dest + i + Z.of_nat k) then 0 else m x.
Proof.
  revert m i. induction k as [|k IH]; intros m i.
  - cbn. case_decide; [lia | reflexivity].
  - cbn [strncpy_pad]. rewrite IH. unfold store.
    repeat case_decide; try lia; reflexivity.
Qed.

Lemma strncpy_from_spec (dest src : Z) (k : nat) :
  ∀ (m : mem) (i : Z) (rest : list Z) (x : Z),
    cstring m (src + i) rest →
    (dest + i + Z.of_nat k ≤ src + i ∨ src + i + Z.of_nat (length rest) < dest + i) →
    strncpy_from k m dest src i x =
    if decide (dest + i ≤ x < dest + i + Z.of_nat k)
    then nth (Z.to_nat (x - dest - i)) rest 0 else m x.
Proof.
  induction k as [|k IH]; intros m i rest x Hs Hdis.
  - cbn. case_decide; [lia | reflexivity].
  - cbn [strncpy_from]. destruct (cstring_head m (src + i) rest Hs) as [Hh Hn].
    case_bool_decide as Hnz.
    + destruct rest as [|c rest]; [by destruct Hnz; apply Hn|].
      cbn in Hh. destruct Hs as (_ & _ & Hs). cbn [length] in Hdis.
      rewrite (IH _ (i + 1) rest).
      * unfold store. rewrite Hh. repeat case_decide; try lia; try reflexivity.
        -- replace (Z.to_nat (x - dest - i)) with (S (Z.to_nat (x - dest - (i + 1)))) by lia.
           reflexivity.
        -- subst x. by replace (dest + i - dest - i) with 0 by lia.
      * replace (src + (i + 1)) with (src + i + 1) by lia.
        eapply cstring_frame; [|exact Hs]. intros y Hy. apply store_ne. lia.
      * lia.
    + assert (m (src + i) = 0) as H0.
      { destruct (decide (m (src + i) = 0)); [done|]. by destruct Hnz. }
      apply Hn in H0 as ->. rewrite strncpy_pad_spec.
      case_decide; [|reflexivity]. by destruct (Z.to_nat _).
Qed.

(** X26: [strncpy] writes exactly [n] bytes: the characters of the
    source, then NULs up to [n].  When the source has [n] characters or
    more, none of the bytes written is a NUL: the copy is not terminated. *)
Theorem strncpy_writes_n_bytes (m : mem) (dest src n : Z) (l : list Z) :
  cstring m src l → 0 ≤ n →
  dest + n ≤ src ∨ src + Z.of_nat (length l) < dest →
  (∀ i, 0 ≤ i < n → strncpy m dest src n (dest + i) = nth (Z.to_nat i) l 0) ∧
  (∀ x, ¬ (dest ≤ x < dest + n) → strncpy m dest src n x = m x) ∧
  (n ≤ Z.of_nat (length l) → ∀ i, 0 ≤ i < n → strncpy m dest src n (dest + i) ≠ 0).
Proof.
  intros Hs Hn0 Hdis. unfold strncpy.
  assert (∀ x, strncpy_from (Z.to_nat n) m dest src 0 x =
               if decide (dest ≤ x < dest + Z.of_nat (Z.to_nat n))
               then nth (Z.to_nat (x - dest)) l 0 else m x) as Hspec.
  { intros x. rewrite (strncpy_from_spec dest src _ m 0 l).
    - rewrite !Z.add_0_r, Z.sub_0_r. reflexivity.
    - by rewrite Z.add_0_r.
    - lia. }
  assert (∀ i, 0 ≤ i < n →
               strncpy_from (Z.to_nat n) m dest src 0 (dest + i) = nth (Z.to_nat i) l 0)
    as Hcopy.
  { intros i Hi. rewrite Hspec, decide_True by lia. f_equal. lia. }
  split_and!.
  - exact Hcopy.
  - intros x Hx. rewrite Hspec, decide_False; [done | lia].
  - intros Hn i Hi. rewrite Hcopy by done.
    clear Hspec Hcopy Hdis Hn0. revert src Hs i n Hi Hn.
    induction l as [|c l IH]; intros src Hs i n Hi Hn; [cbn in Hn; lia|].
    destruct Hs as (_ & Hnz & Hs).
    destruct (decide (i = 0)) as [->|]; [done|].
    replace (Z.to_nat i) with (S (Z.to_nat (i - 1))) by lia. cbn [nth].
    apply (IH _ Hs (i - 1) (n - 1)); [lia|]. cbn [length] in Hn. lia.
Qed.

Lemma strncpy_witness :
  (∀ i, 0 ≤ i < 4 →
     strncpy (mem_of 100 [105; 110; 105; 116]) 200 100 4 (200 + i) =
     nth (Z.to_nat i) [105; 110; 105; 116] 0) ∧
  (∀ x, ¬ (200 ≤ x < 200 + 4) →
     strncpy (mem_of 100 [105; 110; 105; 116]) 200 100 4 x =
     mem_of 100 [105; 110; 105; 116] x) ∧
  (4 ≤ Z.of_nat (length [105; 110; 105; 116]) →
   ∀ i, 0 ≤ i < 4 → strncpy (mem_of 100 [105; 110; 105; 116]) 200 100 4 (200 + i) ≠ 0).
Proof.
  apply (strncpy_writes_n_bytes (mem_of 100 [105; 110; 105; 116]) 200 100 4
           [105; 110; 105; 116]).
  - vm_compute. split_and!; (reflexivity || discriminate).
  - lia.
  - right. cbn. lia.
Defined.

End KernelStrings.

(** ** string.c: formatted output *)

Section FormattedOutput.
Import Printf.

Lemma written_refl (b : buffer) : written b b.
Proof. by split_and!. Qed.

Lemma written_trans (b1 b2 b3 : buffer) : written b1 b2 → written b2 b3 → written b1 b3.
Proof.
  intros (H1 & H2 & H3) (H4 & H5 & H6). split_and!; [lia | auto |].
  intros H. rewrite H6; [by apply H3|]. by rewrite H3.
Qed.

Lemma written_put (c : Z) (b : buffer) : 1 < remaining b → written b (put c b).
Proof.
  intros H. unfold written, put. cbn. rewrite length_app. cbn. split_and!; lia.
Qed.

Lemma written_put_if_room (c : Z) (b : buffer) : written b (put_if_room c b).
Proof.
  unfold put_if_room. case_bool_decide; [by apply written_put | apply written_refl].
Qed.

Lemma written_print_string (s : list Z) (b : buffer) : written b (print_string s b).
Proof.
  revert b. induction s as [|c s IH]; intros b; [apply written_refl|]. cbn [print_string].
  case_bool_decide; cbn [andb]; [|apply written_refl].
  case_bool_decide; [|apply written_refl].
  eapply written_trans; [by apply written_put | apply IH].
Qed.

Lemma written_pad_zeros (k : nat) (b : buffer) : written b (pad_zeros k b).
Proof.
  revert b. induction k as [|k IH]; intros b; [apply written_refl|]. cbn [pad_zeros].
  case_bool_decide; [|apply written_refl].
  eapply written_trans; [by apply written_put | apply IH].
Qed.

Lemma written_print_reversed (l : list Z) (b : buffer) : written b (print_reversed l b).
Proof.
  revert b. induction l as [|c l IH]; intros b; [apply written_refl|]. cbn [print_reversed].
  case_bool_decide; [|apply written_refl].
  eapply written_trans; [by apply written_put | apply IH].
Qed.

Lemma written_print_number (num base width : Z) (b : buffer) :
  written b (print_number num base width b).
Proof.
  unfold print_number.
  eapply written_trans; [apply written_pad_zeros | apply written_print_reversed].
Qed.

Lemma written_conversion (conv width : Z) (args args' : list varg) (b b' : buffer) :
  conversion conv width args b = Some (args', b') → written b b'.
Proof.
  unfold conversion. intros H.
  case_bool_decide.
  { destruct args as [|[c|?] ?]; try discriminate H. injection H as <- <-.
    apply written_put_if_room. }
  case_bool_decide.
  { destruct args as [|[?|s] ?]; try discriminate H. injection H as <- <-.
    apply written_print_string. }
  destruct (_ || _).
  { destruct args as [|[n|?] ?]; try discriminate H.
    destruct (bool_decide (to_int n < 0)); injection H as <- <-.
    - eapply written_trans; [apply written_put_if_room | apply written_print_number].
    - apply written_print_number. }
  case_bool_decide.
  { destruct args as [|[n|?] ?]; try discriminate H. injection H as <- <-.
    apply written_print_number. }
  destruct (_ || _).
  { destruct args as [|[n|?] ?]; try discriminate H. injection H as <- <-.
    apply written_print_number. }
  case_bool_decide.
  { destruct args as [|[n|?] ?]; try discriminate H. injection H as <- <-.
    eapply written_trans; [apply (written_print_string [48; 120]) |].
    apply (written_print_number (wrap64 n) 16 16). }
  case_bool_decide; injection H as <- <-; apply written_put_if_room.
Qed.

Lemma written_vsnprintf_loop (fmt : list Z) :
  ∀ (args : list varg) (b : buffer), written b (fst (vsnprintf_loop fmt args b)).
Proof.
  induction fmt as [fmt IH] using (induction_ltof1 _ (@length Z)). unfold ltof in IH.
  intros args b. destruct fmt as [|c fmt1]; [apply written_refl|]. cbn [vsnprintf_loop].
  destruct (bool_decide (c = 0) || _) eqn:Hstop; [apply written_refl|].
  apply orb_false_iff in Hstop as [_ Hroom]. apply negb_false_iff, bool_decide_eq_true in Hroom.
  case_bool_decide.
  { eapply written_trans; [by apply written_put|]. apply IH. cbn. lia. }
  destruct fmt1 as [|d fmt2]; [apply written_put_if_room|].
  destruct (bool_decide (48 ≤ d) && _).
  - destruct fmt2 as [|conv fmt3]; [apply written_put_if_room|].
    destruct (conversion conv (d - 48) args b) as [[args' b']|] eqn:Hconv; [|apply written_refl].
    eapply written_trans; [by eapply written_conversion|]. apply IH. cbn. lia.
  - destruct (conversion d 0 args b) as [[args' b']|] eqn:Hconv; [|apply written_refl].
    eapply written_trans; [by eapply written_conversion|]. apply IH. cbn. lia.
Qed.

(** X27: [vsnprintf] never writes outside a buffer of [size] bytes: for
    [size > 0] fewer than [size] bytes are written and the NUL behind them
    is inside the buffer, whatever the format and the arguments; for
    [size <= 1] no byte of the format is written, and for [size = 0] no
    NUL either. *)
Theorem vsnprintf_stays_in_buffer (size : Z) (fmt : list Z) (args : list varg) :
  (0 < size →
   Z.of_nat (length (bytes (vsnprintf size fmt args))) < size ∧
   (how (vsnprintf size fmt args) = Finished →
    terminated (vsnprintf size fmt args) = true)) ∧
  (size ≤ 1 → bytes (vsnprintf size fmt args) = []) ∧
  (size ≤ 0 → terminated (vsnprintf size fmt args) = false).
Proof.
  unfold vsnprintf.
  pose proof (written_vsnprintf_loop fmt args (mkBuf [] size)) as (Hsum & Hroom & Hfull).
  destruct (vsnprintf_loop fmt args (mkBuf [] size)) as [b st].
  cbn [fst out remaining length bytes terminated how] in *.
  split_and!.
  - intros Hsize. split; [lia|]. intros ->. apply bool_decide_eq_true. lia.
  - intros Hsize. by rewrite (Hfull Hsize).
  - intros Hsize. rewrite (Hfull ltac:(lia)). cbn.
    destruct st; [|done..]. apply bool_decide_eq_false. lia.
Qed.

Lemma to_int_small (x : Z) : - 2 ^ 31 ≤ x < 2 ^ 31 → to_int x = x.
Proof.
  intros Hx. unfold to_int, wrap32. destruct (decide (0 ≤ x)).
  - rewrite Z.mod_small by lia. rewrite bool_decide_eq_true_2; lia.
  - replace (x mod 2 ^ 32) with (x + 2 ^ 32).
    + rewrite bool_decide_eq_false_2; lia.
    + symmetry. rewrite <- (Z.mod_add x 1) by lia. apply Z.mod_small. lia.
Qed.

Lemma digit_char (r : Z) : 0 ≤ r < 10 → nth (Z.to_nat r) digits 0 = 48 + r.
Proof.
  intros Hr.
  assert (r = 0 ∨ r = 1 ∨ r = 2 ∨ r = 3 ∨ r = 4 ∨ r = 5 ∨ r = 6 ∨ r = 7 ∨ r = 8 ∨ r = 9)
    as Hcases by lia.
  repeat (destruct Hcases as [->|Hcases]; [reflexivity|]). by subst.
Qed.

Lemma decimal_value_snoc (l : list Z) (c : Z) :
  decimal_value (l ++ [c]) = 10 * decimal_value l + (c - 48).
Proof. unfold decimal_value. by rewrite fold_left_app. Qed.

Lemma temp_loop_spec (fuel : nat) :
  ∀ (k : nat) (num : Z),
    (k ≤ fuel)%nat → 0 ≤ num < 10 ^ Z.of_nat k →
    Forall is_digit (temp_loop fuel num 10) ∧
    (length (temp_loop fuel num 10) ≤ k)%nat ∧
    decimal_value (rev (temp_loop fuel num 10)) = num.
Proof.
  induction fuel as [|fuel IH]; intros k num Hk Hnum.
  - assert (k = 0%nat) as -> by lia. cbn in *. split_and!; [constructor | lia | lia].
  - cbn [temp_loop]. case_bool_decide as Hpos.
    + destruct k as [|k]; [cbn in Hnum; lia|].
      rewrite Nat2Z.inj_succ, Z.pow_succ_r in Hnum by lia.
      pose proof (Z.mod_pos_bound num 10 ltac:(lia)) as Hr.
      pose proof (Z.div_mod num 10 ltac:(lia)) as Hdm.
      destruct (IH k (num / 10) ltac:(lia)) as (Hdig & Hlen & Hval).
      { split; [apply Z.div_pos; lia|]. apply Z.div_lt_upper_bound; lia. }
      rewrite digit_char by done. split_and!.
      * constructor; [unfold is_digit; lia | done].
      * cbn [length]. lia.
      * cbn [rev]. rewrite decimal_value_snoc, Hval. lia.
    + assert (num = 0) as -> by lia. split_and!; [constructor | cbn; lia | reflexivity].
Qed.

Lemma temp_of_spec (num : Z) :
  0 ≤ num < 10 ^ 10 →
  rev (temp_of num 10) ≠ [] ∧ Forall is_digit (rev (temp_of num 10)) ∧
  (length (rev (temp_of num 10)) ≤ 10)%nat ∧ decimal_value (rev (temp_of num 10)) = num.
Proof.
  intros Hnum. unfold temp_of. case_bool_decide as Hz.
  - subst num. split_and!; [done | | cbn; lia | reflexivity].
    repeat constructor; unfold is_digit; lia.
  - destruct (temp_loop_spec 64 10 num ltac:(lia) Hnum) as (Hdig & Hlen & Hval).
    split_and!.
    + intros Hnil. rewrite Hnil in Hval. cbn in Hval. lia.
    + by apply Forall_rev.
    + by rewrite length_rev.
    + done.
Qed.

Lemma print_reversed_room (l : list Z) :
  ∀ b, Z.of_nat (length l) < remaining b →
       print_reversed l b = mkBuf (out b ++ l) (remaining b - Z.of_nat (length l)).
Proof.
  induction l as [|c l IH]; intros [o r] Hroom; cbn [remaining out length] in *.
  - cbn. by rewrite app_nil_r, Z.sub_0_r.
  - cbn [print_reversed remaining]. rewrite bool_decide_eq_true_2 by lia.
    rewrite IH; unfold put; cbn [out remaining]; [|lia].
    rewrite <- app_assoc. f_equal. lia.
Qed.

Lemma print_number_decimal (num : Z) (b : buffer) :
  0 ≤ num < 2 ^ 31 → 10 < remaining b →
  print_number (wrap64 num) 10 0 b =
  mkBuf (out b ++ rev (temp_of num 10))
        (remaining b - Z.of_nat (length (rev (temp_of num 10)))).
Proof.
  intros Hnum Hroom. unfold print_number, wrap64. rewrite Z.mod_small by lia.
  destruct (temp_of_spec num ltac:(lia)) as (_ & _ & Hlen & _).
  rewrite Z2Nat.nonpos by lia. cbn [pad_zeros].
  apply print_reversed_room. lia.
Qed.

(** X28: [%d] prints an [int] in decimal: a minus sign for a negative
    number, then the digits of its absolute value, read back by
    [decimal_value]; with room for 11 characters nothing is cut off and
    the value returned is the number of characters. *)
Theorem vsnprintf_prints_decimal (size n : Z) :
  - 2 ^ 31 < n < 2 ^ 31 → 12 ≤ size →
  ∃ ds,
    vsnprintf size [37; 100] [VInt n] =
      mkPrinted ((if bool_decide (n < 0) then [45] else []) ++ ds) true
                (Z.of_nat (length ((if bool_decide (n < 0) then [45] else []) ++ ds)))
                Finished ∧
    ds ≠ [] ∧ Forall is_digit ds ∧ decimal_value ds = Z.abs n.
Proof.
  intros Hn Hsize. exists (rev (temp_of (Z.abs n) 10)).
  destruct (temp_of_spec (Z.abs n) ltac:(lia)) as (Hne & Hdig & Hlen & Hval).
  split; [|done].
  unfold vsnprintf. cbn [vsnprintf_loop remaining].
  rewrite (bool_decide_eq_false_2 (37 = 0)) by lia.
  rewrite (bool_decide_eq_true_2 (1 < size)) by lia. cbn [orb negb].
  rewrite (bool_decide_eq_false_2 (37 ≠ 37)) by (intros H; by apply H).
  rewrite (bool_decide_eq_false_2 (100 ≤ 57)) by lia. rewrite andb_false_r.
  unfold conversion.
  rewrite (bool_decide_eq_false_2 (100 = 99)), (bool_decide_eq_false_2 (100 = 115)) by lia.
  rewrite (bool_decide_eq_true_2 (100 = 100)) by lia. cbn [orb].
  rewrite to_int_small by lia. case_bool_decide as Hneg.
  - rewrite to_int_small by lia. unfold put_if_room. cbn [remaining].
    rewrite (bool_decide_eq_true_2 (1 < size)) by lia.
    remember (Z.abs n) as a eqn:Ha. replace (- n) with a by lia.
    rewrite print_number_decimal by (unfold put; cbn; lia).
    unfold put. cbn [out remaining app length].
    rewrite bool_decide_eq_true_2 by lia.
    f_equal. apply to_int_small. cbn [length]. lia.
  - remember (Z.abs n) as a eqn:Ha. assert (n = a) as -> by lia.
    rewrite print_number_decimal by (cbn; lia).
    cbn [out remaining app length].
    rewrite bool_decide_eq_true_2 by lia.
    f_equal. apply to_int_small. lia.
Qed.

Lemma vsnprintf_decimal_witness :
  ∃ ds,
    vsnprintf 16 [37; 100] [VInt (-42)] =
      mkPrinted ((if bool_decide (-42 < 0) then [45] else []) ++ ds) true
                (Z.of_nat (length ((if bool_decide (-42 < 0) then [45] else []) ++ ds)))
                Finished ∧
    ds ≠ [] ∧ Forall is_digit ds ∧ decimal_value ds = Z.abs (-42).
Proof. apply (vsnprintf_prints_decimal 16 (-42)); lia. Defined.

End FormattedOutput.

(** ** syscalls.c: [snprintf] *)

Section SyscallPrintf.
Import SysPrintf.

Lemma limit_pos (size : Z) : 0 < size < 2 ^ 64 → limit size = size - 1.
Proof. intros H. unfold limit, wrap64. apply Z.mod_small. lia. Qed.

Lemma emit_bound (size : Z) (l : list Z) :
  ∀ out, Z.of_nat (length out) ≤ limit size →
         Z.of_nat (length (emit size l out)) ≤ limit size.
Proof.
  induction l as [|c l IH]; intros out Hout; [done|]. cbn [emit].
  destruct (bool_decide (c ≠ 0)); cbn [andb]; [|done].
  case_bool_decide; [|done]. apply IH. rewrite length_app. cbn. lia.
Qed.

Lemma emit_temp_bound (size : Z) (l : list Z) :
  ∀ out, Z.of_nat (length out) ≤ limit size →
         Z.of_nat (length (emit_temp size l out)) ≤ limit size.
Proof.
  induction l as [|c l IH]; intros out Hout; [done|]. cbn [emit_temp].
  case_bool_decide; [|done]. apply IH. rewrite length_app. cbn. lia.
Qed.

Lemma snprintf_loop_bound (size : Z) (fmt : list Z) :
  ∀ args out, Z.of_nat (length out) ≤ limit size →
              Z.of_nat (length (fst (snprintf_loop size fmt args out))) ≤ limit size.
Proof.
  induction fmt as [fmt IH] using (induction_ltof1 _ (@length Z)). unfold ltof in IH.
  intros args out Hout. destruct fmt as [|c fmt1]; [done|]. cbn [snprintf_loop].
  destruct (bool_decide (c = 0) || _) eqn:Hstop; [done|].
  apply orb_false_iff in Hstop as [_ Hroom]. apply negb_false_iff, bool_decide_eq_true in Hroom.
  assert (∀ x, Z.of_nat (length (out ++ [x])) ≤ limit size) as Hput.
  { intros x. rewrite length_app. cbn. lia. }
  destruct fmt1 as [|d fmt2]; [apply Hput|].
  destruct (bool_decide (c = 37) && _); [|apply IH; [cbn; lia | apply Hput]].
  case_bool_decide.
  { destruct args as [|[n|?] ?]; try done. apply IH; [cbn; lia|]. by apply emit_temp_bound. }
  case_bool_decide.
  { destruct fmt2 as [|e fmt3]; [done|]. destruct (_ || _); [|apply IH; [cbn; lia | done]].
    destruct args as [|[n|?] ?]; try done. apply IH; [cbn; lia|]. by apply emit_temp_bound. }
  case_bool_decide.
  { destruct args as [|[?|[s|]] ?]; try done. apply IH; [cbn; lia|]. by apply emit_bound. }
  case_bool_decide.
  { destruct args as [|[ch|?] ?]; try done. apply IH; [cbn; lia | apply Hput]. }
  apply IH; [cbn; lia | apply Hput].
Qed.

Lemma snprintf_loop_plain (fmt : list Z) :
  ∀ args out,
    Forall (λ c, c ≠ 0 ∧ c ≠ 37) fmt →
    Z.of_nat (length out) + Z.of_nat (length fmt) < 2 ^ 64 →
    snprintf_loop 0 fmt args out = (out ++ fmt, Printf.Finished).
Proof.
  induction fmt as [|c fmt1 IH]; intros args out Hplain Hlen.
  - by rewrite app_nil_r.
  - apply Forall_cons in Hplain as [[Hc0 Hc37] Hplain]. cbn [snprintf_loop length] in *.
    rewrite (bool_decide_eq_false_2 (c = 0)) by done.
    change (limit 0) with (2 ^ 64 - 1).
    rewrite bool_decide_eq_true_2 by lia. cbn [orb negb].
    destruct fmt1 as [|d fmt2]; [reflexivity|].
    rewrite (bool_decide_eq_false_2 (c = 37)) by done. cbn [andb].
    rewrite IH; [by rewrite <- app_assoc | done |].
    rewrite length_app. cbn [length] in *. lia.
Qed.

(** X29: the [snprintf] of syscalls.c keeps to a buffer of [size >= 1]
    bytes: at most [size - 1] bytes and the NUL are written.  With
    [size = 0] its bound [size - 1] wraps to 2^64 - 1: a format without
    directives is copied whole, so all of its bytes and the NUL are written
    to a buffer that has no room. *)
Theorem snprintf_overruns_a_buffer_of_size_zero (fmt : list Z) (args : list Printf.varg) :
  (∀ size, 0 < size < 2 ^ 64 →
           Z.of_nat (length (fst (snprintf size fmt args))) ≤ size - 1) ∧
  (Forall (λ c, c ≠ 0 ∧ c ≠ 37) fmt → Z.of_nat (length fmt) < 2 ^ 64 →
   snprintf 0 fmt args = (fmt, Printf.Finished)).
Proof.
  unfold snprintf. split.
  - intros size Hsize. rewrite <- limit_pos by done.
    apply snprintf_loop_bound. rewrite limit_pos by done. cbn. lia.
  - intros Hplain Hlen. rewrite snprintf_loop_plain; [done..|]. cbn [length]. lia.
Qed.

Lemma int_digits_spec (fuel : nat) :
  ∀ (k : nat) (a : Z),
    (k ≤ fuel)%nat → 0 ≤ a < 10 ^ Z.of_nat k →
    ∃ t, Forall Printf.is_digit t ∧ (length t ≤ k)%nat ∧
         Printf.decimal_value (rev t) = a ∧
         int_digits fuel a = t ∧ int_digits fuel (- a) = map (λ c, 96 - c) t.
Proof.
  induction fuel as [|fuel IH]; intros k a Hk Ha.
  - assert (k = 0%nat) as -> by lia. cbn in Ha. exists []. cbn.
    split_and!; [constructor | lia | lia | done | done].
  - cbn [int_digits]. destruct (decide (a = 0)) as [->|Hnz].
    { exists []. cbn. split_and!; [constructor | lia | lia | done | done]. }
    rewrite !bool_decide_eq_true_2 by lia.
    destruct k as [|k]; [cbn in Ha; lia|].
    rewrite Nat2Z.inj_succ, Z.pow_succ_r in Ha by lia.
    pose proof (Z.mod_pos_bound a 10 ltac:(lia)) as Hr.
    pose proof (Z.div_mod a 10 ltac:(lia)) as Hdm.
    destruct (IH k (a / 10) ltac:(lia)) as (t & Hdig & Hlen & Hval & Hpos & Hneg).
    { split; [apply Z.div_pos; lia|]. apply Z.div_lt_upper_bound; lia. }
    exists (48 + a mod 10 :: t).
    rewrite Z.rem_opp_l, Z.quot_opp_l by lia.
    rewrite Z.rem_mod_nonneg, Z.quot_div_nonneg by lia.
    rewrite Hpos, Hneg. split_and!.
    + constructor; [unfold Printf.is_digit; lia | done].
    + cbn [length]. lia.
    + cbn [rev]. rewrite decimal_value_snoc, Hval. lia.
    + f_equal. unfold wrap8. apply Z.mod_small. lia.
    + cbn [map]. f_equal. unfold wrap8. rewrite Z.mod_small; lia.
Qed.

Lemma emit_temp_room (size : Z) (l : list Z) :
  ∀ out, Z.of_nat (length out) + Z.of_nat (length l) ≤ limit size →
         emit_temp size l out = out ++ l.
Proof.
  induction l as [|c l IH]; intros out Hroom; [by rewrite app_nil_r|].
  cbn [emit_temp length] in *. rewrite bool_decide_eq_true_2 by lia.
  rewrite IH; [by rewrite <- app_assoc|]. rewrite length_app. cbn. lia.
Qed.

(** X30: [%d] in the [snprintf] of syscalls.c prints a number that is not
    negative in decimal.  For a negative number it prints no sign, and in
    place of every digit [c] of the absolute value the character
    ['0' - (c - '0')]: -3 is printed as the one character 45, a minus
    sign, and -12 as the characters 47 and 46. *)
Theorem snprintf_misprints_negative_numbers (size n : Z) :
  - 2 ^ 31 < n < 2 ^ 31 → 12 ≤ size < 2 ^ 64 →
  ∃ ds, Forall Printf.is_digit ds ∧ Printf.decimal_value ds = Z.abs n ∧
        snprintf size [37; 100] [Printf.VInt n] =
          (if bool_decide (n < 0) then map (λ c, 96 - c) ds else ds, Printf.Finished).
Proof.
  intros Hn Hsize.
  assert (snprintf size [37; 100] [Printf.VInt n] =
            (emit_temp size (temp_of n) [], Printf.Finished)) as ->.
  { unfold snprintf. cbn [snprintf_loop length].
    rewrite limit_pos by lia.
    rewrite (bool_decide_eq_false_2 (37 = 0)) by lia.
    rewrite (bool_decide_eq_true_2 (Z.of_nat 0 < size - 1)) by lia. cbn [orb negb].
    rewrite (bool_decide_eq_true_2 (37 = 37)) by lia.
    rewrite (bool_decide_eq_true_2 (100 ≠ 0)) by lia. cbn [andb].
    rewrite (bool_decide_eq_true_2 (100 = 100)) by lia.
    by rewrite to_int_small by lia. }
  assert (∀ ds, (length ds ≤ 10)%nat → emit_temp size ds [] = ds) as Hemit.
  { intros ds Hlen. rewrite emit_temp_room; [done|]. rewrite limit_pos by lia.
    cbn [length]. lia. }
  unfold temp_of. destruct (decide (n = 0)) as [->|Hnz].
  { exists [48]. split_and!; [repeat constructor; unfold Printf.is_digit; lia | done |].
    rewrite bool_decide_eq_true_2 by done. by rewrite Hemit by (cbn; lia). }
  rewrite (bool_decide_eq_false_2 (n = 0)) by done.
  destruct (int_digits_spec 31 10 (Z.abs n) ltac:(lia) ltac:(lia))
    as (t & Hdig & Hlen & Hval & Hpos & Hneg).
  exists (rev t). split_and!; [by apply Forall_rev | done |].
  case_bool_decide as Hsign.
  - replace n with (- Z.abs n) at 1 by lia. rewrite Hneg, <- map_rev.
    by rewrite Hemit by (rewrite length_map, length_rev; lia).
  - replace n with (Z.abs n) at 1 by lia. rewrite Hpos.
    by rewrite Hemit by (rewrite length_rev; lia).
Qed.

Lemma snprintf_negative_witness :
  ∃ ds, Forall Printf.is_digit ds ∧ Printf.decimal_value ds = Z.abs (-12) ∧
        snprintf 16 [37; 100] [Printf.VInt (-12)] =
          (if bool_decide (-12 < 0) then map (λ c, 96 - c) ds else ds, Printf.Finished).
Proof. apply (snprintf_misprints_negative_numbers 16 (-12)); lia. Defined.

End SyscallPrintf.
